(** * Realtime leaderboard: rank store, score-update orchestrator,
      write-behind pipeline, search annotation and WebSocket hub

    A shallow embedding of the Go sources

    - [internal/repository] (leaderboard and user repositories),
    - [internal/service] (leaderboard, db-sync, search services),
    - [internal/handler] (request guards in front of the services),
    - [internal/websocket] (hub and client),

    together with the properties of the ranking and update pipeline.

    Conventions.  Go's [uint] is an [N], Go's [int]/[int64] is a [Z] whose
    wrap-around is written [wrap64] where the source does arithmetic on it.
    A sorted-set score is [float64(rating)] for an [int] rating; that
    conversion is exact for |rating| <= 2^53, so scores are integers here.
    Redis and PostgreSQL are external services: each call to them is one
    tick of the [calls] counter and fails with a transport error, without
    effect, exactly when the fault schedule [fault] says so at that tick. *)

From Stdlib Require Import ZArith NArith Lia List String Ascii Bool.
From Stdlib Require Import Sorting.Sorted.
From stdpp Require Import base option list sorting gmap strings fin_maps.

Local Open Scope string_scope.
Local Open Scope list_scope.
Local Open Scope Z_scope.

(** ** Machine integers *)

Definition wrap64 (z : Z) : Z := (z + 2 ^ 63) mod 2 ^ 64 - 2 ^ 63.

Definition int_sub (a b : Z) : Z := wrap64 (a - b).
Definition int_add (a b : Z) : Z := wrap64 (a + b).

Definition in_int64 (z : Z) : Prop := - 2 ^ 63 <= z < 2 ^ 63.

(** ** strconv and fmt on decimal numerals *)

Module strconv.

Inductive NumError := ErrSyntax | ErrRange.

Definition digit_char (d : N) : ascii := ascii_of_N (48 + d).

Definition digit_of (c : ascii) : option N :=
  let n := N_of_ascii c in
  if ((48 <=? n) && (n <=? 57))%N then Some (n - 48)%N else None.

(** [formatBits]: the least significant digit is produced first and
    written in front of what is already there. *)
Fixpoint formatBits (fuel : nat) (u : N) (acc : string) : string :=
  match fuel with
  | O => String (digit_char u) acc
  | S fuel' =>
      if (10 <=? u)%N
      then formatBits fuel' (u / 10)%N (String (digit_char (u mod 10)%N) acc)
      else String (digit_char u) acc
  end.

Definition FormatUint (u : N) : string :=
  formatBits (N.to_nat (N.log2 u)) u "".

Definition Itoa (z : Z) : string :=
  if z <? 0 then String "-" (FormatUint (Z.to_N (- z)))
  else FormatUint (Z.to_N z).

Definition cutoff : N := (18446744073709551615 / 10 + 1)%N.

(** The digit loop of [ParseUint(s, 10, bitSize)]: the first offending
    byte decides between a syntax error (value 0) and a range error
    (value [maxVal]). *)
Fixpoint parse_loop (s : string) (n maxVal : N) : N * option NumError :=
  match s with
  | EmptyString => (n, None)
  | String c rest =>
      match digit_of c with
      | None => (0%N, Some ErrSyntax)
      | Some d =>
          if (cutoff <=? n)%N then (maxVal, Some ErrRange)
          else
            let n1 := (n * 10 + d)%N in
            if ((2 ^ 64 <=? n1) || (maxVal <? n1))%N
            then (maxVal, Some ErrRange)
            else parse_loop rest n1 maxVal
      end
  end.

Definition ParseUint (s : string) (bitSize : N) : N * option NumError :=
  match s with
  | EmptyString => (0%N, Some ErrSyntax)
  | _ => parse_loop s 0 (2 ^ bitSize - 1)
  end.

(** [Atoi] is [ParseInt(s, 10, 0)] on a 64-bit platform (its fast path
    for short strings computes the same value). *)
Definition Atoi (s : string) : Z * option NumError :=
  match s with
  | EmptyString => (0, Some ErrSyntax)
  | String c rest =>
      let neg := Ascii.eqb c "-" in
      let body := if Ascii.eqb c "+" || Ascii.eqb c "-" then rest else s in
      match ParseUint body 64 with
      | (_, Some ErrSyntax) => (0, Some ErrSyntax)
      | (un, _) =>
          if negb neg && (2 ^ 63 <=? un)%N then (2 ^ 63 - 1, Some ErrRange)
          else if neg && (2 ^ 63 <? un)%N then (- 2 ^ 63, Some ErrRange)
          else (if neg then - Z.of_N un else Z.of_N un, None)
      end
  end.

End strconv.

Module gostrings.

Fixpoint CutPrefix (s prefix : string) {struct prefix} : option string :=
  match prefix with
  | EmptyString => Some s
  | String p prefix' =>
      match s with
      | EmptyString => None
      | String c s' => if Ascii.eqb c p then CutPrefix s' prefix' else None
      end
  end.

Definition TrimPrefix (s prefix : string) : string :=
  match CutPrefix s prefix with
  | Some rest => rest
  | None => s
  end.

End gostrings.



(** ** Data model ([internal/models]) *)

(** The row of the [users] table that the modelled code reads and writes;
    the audit columns ([created_at], [updated_at], [deleted_at]) are not
    read by any modelled function. *)
Module User.
Record t := mk { ID : N; Username : string; Rating : Z }.
End User.

Module ScoreUpdate.
Record t := mk {
  UserID : N; OldRating : Z; NewRating : Z; Change : Z; UpdatedAt : Z }.
End ScoreUpdate.

Module LeaderboardEntry.
Record t := mk { Rank : Z; UserID : N; Username : string; Rating : Z }.
End LeaderboardEntry.

Module SearchResult.
Record t := mk { GlobalRank : Z; UserID : N; Username : string; Rating : Z }.
End SearchResult.

Module ScoreUpdatePayload.
Record t := mk {
  UserID : N; Username : string;
  OldRating : Z; NewRating : Z;
  OldRank : Z; NewRank : Z;
  RankDelta : Z; RatingDelta : Z;
  Timestamp : Z }.
End ScoreUpdatePayload.

Module DBSyncQueueItem.
Record t := mk { UserID : N; OldRating : Z; NewRating : Z; Timestamp : Z }.
End DBSyncQueueItem.

(** ** Errors *)

Inductive error :=
| redis_Nil
| gorm_ErrRecordNotFound
| transport (service : string)
| json_error
| Errorf (msg : string)
| Errorf_w (msg : string) (wrapped : error)
| runtime_panic (msg : string).

Inductive result (A : Type) :=
| Ok (a : A)
| Err (e : error).
Arguments Ok {A} a.
Arguments Err {A} e.

(** The value of the single field [data] of a stream entry: the JSON text
    of a queue item, kept as the item it decodes to, or bytes that no
    [json.Unmarshal] accepts. *)
Inductive wire :=
| json_of (item : DBSyncQueueItem.t)
| garbage (raw : string).

Definition json_Marshal (item : DBSyncQueueItem.t) : wire := json_of item.

Definition json_Unmarshal (raw : wire) : result DBSyncQueueItem.t :=
  match raw with
  | json_of item => Ok item
  | garbage _ => Err json_error
  end.

(** ** The world: Redis keys, PostgreSQL tables, process state *)

Record World := mkWorld {
  (* Redis: sorted set leaderboard:global, member to score *)
  zset : gmap string Z;
  (* Redis: hashes user:cache:<id>, by id *)
  hashes : gmap N (gmap string string);
  (* Redis: messages accepted on channel leaderboard:score_updates *)
  channel : list ScoreUpdatePayload.t;
  (* Redis: stream:score_updates, oldest entry first, and its id generator *)
  stream : list (nat * wire);
  stream_last_id : nat;
  (* Redis: consumer group db-sync-group *)
  group_last_delivered : nat;
  group_pel : gset nat;
  (* PostgreSQL: tables users and score_updates *)
  users : gmap N User.t;
  score_updates : list ScoreUpdate.t;
  (* dbSyncService: batch counter and trimStream goroutines not yet run *)
  batchCounter : Z;
  trims_spawned : nat;
  (* environment: wall clock, calls made so far, fault schedule *)
  now : Z;
  calls : nat;
  fault : nat → bool }.

Definition set_zset (w : World) (v : gmap string Z) : World :=
  mkWorld v (hashes w) (channel w) (stream w) (stream_last_id w)
    (group_last_delivered w) (group_pel w) (users w) (score_updates w)
    (batchCounter w) (trims_spawned w) (now w) (calls w) (fault w).

Definition set_hashes (w : World) (v : gmap N (gmap string string)) : World :=
  mkWorld (zset w) v (channel w) (stream w) (stream_last_id w)
    (group_last_delivered w) (group_pel w) (users w) (score_updates w)
    (batchCounter w) (trims_spawned w) (now w) (calls w) (fault w).

Definition set_channel (w : World) (v : list ScoreUpdatePayload.t) : World :=
  mkWorld (zset w) (hashes w) v (stream w) (stream_last_id w)
    (group_last_delivered w) (group_pel w) (users w) (score_updates w)
    (batchCounter w) (trims_spawned w) (now w) (calls w) (fault w).

Definition set_stream (w : World) (v : list (nat * wire)) (last : nat) : World :=
  mkWorld (zset w) (hashes w) (channel w) v last
    (group_last_delivered w) (group_pel w) (users w) (score_updates w)
    (batchCounter w) (trims_spawned w) (now w) (calls w) (fault w).

Definition set_group (w : World) (delivered : nat) (pel : gset nat) : World :=
  mkWorld (zset w) (hashes w) (channel w) (stream w) (stream_last_id w)
    delivered pel (users w) (score_updates w)
    (batchCounter w) (trims_spawned w) (now w) (calls w) (fault w).

Definition set_tables (w : World) (u : gmap N User.t) (h : list ScoreUpdate.t) : World :=
  mkWorld (zset w) (hashes w) (channel w) (stream w) (stream_last_id w)
    (group_last_delivered w) (group_pel w) u h
    (batchCounter w) (trims_spawned w) (now w) (calls w) (fault w).

Definition set_worker (w : World) (counter : Z) (trims : nat) : World :=
  mkWorld (zset w) (hashes w) (channel w) (stream w) (stream_last_id w)
    (group_last_delivered w) (group_pel w) (users w) (score_updates w)
    counter trims (now w) (calls w) (fault w).

Definition set_calls (w : World) (n : nat) : World :=
  mkWorld (zset w) (hashes w) (channel w) (stream w) (stream_last_id w)
    (group_last_delivered w) (group_pel w) (users w) (score_updates w)
    (batchCounter w) (trims_spawned w) (now w) n (fault w).

Definition set_fault (w : World) (f : nat → bool) : World :=
  mkWorld (zset w) (hashes w) (channel w) (stream w) (stream_last_id w)
    (group_last_delivered w) (group_pel w) (users w) (score_updates w)
    (batchCounter w) (trims_spawned w) (now w) (calls w) f.

(** A computation that talks to the world. *)
Definition M (A : Type) : Type := World → result A * World.

Definition ret {A} (a : A) : M A := fun w => (Ok a, w).

Definition fail {A} (e : error) : M A := fun w => (Err e, w).

Definition bind {A B} (m : M A) (k : A → M B) : M B :=
  fun w =>
    match m w with
    | (Ok a, w') => k a w'
    | (Err e, w') => (Err e, w')
    end.

(** [x, err := m; if err != nil { return handler(err) }] *)
Definition catch {A} (m : M A) (handler : error → M A) : M A :=
  fun w =>
    match m w with
    | (Ok a, w') => (Ok a, w')
    | (Err e, w') => handler e w'
    end.

(** [m] with its error dropped, as in a call whose [err] is not read. *)
Definition ignore_err {A} (m : M A) : M unit :=
  fun w => (Ok tt, snd (m w)).

Notation "x <~ m ;; k" := (bind m (fun x => k))
  (at level 100, m at next level, right associativity).

(** One request to an external service: a tick of [calls]; at a faulty
    tick the request fails and has no effect. *)
Definition call {A} (service : string) (op : M A) : M A :=
  fun w =>
    let w' := set_calls w (S (calls w)) in
    if fault w (calls w) then (Err (transport service), w') else op w'.

Definition time_Now : M Z := fun w => (Ok (now w), w).

(** ** Redis commands on the modelled keys *)

(** ZREVRANGE order: score descending, members of equal score in
    descending byte order. *)
Definition zrev_le (a b : string * Z) : Prop :=
  b.2 < a.2 ∨ (b.2 = a.2 ∧ String.leb b.1 a.1 = true).

#[global] Instance zrev_le_dec : RelDecision zrev_le.
Proof. intros a b. unfold zrev_le. solve_decision. Defined.

#[global] Instance zrev_le_total : Total zrev_le.
Proof.
  intros [m1 s1] [m2 s2]. unfold zrev_le. simpl.
  destruct (Z.lt_trichotomy s1 s2) as [H | [H | H]]; [right; lia | | left; lia].
  subst. destruct (String.leb_total m1 m2); [right | left]; right; auto.
Qed.

Definition zrev_all (zs : gmap string Z) : list (string * Z) :=
  merge_sort zrev_le (map_to_list zs).

(** Index normalisation of ZRANGE/ZREVRANGE: a negative index counts from
    the end of the set. *)
Definition zrange_slice {A} (l : list A) (start stop : Z) : list A :=
  let llen := Z.of_nat (length l) in
  let start := if start <? 0 then llen + start else start in
  let stop := if stop <? 0 then llen + stop else stop in
  let start := if start <? 0 then 0 else start in
  if (stop <? start) || (llen <=? start) then []
  else
    let stop := if llen <=? stop then llen - 1 else stop in
    take (Z.to_nat (stop - start + 1)) (drop (Z.to_nat start) l).

Definition count_above (score : Z) (l : list (string * Z)) : nat :=
  length (filter (λ p : string * Z, score < p.2) l).

Definition ZAdd (member : string) (score : Z) : M unit :=
  call "redis" (fun w => (Ok tt, set_zset w (<[member := score]> (zset w)))).

Definition ZScore (member : string) : M Z :=
  call "redis" (fun w =>
    match zset w !! member with
    | Some score => (Ok score, w)
    | None => (Err redis_Nil, w)
    end).

(** ZCOUNT key (score +inf *)
Definition ZCount_above (score : Z) : M Z :=
  call "redis" (fun w =>
    (Ok (Z.of_nat (count_above score (map_to_list (zset w)))), w)).

Definition ZRevRangeWithScores (start stop : Z) : M (list (string * Z)) :=
  call "redis" (fun w => (Ok (zrange_slice (zrev_all (zset w)) start stop), w)).

Definition ZRem (member : string) : M unit :=
  call "redis" (fun w => (Ok tt, set_zset w (delete member (zset w)))).

Definition ZCard : M Z :=
  call "redis" (fun w => (Ok (Z.of_nat (size (zset w))), w)).

(** ZRANGEBYSCORE key min max: the members whose score lies in
    [min, max], by ascending score, members of equal score in ascending
    byte order: the ZREVRANGE order read backwards. *)
Definition ZRangeByScore (min max : Z) : M (list string) :=
  call "redis" (fun w =>
    (Ok ((filter (λ p : string * Z, min ≤ p.2 ≤ max)
            (reverse (zrev_all (zset w)))).*1), w)).

Definition hash_set (fields : list (string * string)) (h : gmap string string)
  : gmap string string :=
  foldl (λ h fv, <[fv.1 := fv.2]> h) h fields.

Definition HSet (key : N) (fields : list (string * string)) : M unit :=
  call "redis" (fun w =>
    (Ok tt,
     set_hashes w
       (<[key := hash_set fields (default ∅ (hashes w !! key))]> (hashes w)))).

Definition HGetAll (key : N) : M (gmap string string) :=
  call "redis" (fun w => (Ok (default ∅ (hashes w !! key)), w)).

Definition PUBLISH (payload : ScoreUpdatePayload.t) : M unit :=
  call "redis" (fun w => (Ok tt, set_channel w (channel w ++ [payload]))).

Definition XAdd (data : wire) : M unit :=
  call "redis" (fun w =>
    let id := S (stream_last_id w) in
    (Ok tt, set_stream w (stream w ++ [(id, data)]) id)).

(** XREADGROUP GROUP g c COUNT count STREAMS key >: the entries never
    delivered to the group, oldest first; they become pending.  With
    nothing to deliver the blocking read times out with [redis.Nil]. *)
Definition XReadGroup_new (count : nat) : M (list (nat * wire)) :=
  call "redis" (fun w =>
    let fresh :=
      take count
        (filter (λ e : nat * wire, (group_last_delivered w < e.1)%nat) (stream w)) in
    match last fresh with
    | None => (Err redis_Nil, w)
    | Some e =>
        (Ok fresh,
         set_group w e.1 (group_pel w ∪ list_to_set (fresh.*1)))
    end).

Definition XAck (ids : list nat) : M unit :=
  call "redis" (fun w =>
    (Ok tt, set_group w (group_last_delivered w)
              (group_pel w ∖ list_to_set ids))).

(** XTRIM key MAXLEN n (exact): only the [n] newest entries stay. *)
Definition XTrimMaxLen (maxLen : nat) : M unit :=
  call "redis" (fun w =>
    (Ok tt,
     set_stream w (drop (length (stream w) - maxLen) (stream w))
       (stream_last_id w))).

(** ** PostgreSQL statements on the modelled tables *)

Definition db_First (id : N) : M User.t :=
  call "postgres" (fun w =>
    match users w !! id with
    | Some u => (Ok u, w)
    | None => (Err gorm_ErrRecordNotFound, w)
    end).

Definition db_UpdateRating (id : N) (rating : Z) : M unit :=
  call "postgres" (fun w =>
    (Ok tt,
     set_tables w
       (alter (λ u, User.mk (User.ID u) (User.Username u) rating) id (users w))
       (score_updates w))).

Definition db_CreateHistory (row : ScoreUpdate.t) : M unit :=
  call "postgres" (fun w =>
    (Ok tt, set_tables w (users w) (score_updates w ++ [row]))).

(** [db.Order("RANDOM()").Select("id").First(&user)]: some row of the
    table, which one is the database's draw [pick]; no row, no record. *)
Definition db_RandomID (pick : nat) : M N :=
  call "postgres" (fun w =>
    let ids := (map_to_list (users w)).*1 in
    match ids !! (pick mod length ids)%nat with
    | Some id => (Ok id, w)
    | None => (Err gorm_ErrRecordNotFound, w)
    end).

(** [db.Transaction(fn)]: BEGIN, the statements of [fn], COMMIT; an error
    anywhere rolls the tables back. *)
Definition db_Transaction (fn : M unit) : M unit :=
  fun w =>
    match (_ <~ call "postgres" (ret tt) ;; _ <~ fn ;; call "postgres" (ret tt)) w with
    | (Ok tt, w') => (Ok tt, w')
    | (Err e, w') => (Err e, set_tables w' (users w) (score_updates w))
    end.

(** ** [internal/repository] *)

Module repository.

(** [fmt.Sprintf("user:%d", userID)] *)
Definition member_of (userID : N) : string :=
  String.append "user:" (strconv.FormatUint userID).

Definition AddUser (userID : N) (rating : Z) : M unit :=
  ZAdd (member_of userID) rating.

Definition UpdateUserScore (userID : N) (rating : Z) : M unit :=
  AddUser userID rating.

Definition GetUserRank (userID : N) : M Z :=
  let member := member_of userID in
  score <~ catch (ZScore member)
             (fun err =>
                match err with
                | redis_Nil => fail (Errorf "user not found in leaderboard")
                | _ => fail err
                end) ;;
  higherCount <~ ZCount_above score ;;
  (* higherCount is at most the cardinality of the set: no wrap-around *)
  ret (higherCount + 1).

(** The loop of [GetTopUsers] over the reply of ZREVRANGE, from index [i]
    on, with the loop variables [currentRank] and [previousScore]. *)
Fixpoint rank_entries (results : list (string * Z)) (i currentRank previousScore : Z)
  : list LeaderboardEntry.t :=
  match results with
  | [] => []
  | z :: rest =>
      let currentRank :=
        if (0 <? i) && negb (z.2 =? previousScore) then i + 1 else currentRank in
      let userIDStr := gostrings.TrimPrefix z.1 "user:" in
      let userID := fst (strconv.ParseUint userIDStr 32) in
      LeaderboardEntry.mk currentRank userID "" z.2
        :: rank_entries rest (i + 1) currentRank z.2
  end.

Definition GetTopUsers (limit : Z) : M (list LeaderboardEntry.t) :=
  results <~ ZRevRangeWithScores 0 (wrap64 (limit - 1)) ;;
  ret (rank_entries results 0 1 0).

(** [float64(rating)] printed with [%f] is read back by Redis as the same
    number: both bounds of the range are the rating. *)
Definition GetUsersByRating (rating : Z) : M (list N) :=
  members <~ ZRangeByScore rating rating ;;
  ret ((λ member,
          fst (strconv.ParseUint (gostrings.TrimPrefix member "user:") 32))
         <$> members).

Definition RemoveUser (userID : N) : M unit := ZRem (member_of userID).

Definition GetLeaderboardSize : M Z := ZCard.

Definition CacheUser (user : User.t) : M unit :=
  HSet (User.ID user)
    [("id", strconv.FormatUint (User.ID user));
     ("username", User.Username user);
     ("rating", strconv.Itoa (User.Rating user))].

(** [result[k]] on a Go map: the empty string for an absent key. *)
Definition field (result : gmap string string) (k : string) : string :=
  default "" (result !! k).

Definition GetCachedUser (userID : N) : M User.t :=
  fun w =>
    match HGetAll userID w with
    | (Err _, w') => (Err (Errorf "user not in cache"), w')
    | (Ok result, w') =>
        if decide (size result = 0%nat) then (Err (Errorf "user not in cache"), w')
        else
          let id := fst (strconv.ParseUint (field result "id") 32) in
          let rating := fst (strconv.Atoi (field result "rating")) in
          (Ok (User.mk id (field result "username") rating), w')
    end.

Definition GetByID (id : N) : M User.t := db_First id.

End repository.

(** ** [internal/service]: leaderboard service and its collaborators *)

Module service.

Definition Publish (payload : ScoreUpdatePayload.t) : M unit := PUBLISH payload.

Definition EnqueueUpdate (item : DBSyncQueueItem.t) : M unit :=
  XAdd (json_Marshal item).

Definition GetUserRank (userID : N) : M Z :=
  catch (repository.GetUserRank userID)
    (fun err => fail (Errorf_w "failed to get user rank" err)).

(** Cache first, cold store second. *)
Definition load_user (userID : N) : M User.t :=
  catch (repository.GetCachedUser userID)
    (fun _ => repository.GetByID userID).

Definition clamp_rating (newRating : Z) : Z :=
  let newRating := if newRating <? 100 then 100 else newRating in
  if 5000 <? newRating then 5000 else newRating.

Definition rank_or_zero (userID : N) : M Z :=
  catch (repository.GetUserRank userID) (fun _ => ret 0).

Definition UpdateUserScore (userID : N) (newRating : Z) : M ScoreUpdatePayload.t :=
  let newRating := clamp_rating newRating in
  user <~ catch (load_user userID)
            (fun err => fail (Errorf_w "user not found" err)) ;;
  let oldRating := User.Rating user in
  oldRank <~ rank_or_zero userID ;;
  _ <~ catch (repository.UpdateUserScore userID newRating)
         (fun err => fail (Errorf_w "failed to update Redis" err)) ;;
  let user := User.mk (User.ID user) (User.Username user) newRating in
  _ <~ ignore_err (repository.CacheUser user) ;;
  newRank <~ rank_or_zero userID ;;
  let rankDelta := int_sub oldRank newRank in
  let ratingDelta := int_sub newRating oldRating in
  ts <~ time_Now ;;
  let payload :=
    ScoreUpdatePayload.mk userID (User.Username user) oldRating newRating
      oldRank newRank rankDelta ratingDelta ts in
  _ <~ ignore_err (Publish payload) ;;
  ts' <~ time_Now ;;
  _ <~ ignore_err (EnqueueUpdate (DBSyncQueueItem.mk userID oldRating newRating ts')) ;;
  ret payload.

(** The body of the enrichment loop of [GetLeaderboard] for one entry. *)
Definition hydrate (e : LeaderboardEntry.t) : M LeaderboardEntry.t :=
  fun w =>
    let with_name (u : User.t) :=
      LeaderboardEntry.mk (LeaderboardEntry.Rank e) (LeaderboardEntry.UserID e)
        (User.Username u) (LeaderboardEntry.Rating e) in
    match repository.GetCachedUser (LeaderboardEntry.UserID e) w with
    | (Ok u, w') => (Ok (with_name u), w')
    | (Err _, w') =>
        match repository.GetByID (LeaderboardEntry.UserID e) w' with
        | (Err _, w'') => (Ok e, w'')
        | (Ok u, w'') => (Ok (with_name u), snd (repository.CacheUser u w''))
        end
    end.

Fixpoint hydrate_all (entries : list LeaderboardEntry.t) : M (list LeaderboardEntry.t) :=
  match entries with
  | [] => ret []
  | e :: rest =>
      e' <~ hydrate e ;;
      rest' <~ hydrate_all rest ;;
      ret (e' :: rest')
  end.

Definition GetLeaderboard (limit : Z) : M (list LeaderboardEntry.t) :=
  entries <~ catch (repository.GetTopUsers limit)
               (fun err => fail (Errorf_w "failed to get leaderboard" err)) ;;
  hydrate_all entries.


End service.

(** ** [internal/handler]: the guards in front of the services *)

Module handler.

(** The HTTP answers that matter here: the status and, on 200, the body. *)
Inductive response (A : Type) :=
| StatusOK (body : A)
| StatusBadRequest (msg : string)
| StatusNotFound (msg : string)
| StatusInternalServerError (msg : string).
Arguments StatusOK {A} body.
Arguments StatusBadRequest {A} msg.
Arguments StatusNotFound {A} msg.
Arguments StatusInternalServerError {A} msg.

(** [binding:"required,min=100,max=5000"] on an [int]: [required] refuses
    the zero value, [min] and [max] bound the number. *)
Definition binding_ok (newRating : Z) : bool :=
  negb (newRating =? 0) && (100 <=? newRating) && (newRating <=? 5000).

(** [user_id] is the path parameter; [body] is the request body decoded
    as JSON into [{new_rating int}], [None] when it does not decode. *)
Definition UpdateUserScore (user_id : string) (body : option Z)
  : World → response ScoreUpdatePayload.t * World :=
  fun w =>
    match strconv.ParseUint user_id 32 with
    | (_, Some _) => (StatusBadRequest "Invalid user ID", w)
    | (userID, None) =>
        match body with
        | None =>
            (StatusBadRequest
               "Invalid request body. new_rating must be between 100 and 5000", w)
        | Some newRating =>
            if binding_ok newRating then
              match service.UpdateUserScore userID newRating w with
              | (Err _, w') => (StatusInternalServerError "Failed to update score", w')
              | (Ok payload, w') => (StatusOK payload, w')
              end
            else
              (StatusBadRequest
                 "Invalid request body. new_rating must be between 100 and 5000", w)
        end
    end.

Definition leaderboard_limit (limitStr : string) : Z :=
  let '(limit, err) := strconv.Atoi limitStr in
  let limit := if bool_decide (err ≠ None) || (limit <=? 0) then 100 else limit in
  if 1000 <? limit then 1000 else limit.

Definition GetLeaderboard (limitStr : string)
  : World → response (list LeaderboardEntry.t) * World :=
  fun w =>
    match service.GetLeaderboard (leaderboard_limit limitStr) w with
    | (Err _, w') => (StatusInternalServerError "Failed to fetch leaderboard", w')
    | (Ok entries, w') => (StatusOK entries, w')
    end.

Definition GetUserRank (user_id : string) : World → response (N * Z) * World :=
  fun w =>
    match strconv.ParseUint user_id 32 with
    | (_, Some _) => (StatusBadRequest "Invalid user ID", w)
    | (userID, None) =>
        match service.GetUserRank userID w with
        | (Err _, w') => (StatusNotFound "User not found in leaderboard", w')
        | (Ok rank, w') => (StatusOK (userID, rank), w')
        end
    end.

Definition search_limit (limitStr : string) : Z :=
  let '(limit, err) := strconv.Atoi limitStr in
  let limit := if bool_decide (err ≠ None) || (limit <=? 0) then 100 else limit in
  if 200 <? limit then 200 else limit.

(** [SearchHandler.SearchUsers], over the search service it is built
    with.  A panic of the service is not an answer of the handler: it
    leaves the handler and reaches the recovery middleware. *)
Definition SearchUsers (searchSvc : string → Z → M (list SearchResult.t))
    (q limitStr : string)
  : World → result (response (list SearchResult.t)) * World :=
  fun w =>
    if decide (q = "") then (Ok (StatusBadRequest "Search query 'q' is required"), w)
    else
      match searchSvc q (search_limit limitStr) w with
      | (Err (runtime_panic msg), w') => (Err (runtime_panic msg), w')
      | (Err _, w') => (Ok (StatusInternalServerError "Search failed"), w')
      | (Ok results, w') => (Ok (StatusOK results), w')
      end.

End handler.

(** ** [internal/service]: write-behind worker (Redis stream to PostgreSQL) *)

Module dbsync.

Definition BatchSize : nat := 100.
Definition StreamMaxLen : nat := 100.
Definition TrimEveryNBatches : Z := 10.

(** The decoding loop of [processBatch]: an entry whose [data] does not
    unmarshal is skipped, and its id is not collected. *)
Fixpoint decode (msgs : list (nat * wire)) : list DBSyncQueueItem.t * list nat :=
  match msgs with
  | [] => ([], [])
  | msg :: rest =>
      let '(items, messageIDs) := decode rest in
      match json_Unmarshal msg.2 with
      | Err _ => (items, messageIDs)
      | Ok item => (item :: items, msg.1 :: messageIDs)
      end
  end.

Definition history_row (item : DBSyncQueueItem.t) : ScoreUpdate.t :=
  ScoreUpdate.mk (DBSyncQueueItem.UserID item)
    (DBSyncQueueItem.OldRating item) (DBSyncQueueItem.NewRating item)
    (int_sub (DBSyncQueueItem.NewRating item) (DBSyncQueueItem.OldRating item))
    (DBSyncQueueItem.Timestamp item).

Definition apply_item (item : DBSyncQueueItem.t) : M unit :=
  _ <~ db_UpdateRating (DBSyncQueueItem.UserID item) (DBSyncQueueItem.NewRating item) ;;
  db_CreateHistory (history_row item).

Fixpoint apply_items (items : list DBSyncQueueItem.t) : M unit :=
  match items with
  | [] => ret tt
  | item :: rest => _ <~ apply_item item ;; apply_items rest
  end.

(** One run of [processBatch]; the goroutine started by [go s.trimStream()]
    is recorded in [trims_spawned] and runs as a step of its own. *)
Definition processBatch (w : World) : World :=
  match XReadGroup_new BatchSize w with
  | (Err _, w1) => w1
  | (Ok msgs, w1) =>
      let '(items, messageIDs) := decode msgs in
      match items with
      | [] => w1
      | _ =>
          match db_Transaction (apply_items items) w1 with
          | (Err _, w2) => w2
          | (Ok _, w2) =>
              let w3 := snd (XAck messageIDs w2) in
              let counter := int_add (batchCounter w3) 1 in
              let trims :=
                if Z.rem counter TrimEveryNBatches =? 0
                then S (trims_spawned w3) else trims_spawned w3 in
              set_worker w3 counter trims
          end
      end
  end.

Definition trimStream (w : World) : World := snd (XTrimMaxLen StreamMaxLen w).

(** The steps of the write-behind pipeline. *)
Inductive event :=
| EvUpdate (userID : N) (newRating : Z)
| EvProcessBatch
| EvTrim.

Definition step (w : World) (ev : event) : World :=
  match ev with
  | EvUpdate userID newRating => snd (service.UpdateUserScore userID newRating w)
  | EvProcessBatch => processBatch w
  | EvTrim =>
      match trims_spawned w with
      | O => w
      | S n => trimStream (set_worker w (batchCounter w) n)
      end
  end.

Definition run (w : World) (evs : list event) : World := foldl step w evs.

(** An entry is still to be delivered or awaits its acknowledgement. *)
Definition unacked (w : World) (id : nat) : Prop :=
  (group_last_delivered w < id)%nat ∨ id ∈ group_pel w.

Definition applied (w : World) (item : DBSyncQueueItem.t) : Prop :=
  history_row item ∈ score_updates w.

Definition preserved (w : World) (id : nat) (item : DBSyncQueueItem.t) : Prop :=
  applied w item ∨ ((id, json_of item) ∈ stream w ∧ unacked w id).

(** Ids are handed out in increasing order and the group never runs ahead
    of the generator. *)
Definition stream_wf (w : World) : Prop :=
  StronglySorted (λ a b : nat * wire, (a.1 < b.1)%nat) (stream w)
  ∧ Forall (λ e : nat * wire, (e.1 ≤ stream_last_id w)%nat) (stream w)
  ∧ (group_last_delivered w ≤ stream_last_id w)%nat.

(** What XREADGROUP hands to the worker in [w]. *)
Definition fresh_entries (w : World) : list (nat * wire) :=
  take BatchSize
    (filter (λ e : nat * wire, (group_last_delivered w < e.1)%nat) (stream w)).

(** What XTRIM leaves of the stream of [w]. *)
Definition kept_by_trim (w : World) : list (nat * wire) :=
  drop (length (stream w) - StreamMaxLen) (stream w).

End dbsync.

(** ** [internal/service]: score simulator *)

Module simulator.

Definition GetRandomUserID (pick : nat) : M N := db_RandomID pick.

(** The rating that [simulateScoreUpdate] asks for, from the number that
    [rand.Intn(201)] returned. *)
Definition simulated_rating (intn : Z) : Z :=
  let change := int_sub intn 100 in
  let newRating := int_add 1500 change in
  let newRating := if newRating <? 100 then 100 else newRating in
  if 5000 <? newRating then 5000 else newRating.

(** One tick of the simulator; both failures are logged and dropped. *)
Definition simulateScoreUpdate (pick : nat) (intn : Z) : World → World :=
  fun w =>
    match GetRandomUserID pick w with
    | (Err _, w') => w'
    | (Ok userID, w') =>
        snd (service.UpdateUserScore userID (simulated_rating intn) w')
    end.

End simulator.

(** ** [internal/service]: search service *)

Module search.

(** The two closures given to [sort.Slice]:
    [users[i].Rating > users[j].Rating] and
    [results[i].Rating > results[j].Rating]. *)
Definition by_rating_desc (a b : User.t) : bool := User.Rating b <? User.Rating a.

Definition result_by_rating_desc (a b : SearchResult.t) : bool :=
  SearchResult.Rating b <? SearchResult.Rating a.

Section SearchService.

(** [sort.Slice] of the Go library, by the comparison it is given, and the
    user repository's [SearchByUsername] (an ILIKE query in PostgreSQL). *)
Variable sort_Slice : ∀ A : Type, (A → A → bool) → list A → list A.
Variable SearchByUsername : string → Z → M (list User.t).

(** The loop that builds [results]: a user whose rank lookup fails is
    skipped. *)
Fixpoint annotate (users : list User.t) : M (list SearchResult.t) :=
  match users with
  | [] => ret []
  | user :: rest =>
      fun w =>
        match service.GetUserRank (User.ID user) w with
        | (Err _, w') => annotate rest w'
        | (Ok rank, w') =>
            (results <~ annotate rest ;;
             ret (SearchResult.mk rank (User.ID user) (User.Username user)
                    (User.Rating user) :: results)) w'
        end
  end.

(** The rank lookups of that loop, one after the other: each candidate
    with what [GetUserRank] answered for it. *)
Fixpoint lookups (users : list User.t) (w : World) : list (User.t * result Z) :=
  match users with
  | [] => []
  | user :: rest =>
      let '(r, w') := service.GetUserRank (User.ID user) w in
      (user, r) :: lookups rest w'
  end.

Definition keep (l : User.t * result Z) : option SearchResult.t :=
  match l.2 with
  | Ok rank =>
      Some (SearchResult.mk rank (User.ID l.1) (User.Username l.1) (User.Rating l.1))
  | Err _ => None
  end.

(** [users[:limit]] when [len(users) > limit]; a negative bound panics. *)
Definition limit_results (users : list User.t) (limit : Z) : M (list User.t) :=
  if limit <? Z.of_nat (length users) then
    if limit <? 0 then fail (runtime_panic "slice bounds out of range")
    else ret (take (Z.to_nat limit) users)
  else ret users.

Definition SearchUsers (query : string) (limit : Z) : M (list SearchResult.t) :=
  if (String.length query <? 1)%nat then ret []
  else
    users <~ catch (SearchByUsername query limit)
               (fun err => fail (Errorf_w "search failed" err)) ;;
    let users := sort_Slice _ by_rating_desc users in
    users <~ limit_results users limit ;;
    results <~ annotate users ;;
    ret (sort_Slice _ result_by_rating_desc results).

End SearchService.

(** What [sort.Slice] promises for a strict weak order [less]: the slice
    is permuted, and afterwards no element is less than one before it.
    (Its documentation: the sort is not guaranteed to be stable.) *)
Definition strict_weak {A} (less : A → A → bool) : Prop :=
  (∀ x y, less x y = true → less y x = false)
  ∧ (∀ x y z, less x y = false → less y z = false → less x z = false).

Definition sorts (sort_Slice : ∀ A : Type, (A → A → bool) → list A → list A) : Prop :=
  ∀ (A : Type) (less : A → A → bool) (l : list A),
    strict_weak less →
    sort_Slice A less l ≡ₚ l
    ∧ StronglySorted (λ x y, less y x = false) (sort_Slice A less l).

(** Insertion sort as the Go library runs it on short slices: element [i]
    moves left while it is less than its left neighbour.  [sorted] is the
    part already in order, last element first. *)
Fixpoint insert_left {A} (less : A → A → bool) (x : A) (sorted : list A) : list A :=
  match sorted with
  | [] => [x]
  | y :: rest => if less x y then y :: insert_left less x rest else x :: y :: rest
  end.

Definition insertionSort (A : Type) (less : A → A → bool) (l : list A) : list A :=
  rev (foldl (λ sorted x, insert_left less x sorted) [] l).

(** Another sort within that promise: it starts from the slice rotated by
    one place, so elements that compare equal can change places. *)
Definition rotatingSort (A : Type) (less : A → A → bool) (l : list A) : list A :=
  insertionSort A less (drop 1 l ++ take 1 l).

End search.

(** ** [internal/websocket]: hub and clients *)

Module websocket.

(** A buffered Go channel of byte slices. *)
Record chan := mkChan { queue : list string; cap : nat; closed : bool }.

(** The hub and the clients allocated so far.  A [*Client] is the index of
    its allocation; [send] gives each allocated client its channel.
    [close_log] is a ghost record of the executed [close] calls. *)
Record Hub := mkHub {
  clients : gset nat;
  send : gmap nat chan;
  next_client : nat;
  close_log : list nat }.

Definition NewHub : Hub := mkHub ∅ ∅ 0 [].

(** [close(c.send)]: a second close panics. *)
Definition close (c : nat) (h : Hub) : result Hub :=
  match send h !! c with
  | None => Err (runtime_panic "nil pointer dereference")
  | Some ch =>
      if closed ch then Err (runtime_panic "close of closed channel")
      else
        Ok (mkHub (clients h)
              (<[c := mkChan (queue ch) (cap ch) true]> (send h))
              (next_client h) (close_log h ++ [c]))
  end.

Definition delete_client (c : nat) (h : Hub) : Hub :=
  mkHub (clients h ∖ {[c]}) (send h) (next_client h) (close_log h).

(** The body of the broadcast loop for one client:
    [select { case client.send <- message: default: close; delete }]. *)
Definition broadcast_one (message : string) (h : Hub) (c : nat) : result Hub :=
  match send h !! c with
  | None => Err (runtime_panic "nil pointer dereference")
  | Some ch =>
      if closed ch then Err (runtime_panic "send on closed channel")
      else if (length (queue ch) <? cap ch)%nat then
        Ok (mkHub (clients h)
              (<[c := mkChan (queue ch ++ [message]) (cap ch) false]> (send h))
              (next_client h) (close_log h))
      else
        match close c h with
        | Err e => Err e
        | Ok h' => Ok (delete_client c h')
        end
  end.

Fixpoint broadcast_all (message : string) (order : list nat) (h : Hub) : result Hub :=
  match order with
  | [] => Ok h
  | c :: rest =>
      match broadcast_one message h c with
      | Err e => Err e
      | Ok h' => broadcast_all message rest h'
      end
  end.

(** What the loop of [Run] receives.  [order] is the order in which
    [range h.clients] visits the registry. *)
Inductive event :=
| Register (c : nat)
| Unregister (c : nat)
| Broadcast (message : string) (order : list nat).

Definition Run_step (h : Hub) (ev : event) : result Hub :=
  match ev with
  | Register c =>
      Ok (mkHub (clients h ∪ {[c]}) (send h) (next_client h) (close_log h))
  | Unregister c =>
      if decide (c ∈ clients h) then close c (delete_client c h)
      else Ok h
  | Broadcast message order => broadcast_all message order h
  end.

(** [NewClient]: a fresh client with an open channel of capacity 256. *)
Definition NewClient (h : Hub) : nat * Hub :=
  (next_client h,
   mkHub (clients h) (<[next_client h := mkChan [] 256 false]> (send h))
     (S (next_client h)) (close_log h)).

(** What happens around the hub: a connection is upgraded
    ([HandleWebSocket]: [NewClient], then [Register], which returns once
    [Run] has taken the client), a [ReadPump] ends and unregisters its
    client, a message is broadcast, a [WritePump] takes a message. *)
Inductive action :=
| Connect
| ReadPumpExit (c : nat)
| Publish (message : string) (order : list nat)
| WritePumpReceive (c : nat).

Definition act (h : Hub) (a : action) : result Hub :=
  match a with
  | Connect => let '(c, h') := NewClient h in Run_step h' (Register c)
  | ReadPumpExit c => Run_step h (Unregister c)
  | Publish message order => Run_step h (Broadcast message order)
  | WritePumpReceive c =>
      match send h !! c with
      | Some ch =>
          Ok (mkHub (clients h)
                (<[c := mkChan (tail (queue ch)) (cap ch) (closed ch)]> (send h))
                (next_client h) (close_log h))
      | None => Ok h
      end
  end.

Fixpoint run (h : Hub) (acts : list action) : result Hub :=
  match acts with
  | [] => Ok h
  | a :: rest =>
      match act h a with
      | Ok h' => run h' rest
      | Err e => Err e
      end
  end.

(** An action the program can take in [h]: a broadcast visits exactly the
    registered clients, in some order. *)
Definition enabled (h : Hub) (a : action) : Prop :=
  match a with
  | Publish _ order => order ≡ₚ elements (clients h)
  | _ => True
  end.

Inductive reachable : Hub → Prop :=
| reach_new : reachable NewHub
| reach_act h a h' :
    reachable h → enabled h a → act h a = Ok h' → reachable h'.

End websocket.

(** ** Sample states *)

Definition no_fault : nat → bool := λ _, false.

Definition world0 : World :=
  mkWorld ∅ ∅ [] [] 0 0 ∅ ∅ [] 0 0 0 0 no_fault.

(** Three users: 1 at 5000, 2 and 3 at 4900. *)
Definition seeded : World :=
  set_zset world0
    (<["user:1" := 5000]> (<["user:2" := 4900]> (<["user:3" := 4900]> ∅))).

(** The same three users, known to the cache and to the cold store. *)
Definition cache_of (u : User.t) : gmap string string :=
  hash_set [("id", strconv.FormatUint (User.ID u));
            ("username", User.Username u);
            ("rating", strconv.Itoa (User.Rating u))] ∅.

Definition alice : User.t := User.mk 1 "alice" 5000.
Definition bob : User.t := User.mk 2 "bob" 4900.
Definition carol : User.t := User.mk 3 "carol" 4900.

Definition arena : World :=
  set_tables
    (set_hashes seeded
       (<[1%N := cache_of alice]> (<[2%N := cache_of bob]> (<[3%N := cache_of carol]> ∅))))
    (<[1%N := alice]> (<[2%N := bob]> (<[3%N := carol]> ∅))) [].

(** A user repository whose search answers with the rows [rows], in one
    query. *)
Definition found (rows : list User.t) : string → Z → M (list User.t) :=
  λ _ _, call "postgres" (ret rows).

(** User 1 is cached; user 9 is not. *)
Definition cached : World :=
  set_hashes seeded
    {[ 1%N := hash_set [("id", "1"); ("username", "alice"); ("rating", "5000")] ∅ ]}.

(** The same state, with the next request to a store failing. *)
Definition cached_store_down : World :=
  set_fault cached (λ tick, Nat.eqb tick (calls cached)).

(** ** Notions used in the statements and proofs below *)

(** [only_calls w w']: [w'] is [w] after some requests that changed nothing. *)
Definition only_calls (w w' : World) : Prop := w' = set_calls w (calls w').

(** [only_tables w w']: [w'] is [w] after some statements on the tables. *)
Definition only_tables (w w' : World) : Prop :=
  w' = set_tables (set_calls w (calls w')) (users w') (score_updates w').

(** Descending by score, whatever the members. *)
Definition score_ge (a b : string * Z) : Prop := b.2 ≤ a.2.

#[global] Instance score_ge_trans : Transitive score_ge.
Proof. unfold score_ge. intros a b c ? ?. lia. Qed.

(** The entry that [GetTopUsers] builds for the member [z] of the reply
    [results], in closed form, and the invariant of its loop after the
    members [pre]. *)
Definition entry_at (results : list (string * Z)) (z : string * Z)
  : LeaderboardEntry.t :=
  LeaderboardEntry.mk (1 + Z.of_nat (count_above z.2 results))
    (fst (strconv.ParseUint (gostrings.TrimPrefix z.1 "user:") 32)) "" z.2.

Definition loop_inv (pre : list (string * Z)) (currentRank previousScore : Z) : Prop :=
  match last pre with
  | None => currentRank = 1
  | Some y => previousScore = y.2
              ∧ currentRank = 1 + Z.of_nat (count_above y.2 pre)
  end.

(** The invariant of the hub: a registered client has an open channel;
    the websocket.closed channels are exactly those in the log of closes, once each;
    every client in use was allocated. *)
Record hub_inv (h : websocket.Hub) : Prop := {
  inv_open : ∀ c, c ∈ websocket.clients h → ∃ ch, websocket.send h !! c = Some ch ∧ websocket.closed ch = false;
  inv_log : ∀ c, c ∈ websocket.close_log h ↔ ∃ ch, websocket.send h !! c = Some ch ∧ websocket.closed ch = true;
  inv_nodup : NoDup (websocket.close_log h);
  inv_alloc : ∀ c, is_Some (websocket.send h !! c) → (c < websocket.next_client h)%nat }.

(** [above s score]: whether a member with the score [score], if there is
    one, counts among those above [s]. *)
Definition above (s : Z) (score : option Z) : nat :=
  match score with
  | Some r => if bool_decide (s < r) then 1 else 0
  | None => 0
  end.


(** No request fails. *)
Definition fault_free (w : World) : Prop := ∀ tick, fault w tick = false.

(** ** Deciding the notions of the pipeline *)

#[global] Instance DBSyncQueueItem_eq_dec : EqDecision DBSyncQueueItem.t.
Proof. solve_decision. Defined.

#[global] Instance ScoreUpdate_eq_dec : EqDecision ScoreUpdate.t.
Proof. solve_decision. Defined.

#[global] Instance wire_eq_dec : EqDecision wire.
Proof. solve_decision. Defined.

#[global] Instance unacked_dec w id : Decision (dbsync.unacked w id).
Proof. unfold dbsync.unacked. apply _. Defined.

#[global] Instance applied_dec w item : Decision (dbsync.applied w item).
Proof. unfold dbsync.applied. apply _. Defined.

#[global] Instance preserved_dec w id item : Decision (dbsync.preserved w id item).
Proof. unfold dbsync.preserved. apply _. Defined.

(** ** A backlog in the stream *)


Definition unread_item : DBSyncQueueItem.t := DBSyncQueueItem.mk 1 2099 2100 0.

(** ** Sample hubs *)

(** One connected client; and two clients of which the first never reads
    while the second takes every message: 257 broadcasts. *)
Definition hub_one_client : websocket.Hub :=
  websocket.mkHub {[0%nat]} {[0%nat := websocket.mkChan [] 256 false]} 1 [].

Definition slow_and_fast : list websocket.action :=
  [websocket.Connect; websocket.Connect]
  ++ concat (replicate 257 [websocket.Publish "m" [0%nat; 1%nat];
                            websocket.WritePumpReceive 1]).

(** ** Notions used in the further properties *)

(** Two entries that differ at most in the name. *)
Definition same_place (r e : LeaderboardEntry.t) : Prop :=
  LeaderboardEntry.Rank e = LeaderboardEntry.Rank r
  ∧ LeaderboardEntry.UserID e = LeaderboardEntry.UserID r
  ∧ LeaderboardEntry.Rating e = LeaderboardEntry.Rating r.

(** [only_cache w w']: [w'] is [w] after some requests that wrote, at
    most, to the attribute cache. *)
Definition only_cache (w w' : World) : Prop :=
  w' = set_hashes (set_calls w (calls w')) (hashes w').

(** [only_redis w w']: the tables and the worker's state are in [w'] as
    they are in [w]. *)
Definition only_redis (w w' : World) : Prop :=
  users w' = users w ∧ score_updates w' = score_updates w
  ∧ group_last_delivered w' = group_last_delivered w
  ∧ group_pel w' = group_pel w
  ∧ batchCounter w' = batchCounter w.

(** The hash of a user in the attribute cache, [∅] when there is none. *)
Definition cache_entry (w : World) (id : N) : gmap string string :=
  default ∅ (hashes w !! id).

(** Every row of the [users] table is stored under its own id. *)
Definition rows_keyed_by_id (w : World) : Prop :=
  ∀ id u, users w !! id = Some u → User.ID u = id.

(** The name that hydration gives to the user [id] in the state [w]: from
    the cache, else from the row of the cold store, else [fallback]. *)
Definition resolved_name (w : World) (id : N) (fallback : string) : string :=
  if decide (cache_entry w id = ∅) then
    match users w !! id with
    | Some u => User.Username u
    | None => fallback
    end
  else repository.field (cache_entry w id) "username".

(** The invariant of the hydration loop, started in [w] and now in [wi]:
    a cache entry is as it was, or was empty and now holds the fields of
    the user's row. *)
Definition warmed (w wi : World) : Prop :=
  fault_free wi ∧ users wi = users w
  ∧ ∀ id, cache_entry wi id = cache_entry w id
          ∨ (cache_entry w id = ∅
             ∧ ∃ u, users w !! id = Some u
                    ∧ cache_entry wi id = cache_of u).

(** [stuck w id]: the entry [id] was delivered to the group and is still
    pending. *)
Definition stuck (w : World) (id : nat) : Prop :=
  id ∈ group_pel w ∧ (id ≤ group_last_delivered w)%nat.

(** What one broadcast does to the channel of a client it visits. *)
Definition delivered (message : string) (ch : websocket.chan) : websocket.chan :=
  if (length (websocket.queue ch) <? websocket.cap ch)%nat
  then websocket.mkChan (websocket.queue ch ++ [message]) (websocket.cap ch) false
  else websocket.mkChan (websocket.queue ch) (websocket.cap ch) true.

(** * Properties *)

(** ** Machine integers *)

Lemma wrap64_id z : in_int64 z → wrap64 z = z.
Proof.
  unfold in_int64, wrap64. intros H.
  rewrite Z.mod_small by lia. lia.
Qed.

Lemma wrap64_range z : in_int64 (wrap64 z).
Proof.
  unfold in_int64, wrap64.
  pose proof (Z.mod_pos_bound (z + 2 ^ 63) (2 ^ 64) ltac:(lia)). lia.
Qed.

(** ** The monad of calls *)

Lemma call_ok {A} service (op : M A) w :
  fault w (calls w) = false → call service op w = op (set_calls w (S (calls w))).
Proof. unfold call. intros ->. reflexivity. Qed.

Lemma call_fault {A} service (op : M A) w :
  fault w (calls w) = true →
  call service op w = (Err (transport service), set_calls w (S (calls w))).
Proof. unfold call. intros ->. reflexivity. Qed.

(** ** C1: the rank of one user *)

Lemma GetUserRank_present w userID score :
  zset w !! repository.member_of userID = Some score →
  fault w (calls w) = false → fault w (S (calls w)) = false →
  repository.GetUserRank userID w
  = (Ok (Z.of_nat (count_above score (map_to_list (zset w))) + 1),
     set_calls w (S (S (calls w)))).
Proof.
  intros Hm F0 F1.
  unfold repository.GetUserRank, bind, catch, ZScore, ZCount_above.
  rewrite call_ok by done. simpl. rewrite Hm.
  rewrite call_ok by done. reflexivity.
Qed.

Lemma GetUserRank_absent w userID :
  zset w !! repository.member_of userID = None →
  fault w (calls w) = false →
  repository.GetUserRank userID w
  = (Err (Errorf "user not found in leaderboard"), set_calls w (S (calls w))).
Proof.
  intros Hm F0.
  unfold repository.GetUserRank, bind, catch, ZScore.
  rewrite call_ok by done. simpl. rewrite Hm. reflexivity.
Qed.

(** C1.  In every state of the sorted set, [GetUserRank] of a user present
    with score [score] returns 1 + the number of members whose score is
    strictly greater than [score]; for a user absent from the sorted set it
    fails with the error "user not found in leaderboard".  (Both when the
    store answers, i.e. at ticks without a transport fault.) *)
Theorem GetUserRank_is_one_plus_higher (w : World) (userID : N) :
  (∀ score,
     zset w !! repository.member_of userID = Some score →
     fault w (calls w) = false → fault w (S (calls w)) = false →
     fst (repository.GetUserRank userID w)
     = Ok (1 + Z.of_nat (length (filter (λ p : string * Z, score < p.2)
                                   (map_to_list (zset w))))))
  ∧ (zset w !! repository.member_of userID = None →
     fault w (calls w) = false →
     fst (repository.GetUserRank userID w)
     = Err (Errorf "user not found in leaderboard")).
Proof.
  split.
  - intros score Hm F0 F1.
    rewrite (GetUserRank_present w userID score) by done.
    simpl. unfold count_above. f_equal. lia.
  - intros Hm F0. rewrite GetUserRank_absent by done. reflexivity.
Qed.

Lemma GetUserRank_is_one_plus_higher_witness :
  fst (repository.GetUserRank 3 seeded) = Ok 2
  ∧ fst (repository.GetUserRank 7 seeded)
    = Err (Errorf "user not found in leaderboard").
Proof.
  destruct (GetUserRank_is_one_plus_higher seeded 3) as [Hin _].
  destruct (GetUserRank_is_one_plus_higher seeded 7) as [_ Hout].
  split.
  - rewrite (Hin 4900) by reflexivity. vm_compute. reflexivity.
  - apply Hout; reflexivity.
Defined.

(** ** C7: [GetTopUsers] with a limit that is not positive *)

Ltac zslice_norm :=
  unfold zrange_slice; cbv zeta;
  repeat (rewrite Z.ltb_irrefl; cbv iota).
Lemma zrange_slice_from_0 {A} (l : list A) (stop : Z) :
  0 ≤ stop → zrange_slice l 0 stop = take (Z.to_nat (stop + 1)) l.
Proof.
  intros Hs. zslice_norm.
  destruct (stop <? 0) eqn:E1; [apply Z.ltb_lt in E1; lia |].
  rewrite E1. simpl orb.
  destruct (Z.of_nat (length l) <=? 0) eqn:E2.
  - apply Z.leb_le in E2. destruct l; [ | simpl in E2; lia]. by rewrite take_nil.
  - change (Z.to_nat 0) with 0%nat. rewrite drop_0.
    destruct (Z.of_nat (length l) <=? stop) eqn:E3.
    + apply Z.leb_le in E3. rewrite !take_ge by lia. done.
    + f_equal. lia.
Qed.

Lemma length_zrev_all (zs : gmap string Z) : length (zrev_all zs) = size zs.
Proof.
  unfold zrev_all.
  rewrite (Permutation_length (merge_sort_Permutation zrev_le (map_to_list zs))).
  apply length_map_to_list.
Qed.


Lemma GetTopUsers_ok w limit :
  fault w (calls w) = false →
  repository.GetTopUsers limit w
  = (Ok (repository.rank_entries
           (zrange_slice (zrev_all (zset w)) 0 (wrap64 (limit - 1))) 0 1 0),
     set_calls w (S (calls w))).
Proof.
  intros F. unfold repository.GetTopUsers, bind, ZRevRangeWithScores.
  rewrite call_ok by done. reflexivity.
Qed.

(** The guard in front of [GetTopUsers]: the handler never passes a limit
    outside 1..1000 (a limit that is not positive becomes 100). *)
Lemma leaderboard_limit_range limitStr :
  1 ≤ handler.leaderboard_limit limitStr ≤ 1000.
Proof.
  unfold handler.leaderboard_limit.
  destruct (strconv.Atoi limitStr) as [limit err].
  destruct (bool_decide (err ≠ None) || (limit <=? 0)) eqn:E.
  - simpl. lia.
  - apply orb_false_iff in E as [_ E]. apply Z.leb_gt in E.
    destruct (1000 <? limit) eqn:E'; [lia |]. apply Z.ltb_ge in E'. lia.
Qed.




(** ** C2: the ranks of the top list *)

(** ** Decimal numerals: parsing what was printed *)

Lemma digit_of_digit_char (d : N) :
  (d < 10)%N → strconv.digit_of (strconv.digit_char d) = Some d.
Proof.
  intros Hd. unfold strconv.digit_of, strconv.digit_char.
  rewrite N_ascii_embedding by lia.
  replace ((48 <=? 48 + d)%N) with true by (symmetry; apply N.leb_le; lia).
  replace ((48 + d <=? 57)%N) with true by (symmetry; apply N.leb_le; lia).
  simpl. f_equal. lia.
Qed.

Lemma parse_loop_digit (d n maxVal : N) (rest : string) :
  (d < 10)%N → (n * 10 + d ≤ maxVal)%N → (maxVal < 2 ^ 64)%N →
  strconv.parse_loop (String (strconv.digit_char d) rest) n maxVal
  = strconv.parse_loop rest (n * 10 + d) maxVal.
Proof.
  intros Hd Hn Hm. cbn [strconv.parse_loop].
  rewrite digit_of_digit_char by done.
  assert (n < strconv.cutoff)%N as Hc.
  { unfold strconv.cutoff. change (18446744073709551615 / 10 + 1)%N with 1844674407370955162%N.
    change (2 ^ 64)%N with 18446744073709551616%N in Hm. lia. }
  replace ((strconv.cutoff <=? n)%N) with false by (symmetry; apply N.leb_gt; lia).
  replace ((2 ^ 64 <=? n * 10 + d)%N) with false by (symmetry; apply N.leb_gt; lia).
  replace ((maxVal <? n * 10 + d)%N) with false by (symmetry; apply N.ltb_ge; lia).
  reflexivity.
Qed.

Lemma parse_formatBits (fuel : nat) (u maxVal : N) (acc : string) :
  (u < 2 ^ (N.of_nat fuel + 1))%N → (u ≤ maxVal)%N → (maxVal < 2 ^ 64)%N →
  strconv.parse_loop (strconv.formatBits fuel u acc) 0 maxVal
  = strconv.parse_loop acc u maxVal.
Proof.
  revert u acc. induction fuel as [| fuel IH]; intros u acc Hu Hm Hx.
  - cbn [strconv.formatBits]. change (2 ^ (N.of_nat 0 + 1))%N with 2%N in Hu.
    rewrite parse_loop_digit by lia. f_equal.
  - cbn [strconv.formatBits].
    destruct (10 <=? u)%N eqn:E.
    + apply N.leb_le in E.
      assert (u / 10 < 2 ^ (N.of_nat fuel + 1))%N as Hdiv.
      { apply N.Div0.div_lt_upper_bound.
        replace (N.of_nat (S fuel) + 1)%N with (N.succ (N.of_nat fuel + 1)) in Hu by lia.
        rewrite N.pow_succ_r' in Hu.
        set (X := (2 ^ (N.of_nat fuel + 1))%N) in *. lia. }
      pose proof (N.Div0.div_mod u 10) as Hdm.
      pose proof (N.mod_lt u 10 ltac:(lia)) as Hmod.
      assert (u / 10 ≤ maxVal)%N as Hle.
      { etransitivity; [| exact Hm]. apply N.Div0.div_le_upper_bound. lia. }
      rewrite IH by done.
      rewrite parse_loop_digit; [f_equal | done | | done].
      * rewrite N.mul_comm. symmetry. exact Hdm.
      * rewrite N.mul_comm, <- Hdm. exact Hm.
    + apply N.leb_gt in E. rewrite parse_loop_digit by lia. f_equal.
Qed.

Lemma formatBits_not_empty fuel u acc : strconv.formatBits fuel u acc ≠ "".
Proof.
  revert u acc. induction fuel as [| fuel IH]; intros u acc; simpl; [done |].
  destruct (10 <=? u)%N; [apply IH | done].
Qed.

Lemma ParseUint_FormatUint (u : N) (bitSize : N) :
  (u < 2 ^ bitSize)%N → (bitSize ≤ 64)%N →
  strconv.ParseUint (strconv.FormatUint u) bitSize = (u, None).
Proof.
  intros Hu Hb. unfold strconv.ParseUint, strconv.FormatUint.
  pose proof (formatBits_not_empty (N.to_nat (N.log2 u)) u "") as Hne.
  destruct (strconv.formatBits (N.to_nat (N.log2 u)) u "") eqn:E; [done |].
  rewrite <- E. rewrite parse_formatBits; [reflexivity | | lia |].
  - rewrite N2Nat.id. destruct (N.eq_dec u 0%N) as [-> | Hnz]; [done |].
    replace (N.log2 u + 1)%N with (N.succ (N.log2 u)) by lia.
    apply N.log2_spec. lia.
  - assert (2 ^ bitSize ≤ 2 ^ 64)%N by (apply N.pow_le_mono_r; lia).
    assert (0 < 2 ^ bitSize)%N by lia. lia.
Qed.

Lemma TrimPrefix_member_of userID :
  gostrings.TrimPrefix (repository.member_of userID) "user:"
  = strconv.FormatUint userID.
Proof.
  unfold repository.member_of, gostrings.TrimPrefix.
  reflexivity.
Qed.

(** ** Counting members above a score *)


Lemma count_above_app s l1 l2 :
  count_above s (l1 ++ l2) = (count_above s l1 + count_above s l2)%nat.
Proof. unfold count_above. by rewrite filter_app, length_app. Qed.

Lemma count_above_cons s x l :
  count_above s (x :: l)
  = ((if bool_decide (s < x.2)%Z then 1 else 0) + count_above s l)%nat.
Proof.
  unfold count_above. rewrite filter_cons.
  case_bool_decide; destruct (decide (s < x.2)); try done; lia.
Qed.

Lemma count_above_none s l :
  Forall (λ x : string * Z, x.2 ≤ s) l → count_above s l = 0%nat.
Proof.
  induction 1 as [| x l Hx _ IH]; [done |].
  rewrite count_above_cons, IH. rewrite bool_decide_false by lia. done.
Qed.

Lemma count_above_all s l :
  Forall (λ x : string * Z, s < x.2) l → count_above s l = length l.
Proof.
  induction 1 as [| x l Hx _ IH]; [done |].
  rewrite count_above_cons, IH. rewrite bool_decide_true by lia. done.
Qed.

Lemma count_above_perm s l1 l2 :
  l1 ≡ₚ l2 → count_above s l1 = count_above s l2.
Proof. unfold count_above. by intros ->. Qed.

Lemma count_above_antimono s s' l :
  s ≤ s' → (count_above s' l ≤ count_above s l)%nat.
Proof.
  intros Hs. induction l as [| x l IH]; [done |].
  rewrite !count_above_cons. repeat case_bool_decide; lia.
Qed.

Lemma count_above_strict s s' l x :
  x ∈ l → s < x.2 ≤ s' → (count_above s' l < count_above s l)%nat.
Proof.
  intros Hx Hs. induction Hx as [x l | x y l Hx IH].
  - rewrite !count_above_cons.
    rewrite (bool_decide_false (s' < x.2)) by lia.
    rewrite (bool_decide_true (s < x.2)) by lia.
    pose proof (count_above_antimono s s' l ltac:(lia)). lia.
  - rewrite !count_above_cons. specialize (IH Hs).
    repeat case_bool_decide; lia.
Qed.

(** Members with equal scores have equal counts above them, and only they. *)
Lemma count_above_inj l x y :
  x ∈ l → y ∈ l →
  count_above x.2 l = count_above y.2 l → x.2 = y.2.
Proof.
  intros Hx Hy Hc.
  destruct (Z.lt_trichotomy x.2 y.2) as [H | [H | H]]; [| done |].
  - pose proof (count_above_strict x.2 y.2 l y Hy ltac:(lia)). lia.
  - pose proof (count_above_strict y.2 x.2 l x Hx ltac:(lia)). lia.
Qed.

(** ** The descending order of the sorted set *)

Lemma Sorted_weaken {A} (R S : relation A) l :
  (∀ x y, R x y → S x y) → Sorted R l → Sorted S l.
Proof.
  intros HRS. induction 1 as [| x l _ IH Hhd]; constructor; [done |].
  destruct Hhd; constructor; auto.
Qed.

Lemma zrev_all_sorted zs : StronglySorted score_ge (zrev_all zs).
Proof.
  apply Sorted_StronglySorted; [apply _ |].
  apply (Sorted_weaken zrev_le); [| apply Sorted_merge_sort; apply _].
  intros x y [H | [H _]]; unfold score_ge; lia.
Qed.

Lemma zrev_all_perm zs : zrev_all zs ≡ₚ map_to_list zs.
Proof. apply merge_sort_Permutation. Qed.

Lemma elem_of_zrev_all zs member score :
  (member, score) ∈ zrev_all zs ↔ zs !! member = Some score.
Proof. rewrite zrev_all_perm. apply elem_of_map_to_list. Qed.

(** ** The ranks assigned by [GetTopUsers] *)


Lemma count_above_at_split pre z rest :
  StronglySorted score_ge (pre ++ z :: rest) →
  count_above z.2 (pre ++ z :: rest) = count_above z.2 pre.
Proof.
  intros Hs. rewrite count_above_app.
  rewrite (count_above_none z.2 (z :: rest)); [lia |].
  apply StronglySorted_app_1_r, StronglySorted_cons in Hs as [Hz _].
  constructor; [lia |]. eapply Forall_impl; [exact Hz |]. unfold score_ge. auto.
Qed.

Lemma rank_entries_from pre rest currentRank previousScore :
  StronglySorted score_ge (pre ++ rest) →
  loop_inv pre currentRank previousScore →
  repository.rank_entries rest (Z.of_nat (length pre)) currentRank previousScore
  = entry_at (pre ++ rest) <$> rest.
Proof.
  revert pre currentRank previousScore.
  induction rest as [| z rest IH]; intros pre cr prev Hs Hinv; [done |].
  cbn [repository.rank_entries]. rewrite fmap_cons.
  set (cr' := if (0 <? Z.of_nat (length pre)) && negb (z.2 =? prev)
              then Z.of_nat (length pre) + 1 else cr).
  assert (cr' = 1 + Z.of_nat (count_above z.2 pre)) as Hcr.
  { subst cr'. unfold loop_inv in Hinv.
    destruct (last pre) as [y |] eqn:Hl.
    - destruct Hinv as [-> ->].
      apply last_Some in Hl as [pre0 ->].
      rewrite length_app. simpl.
      replace (0 <? Z.of_nat (length pre0 + 1)) with true
        by (symmetry; apply Z.ltb_lt; lia).
      simpl. destruct (z.2 =? y.2) eqn:E; simpl.
      + apply Z.eqb_eq in E. by rewrite E.
      + apply Z.eqb_neq in E.
        rewrite count_above_all; [rewrite length_app; simpl; lia |].
        rewrite <- app_assoc in Hs. simpl in Hs.
        pose proof (λ x, StronglySorted_app_1_elem_of score_ge pre0 (y :: z :: rest) x y Hs)
          as H1.
        apply StronglySorted_app_1_r, StronglySorted_cons in Hs as [Hy _].
        apply Forall_cons_1 in Hy as [Hyz _]. unfold score_ge in Hyz.
        apply Forall_app. split.
        * apply Forall_forall. intros x Hx.
          specialize (H1 x Hx ltac:(left)). unfold score_ge in H1. lia.
        * constructor; [lia | constructor].
    - apply last_None in Hl. subst pre. simpl. done. }
  f_equal.
  - unfold entry_at. rewrite count_above_at_split by done. by rewrite Hcr.
  - replace (Z.of_nat (length pre) + 1) with (Z.of_nat (length (pre ++ [z])))
      by (rewrite length_app; simpl; lia).
    replace (pre ++ z :: rest) with ((pre ++ [z]) ++ rest)
      by (by rewrite <- app_assoc).
    apply IH; [by rewrite <- app_assoc |].
    unfold loop_inv. rewrite last_snoc. split; [done |].
    rewrite Hcr, count_above_app. f_equal.
    rewrite (count_above_none z.2 [z]); [lia | by constructor].
Qed.

Lemma rank_entries_closed results :
  StronglySorted score_ge results →
  repository.rank_entries results 0 1 0 = entry_at results <$> results.
Proof.
  intros Hs. apply (rank_entries_from [] results 1 0); [done | reflexivity].
Qed.

Lemma count_above_prefix (l : list (string * Z)) n z :
  StronglySorted score_ge l → z ∈ take n l →
  count_above z.2 (take n l) = count_above z.2 l.
Proof.
  intros Hs Hz. rewrite <- (take_drop n l) in Hs |- * at 2.
  rewrite count_above_app, (count_above_none z.2 (drop n l)); [lia |].
  apply Forall_forall. intros x Hx.
  apply (StronglySorted_app_1_elem_of score_ge _ _ z x Hs Hz Hx).
Qed.

Lemma split_by_score s (l : list (string * Z)) :
  Forall (λ x : string * Z, s ≤ x.2) l →
  length l
  = (count_above s l + length (filter (λ x : string * Z, x.2 = s) l))%nat.
Proof.
  induction 1 as [| x l Hx _ IH]; [done |].
  rewrite count_above_cons, filter_cons. cbn [length].
  case_bool_decide; destruct (decide (x.2 = s)); cbn [length]; lia.
Qed.

Lemma filter_nothing {A} (P : A → Prop) `{!∀ x, Decision (P x)} (l : list A) :
  Forall (λ x, ¬ P x) l → filter P l = [].
Proof.
  induction 1 as [| x l Hx _ IH]; [done |].
  by rewrite filter_cons_False.
Qed.

(** Two neighbours of different score in a descending list: the second
    has above it what the first has above it and the whole tie group of
    the first. *)
Lemma count_above_next_group (results : list (string * Z)) i zp z :
  StronglySorted score_ge results →
  results !! i = Some zp → results !! S i = Some z → zp.2 ≠ z.2 →
  count_above z.2 results
  = (count_above zp.2 results
     + length (filter (λ x : string * Z, x.2 = zp.2) results))%nat.
Proof.
  intros Hs Hp Hz Hne.
  assert (results = (take i results ++ [zp]) ++ z :: drop (S (S i)) results) as Hsplit.
  { rewrite <- (take_S_r _ _ _ Hp), <- (drop_S _ _ _ Hz). by rewrite take_drop. }
  set (pre := take i results ++ [zp]) in *.
  set (suf := z :: drop (S (S i)) results) in *.
  rewrite Hsplit in Hs |- *.
  pose proof (StronglySorted_app_1_l _ _ _ Hs) as Hpre.
  pose proof (StronglySorted_app_1_r _ _ _ Hs) as Hsuf.
  assert (z.2 < zp.2) as Hlt.
  { pose proof (StronglySorted_app_1_elem_of score_ge pre suf zp z Hs) as H.
    unfold score_ge in H. subst pre suf.
    specialize (H ltac:(set_solver) ltac:(set_solver)). lia. }
  assert (Forall (λ x : string * Z, zp.2 ≤ x.2) pre) as Hge.
  { subst pre. apply Forall_app. split; [| by constructor].
    apply Forall_forall. intros x Hx.
    apply (StronglySorted_app_1_elem_of score_ge _ _ x zp Hpre Hx). set_solver. }
  assert (Forall (λ x : string * Z, x.2 ≤ z.2) suf) as Hle.
  { subst suf. apply StronglySorted_cons in Hsuf as [Hz' _].
    constructor; [lia |]. eapply Forall_impl; [exact Hz' |]. unfold score_ge. auto. }
  rewrite !count_above_app, filter_app, length_app.
  rewrite (count_above_none z.2 suf) by done.
  rewrite (count_above_none zp.2 suf)
    by (eapply Forall_impl; [exact Hle |]; simpl; intros; lia).
  rewrite (filter_nothing _ suf)
    by (eapply Forall_impl; [exact Hle |]; simpl; intros; lia).
  rewrite (count_above_all z.2 pre)
    by (eapply Forall_impl; [exact Hge |]; simpl; intros; lia).
  rewrite (split_by_score zp.2 pre Hge). simpl. lia.
Qed.

Lemma length_rank_group results zp (l : list (string * Z)) :
  zp ∈ results → (∀ x, x ∈ l → x ∈ results) →
  length (filter (λ e, LeaderboardEntry.Rank e
                       = 1 + Z.of_nat (count_above zp.2 results))
            (entry_at results <$> l))
  = length (filter (λ x : string * Z, x.2 = zp.2) l).
Proof.
  intros Hp. induction l as [| x l IH]; intros Hsub; [done |].
  rewrite fmap_cons, !filter_cons.
  assert (x ∈ results) as Hx by (apply Hsub; left).
  specialize (IH (λ y Hy, Hsub y ltac:(by right))).
  destruct (decide (x.2 = zp.2)) as [Heq | Hneq].
  - rewrite decide_True by (simpl; by rewrite Heq). simpl. by rewrite IH.
  - rewrite decide_False; [done |]. simpl. intros Hc.
    apply Hneq, (count_above_inj results); [done | done | lia].
Qed.

Lemma GetTopUsers_entries w limit entries w' :
  0 < limit < 2 ^ 63 →
  repository.GetTopUsers limit w = (Ok entries, w') →
  let results := take (Z.to_nat limit) (zrev_all (zset w)) in
  w' = set_calls w (S (calls w))
  ∧ entries = entry_at results <$> results
  ∧ StronglySorted score_ge results.
Proof.
  intros Hl Hrun results.
  assert (StronglySorted score_ge results) as Hs.
  { pose proof (zrev_all_sorted (zset w)) as Hs.
    rewrite <- (take_drop (Z.to_nat limit)) in Hs.
    by apply StronglySorted_app_1_l in Hs. }
  destruct (fault w (calls w)) eqn:F.
  - unfold repository.GetTopUsers, bind, ZRevRangeWithScores in Hrun.
    rewrite call_fault in Hrun by done. discriminate.
  - rewrite GetTopUsers_ok in Hrun by done.
    rewrite wrap64_id in Hrun by (unfold in_int64; lia).
    rewrite zrange_slice_from_0 in Hrun by lia.
    replace (limit - 1 + 1) with limit in Hrun by lia.
    fold results in Hrun. injection Hrun as <- <-.
    split; [done |]. split; [| done]. by apply rank_entries_closed.
Qed.

(** C2.  For a limit N > 0, every entry that [GetTopUsers] returns has
    the rank 1 + (number of members with a strictly greater score), which
    is the rank [GetUserRank] computes on the same sorted set for the user
    whose member the entry was built from (and the entry names that user
    whenever the id fits 32 bits, as every id the handlers accept does).
    Entries of equal rating have equal ranks, and so have two users of
    equal score under [GetUserRank]; and where an entry's rating differs
    from its predecessor's, its rank is the predecessor's rank r plus the
    number k of entries that have rank r. *)
Theorem GetTopUsers_ranks_agree_with_GetUserRank
    (w : World) (limit : Z) (entries : list LeaderboardEntry.t) (w' : World) :
  0 < limit < 2 ^ 63 →
  repository.GetTopUsers limit w = (Ok entries, w') →
  (∀ i e, entries !! i = Some e →
     ∃ member,
       zrev_all (zset w) !! i = Some (member, LeaderboardEntry.Rating e)
       ∧ LeaderboardEntry.Rank e
         = 1 + Z.of_nat (count_above (LeaderboardEntry.Rating e)
                           (map_to_list (zset w)))
       ∧ ∀ userID, member = repository.member_of userID →
           ((userID < 2 ^ 32)%N → LeaderboardEntry.UserID e = userID)
           ∧ ∀ w2, zset w2 = zset w →
               fault w2 (calls w2) = false → fault w2 (S (calls w2)) = false →
               fst (repository.GetUserRank userID w2)
               = Ok (LeaderboardEntry.Rank e))
  ∧ (∀ e1 e2, e1 ∈ entries → e2 ∈ entries →
       LeaderboardEntry.Rating e1 = LeaderboardEntry.Rating e2 →
       LeaderboardEntry.Rank e1 = LeaderboardEntry.Rank e2)
  ∧ (∀ u1 u2 score w2, zset w2 = zset w →
       zset w !! repository.member_of u1 = Some score →
       zset w !! repository.member_of u2 = Some score →
       fault w2 (calls w2) = false → fault w2 (S (calls w2)) = false →
       fst (repository.GetUserRank u1 w2) = fst (repository.GetUserRank u2 w2))
  ∧ (∀ i e_prev e, entries !! i = Some e_prev → entries !! S i = Some e →
       LeaderboardEntry.Rating e ≠ LeaderboardEntry.Rating e_prev →
       LeaderboardEntry.Rank e
       = LeaderboardEntry.Rank e_prev
         + Z.of_nat (length (filter (λ x, LeaderboardEntry.Rank x
                                          = LeaderboardEntry.Rank e_prev)
                               entries))).
Proof.
  intros Hl Hrun.
  destruct (GetTopUsers_entries w limit entries w' Hl Hrun) as (Hw' & He & Hs).
  set (results := take (Z.to_nat limit) (zrev_all (zset w))) in *.
  repeat split.
  - intros i e Hi. rewrite He in Hi.
    apply list_lookup_fmap_Some in Hi as ([member score] & -> & Hz).
    pose proof Hz as Hz'. apply lookup_take_Some in Hz' as [Hin _].
    assert ((member, score) ∈ results) as Hres by (eapply list_elem_of_lookup_2; eauto).
    assert (zset w !! member = Some score) as Hm.
    { apply elem_of_zrev_all. eapply list_elem_of_lookup_2; eauto. }
    assert (count_above score results = count_above score (map_to_list (zset w))) as Hc.
    { rewrite <- (count_above_perm _ _ _ (zrev_all_perm (zset w))).
      apply (count_above_prefix _ _ (member, score)); [apply zrev_all_sorted | done]. }
    exists member. simpl. rewrite Hc.
    split; [done |]. split; [done |].
    intros userID ->. split.
    + intros Hu. rewrite TrimPrefix_member_of, ParseUint_FormatUint by (done || lia).
      reflexivity.
    + intros w2 Hz2 F0 F1.
      rewrite (GetUserRank_present w2 userID score) by (by rewrite ?Hz2).
      simpl. rewrite Hz2. f_equal. lia.
  - intros e1 e2 H1 H2 Hr. rewrite He in H1, H2.
    apply list_elem_of_fmap in H1 as (z1 & -> & _).
    apply list_elem_of_fmap in H2 as (z2 & -> & _).
    simpl in *. by rewrite Hr.
  - intros u1 u2 score w2 Hz2 H1 H2 F0 F1.
    rewrite (GetUserRank_present w2 u1 score), (GetUserRank_present w2 u2 score)
      by (by rewrite ?Hz2). reflexivity.
  - intros i e_prev e Hp Hi Hne. rewrite He in Hp, Hi.
    apply list_lookup_fmap_Some in Hp as (zp & -> & Hp).
    apply list_lookup_fmap_Some in Hi as (z & -> & Hz).
    simpl in Hne |- *.
    rewrite (count_above_next_group results i zp z) by (done || congruence).
    assert (zp ∈ results) as Hpin by (eapply list_elem_of_lookup_2; eauto).
    rewrite He, (length_rank_group results zp results) by done. lia.
Qed.

Lemma GetTopUsers_ranks_agree_with_GetUserRank_witness :
  match repository.GetTopUsers 10 seeded with
  | (Ok entries, w') =>
      ∀ i e, entries !! i = Some e →
        ∃ member,
          zrev_all (zset seeded) !! i = Some (member, LeaderboardEntry.Rating e)
          ∧ ∀ userID, member = repository.member_of userID →
              fst (repository.GetUserRank userID w') = Ok (LeaderboardEntry.Rank e)
  | (Err _, _) => False
  end.
Proof.
  destruct (repository.GetTopUsers 10 seeded) as [[entries | e] w'] eqn:E.
  - destruct (GetTopUsers_ranks_agree_with_GetUserRank seeded 10 entries w'
                ltac:(lia) E) as (Hrank & _).
    intros i e Hi. destruct (Hrank i e Hi) as (member & Hm & _ & Hu).
    exists member. split; [exact Hm |].
    intros userID Hid. apply (Hu userID Hid).
    + vm_compute in E. by injection E as _ <-.
    + vm_compute in E. by injection E as _ <-.
    + vm_compute in E. by injection E as _ <-.
  - vm_compute in E. discriminate E.
Defined.

(** The first scenario of the specification: ranks 1, 2, 2 for the three
    seeded users, from both operations. *)
Example scenario_seeded_top :
  fst (repository.GetTopUsers 10 seeded)
  = Ok [LeaderboardEntry.mk 1 1 "" 5000;
        LeaderboardEntry.mk 2 3 "" 4900;
        LeaderboardEntry.mk 2 2 "" 4900]
  ∧ fst (repository.GetUserRank 3 seeded) = Ok 2
  ∧ fst (repository.GetUserRank 2 seeded) = Ok 2.
Proof. repeat split; vm_compute; reflexivity. Qed.

(** ** C9: reading the attribute cache *)

Lemma GetCachedUser_state w userID :
  snd (repository.GetCachedUser userID w) = set_calls w (S (calls w)).
Proof.
  unfold repository.GetCachedUser, HGetAll, call.
  destruct (fault w (calls w)); [reflexivity |].
  simpl. case_decide; reflexivity.
Qed.

Lemma GetCachedUser_fault w userID :
  fault w (calls w) = true →
  fst (repository.GetCachedUser userID w) = Err (Errorf "user not in cache").
Proof.
  intros F. unfold repository.GetCachedUser, HGetAll.
  rewrite call_fault by done. reflexivity.
Qed.

Lemma GetCachedUser_miss w userID :
  fault w (calls w) = false →
  default ∅ (hashes w !! userID) = ∅ →
  fst (repository.GetCachedUser userID w) = Err (Errorf "user not in cache").
Proof.
  intros F Hm. unfold repository.GetCachedUser, HGetAll.
  rewrite call_ok by done. simpl. rewrite Hm.
  rewrite decide_True by apply map_size_empty. reflexivity.
Qed.

Lemma GetCachedUser_hit w userID result :
  fault w (calls w) = false →
  hashes w !! userID = Some result → result ≠ ∅ →
  fst (repository.GetCachedUser userID w)
  = Ok (User.mk (fst (strconv.ParseUint (repository.field result "id") 32))
          (repository.field result "username")
          (fst (strconv.Atoi (repository.field result "rating")))).
Proof.
  intros F Hh Hne. unfold repository.GetCachedUser, HGetAll.
  rewrite call_ok by done. simpl. rewrite Hh. simpl.
  rewrite decide_False; [reflexivity |].
  intros Hs. by apply map_size_empty_iff in Hs.
Qed.




(** ** The score-update orchestrator, step by step *)


Lemma only_calls_refl w : only_calls w w.
Proof. unfold only_calls. by destruct w. Qed.

Lemma only_calls_tick w n : only_calls w (set_calls w n).
Proof. reflexivity. Qed.

Lemma only_calls_trans w1 w2 w3 :
  only_calls w1 w2 → only_calls w2 w3 → only_calls w1 w3.
Proof. unfold only_calls. intros -> ->. reflexivity. Qed.

Lemma GetCachedUser_only_calls w userID :
  only_calls w (snd (repository.GetCachedUser userID w)).
Proof. rewrite GetCachedUser_state. apply only_calls_tick. Qed.

Lemma GetByID_cases w id :
  (fault w (calls w) = true ∧
   repository.GetByID id w = (Err (transport "postgres"), set_calls w (S (calls w))))
  ∨ (fault w (calls w) = false ∧ users w !! id = None ∧
     repository.GetByID id w = (Err gorm_ErrRecordNotFound, set_calls w (S (calls w))))
  ∨ (∃ u, fault w (calls w) = false ∧ users w !! id = Some u ∧
     repository.GetByID id w = (Ok u, set_calls w (S (calls w)))).
Proof.
  unfold repository.GetByID, db_First, call.
  destruct (fault w (calls w)); [by left |]. simpl.
  destruct (users w !! id) as [u |]; [right; right; eauto | right; left; eauto].
Qed.

Lemma load_user_only_calls w userID :
  only_calls w (snd (service.load_user userID w)).
Proof.
  unfold service.load_user, catch.
  pose proof (GetCachedUser_only_calls w userID) as H1.
  destruct (repository.GetCachedUser userID w) as [[u | e] w1]; simpl in *; [done |].
  eapply only_calls_trans; [exact H1 |].
  destruct (GetByID_cases w1 userID) as [(_ & ->) | [(_ & _ & ->) | (u & _ & _ & ->)]];
    apply only_calls_tick.
Qed.

Lemma GetUserRank_only_calls w userID :
  only_calls w (snd (repository.GetUserRank userID w)).
Proof.
  unfold repository.GetUserRank, bind, catch, ZScore, ZCount_above, call, only_calls.
  destruct (fault w (calls w)); [reflexivity |]. simpl.
  destruct (zset w !! repository.member_of userID); simpl; [| reflexivity].
  destruct (fault w (S (calls w))); reflexivity.
Qed.

Lemma count_above_le_size score (zs : gmap string Z) :
  (count_above score (map_to_list zs) ≤ size zs)%nat.
Proof.
  unfold count_above. rewrite <- length_map_to_list. apply length_filter.
Qed.

Lemma GetUserRank_range w userID rank :
  fst (repository.GetUserRank userID w) = Ok rank →
  1 ≤ rank ≤ Z.of_nat (size (zset w)) + 1.
Proof.
  unfold repository.GetUserRank, bind, catch, ZScore, ZCount_above, call.
  destruct (fault w (calls w)); [discriminate |]. simpl.
  destruct (zset w !! repository.member_of userID) as [score |]; simpl; [| discriminate].
  destruct (fault w (S (calls w))); [discriminate |]. simpl.
  intros [= <-]. pose proof (count_above_le_size score (zset w)). lia.
Qed.

Lemma rank_or_zero_spec w userID :
  ∃ rank, service.rank_or_zero userID w
          = (Ok rank, snd (repository.GetUserRank userID w))
    ∧ 0 ≤ rank ≤ Z.of_nat (size (zset w)) + 1
    ∧ (fst (repository.GetUserRank userID w) = Ok rank
       ∨ (rank = 0 ∧ ∃ e, fst (repository.GetUserRank userID w) = Err e)).
Proof.
  unfold service.rank_or_zero, catch.
  pose proof (GetUserRank_range w userID) as Hr.
  destruct (repository.GetUserRank userID w) as [[rank | e] w1]; simpl in *.
  - exists rank. specialize (Hr rank eq_refl). repeat split; auto; lia.
  - exists 0. repeat split; eauto; lia.
Qed.

Lemma ZAdd_cases w member score :
  (fault w (calls w) = true
   ∧ ZAdd member score w = (Err (transport "redis"), set_calls w (S (calls w))))
  ∨ (fault w (calls w) = false
     ∧ ZAdd member score w
       = (Ok tt, set_zset (set_calls w (S (calls w))) (<[member := score]> (zset w)))).
Proof.
  unfold ZAdd, call. destruct (fault w (calls w)); [left | right]; done.
Qed.

Lemma CacheUser_cases w user :
  (fault w (calls w) = true
   ∧ snd (repository.CacheUser user w) = set_calls w (S (calls w)))
  ∨ snd (repository.CacheUser user w)
    = set_hashes (set_calls w (S (calls w)))
        (<[User.ID user :=
             hash_set [("id", strconv.FormatUint (User.ID user));
                       ("username", User.Username user);
                       ("rating", strconv.Itoa (User.Rating user))]
               (default ∅ (hashes w !! User.ID user))]> (hashes w)).
Proof.
  unfold repository.CacheUser, HSet, call.
  destruct (fault w (calls w)); [left | right]; done.
Qed.

Lemma Publish_cases w payload :
  (fault w (calls w) = true
   ∧ snd (service.Publish payload w) = set_calls w (S (calls w)))
  ∨ snd (service.Publish payload w)
    = set_channel (set_calls w (S (calls w))) (channel w ++ [payload]).
Proof.
  unfold service.Publish, PUBLISH, call.
  destruct (fault w (calls w)); [left | right]; done.
Qed.

Lemma EnqueueUpdate_cases w item :
  (fault w (calls w) = true
   ∧ snd (service.EnqueueUpdate item w) = set_calls w (S (calls w)))
  ∨ snd (service.EnqueueUpdate item w)
    = set_stream (set_calls w (S (calls w)))
        (stream w ++ [(S (stream_last_id w), json_of item)]) (S (stream_last_id w)).
Proof.
  unfold service.EnqueueUpdate, XAdd, call, json_Marshal.
  destruct (fault w (calls w)); [left | right]; done.
Qed.

Lemma only_calls_now w w' : only_calls w w' → now w' = now w.
Proof. intros ->. reflexivity. Qed.

(** The stages of a successful [UpdateUserScore]. *)
Lemma UpdateUserScore_stages w userID requested payload w' :
  service.UpdateUserScore userID requested w = (Ok payload, w') →
  ∃ user oldRank newRank w1 w2 w3 w4 w5,
    service.load_user userID w = (Ok user, w1)
    ∧ service.rank_or_zero userID w1 = (Ok oldRank, w2)
    ∧ ZAdd (repository.member_of userID) (service.clamp_rating requested) w2
      = (Ok tt, w3)
    ∧ w4 = snd (repository.CacheUser
                  (User.mk (User.ID user) (User.Username user)
                     (service.clamp_rating requested)) w3)
    ∧ service.rank_or_zero userID w4 = (Ok newRank, w5)
    ∧ payload
      = ScoreUpdatePayload.mk userID (User.Username user) (User.Rating user)
          (service.clamp_rating requested) oldRank newRank
          (int_sub oldRank newRank)
          (int_sub (service.clamp_rating requested) (User.Rating user))
          (now w5)
    ∧ w' = snd (service.EnqueueUpdate
                  (DBSyncQueueItem.mk userID (User.Rating user)
                     (service.clamp_rating requested)
                     (now (snd (service.Publish payload w5))))
                  (snd (service.Publish payload w5))).
Proof.
  unfold service.UpdateUserScore, bind, catch.
  destruct (service.load_user userID w) as [[user | e] w1] eqn:E1; [| discriminate].
  destruct (rank_or_zero_spec w1 userID) as (oldRank & E2 & _).
  rewrite E2.
  set (w2 := snd (repository.GetUserRank userID w1)) in *.
  unfold repository.UpdateUserScore, repository.AddUser.
  destruct (ZAdd_cases w2 (repository.member_of userID) (service.clamp_rating requested))
    as [(F & E3) | (F & E3)]; rewrite E3; [discriminate |].
  unfold ignore_err at 1.
  set (w3 := set_zset _ _) in *.
  set (w4 := snd (repository.CacheUser _ w3)).
  destruct (rank_or_zero_spec w4 userID) as (newRank & E5 & _).
  rewrite E5.
  unfold time_Now, ignore_err. simpl.
  intros [= <- <-].
  exists user, oldRank, newRank, w1, w2, w3, w4, (snd (repository.GetUserRank userID w4)).
  repeat split; try assumption; reflexivity.
Qed.

Lemma only_calls_fields w w' :
  only_calls w w' →
  zset w' = zset w ∧ hashes w' = hashes w ∧ channel w' = channel w
  ∧ stream w' = stream w ∧ stream_last_id w' = stream_last_id w
  ∧ users w' = users w ∧ score_updates w' = score_updates w
  ∧ fault w' = fault w ∧ now w' = now w.
Proof. intros ->. repeat split. Qed.

(** ** C4: an update for a user that exists nowhere *)

(** C4.  For a user id that is neither in the attribute cache nor in the
    cold store, [UpdateUserScore] fails with the error "user not found"
    (wrapping the cause: no such record, or a transport error of the
    lookup), and nothing is published, nothing is enqueued, the sorted set
    and the cache are unchanged: only the tick counter moved. *)
Theorem UpdateUserScore_unknown_user (w : World) (userID : N) (requested : Z) :
  hashes w !! userID = None →
  users w !! userID = None →
  ∃ cause w',
    service.UpdateUserScore userID requested w
    = (Err (Errorf_w "user not found" cause), w')
    ∧ channel w' = channel w
    ∧ stream w' = stream w
    ∧ zset w' = zset w
    ∧ hashes w' = hashes w
    ∧ only_calls w w'.
Proof.
  intros Hc Hu.
  unfold service.UpdateUserScore, bind, catch, service.load_user, catch.
  assert (fst (repository.GetCachedUser userID w) = Err (Errorf "user not in cache")) as E1.
  { destruct (fault w (calls w)) eqn:F.
    - by apply GetCachedUser_fault.
    - apply GetCachedUser_miss; [done | by rewrite Hc]. }
  pose proof (GetCachedUser_state w userID) as S1.
  destruct (repository.GetCachedUser userID w) as [r1 w1]. simpl in E1, S1. subst r1 w1.
  destruct (GetByID_cases (set_calls w (S (calls w))) userID)
    as [(_ & ->) | [(_ & _ & ->) | (u & _ & Hsome & _)]].
  - eexists _, _. split; [reflexivity |]. repeat split.
  - eexists _, _. split; [reflexivity |]. repeat split.
  - simpl in Hsome. congruence.
Qed.

Lemma UpdateUserScore_unknown_user_witness :
  ∃ cause w',
    service.UpdateUserScore 9 1234 arena
    = (Err (Errorf_w "user not found" cause), w')
    ∧ channel w' = channel arena
    ∧ stream w' = stream arena
    ∧ zset w' = zset arena
    ∧ hashes w' = hashes arena
    ∧ only_calls arena w'.
Proof.
  apply (UpdateUserScore_unknown_user arena 9 1234); reflexivity.
Defined.

(** ** C5: the rating is clamped before anything is written *)

Lemma clamp_rating_range requested :
  100 ≤ service.clamp_rating requested ≤ 5000
  ∧ (requested < 100 → service.clamp_rating requested = 100)
  ∧ (5000 < requested → service.clamp_rating requested = 5000)
  ∧ (100 ≤ requested ≤ 5000 → service.clamp_rating requested = requested).
Proof.
  unfold service.clamp_rating.
  destruct (requested <? 100) eqn:E1; [apply Z.ltb_lt in E1 | apply Z.ltb_ge in E1].
  - simpl. lia.
  - destruct (5000 <? requested) eqn:E2;
      [apply Z.ltb_lt in E2 | apply Z.ltb_ge in E2]; lia.
Qed.

(** C5.  [UpdateUserScore] clamps the requested rating into [100, 5000]
    (below 100 gives 100, above 5000 gives 5000) before it writes: on
    success the sorted set holds the clamped rating for the user, the
    returned event carries it as its new rating, and the cache record, the
    published event and the write-behind item, each written unless its own
    request failed (those failures are swallowed), carry it too.  When no
    request fails all of them are written. *)
Theorem UpdateUserScore_records_clamped_rating
    (w : World) (userID : N) (requested : Z)
    (payload : ScoreUpdatePayload.t) (w' : World) :
  service.UpdateUserScore userID requested w = (Ok payload, w') →
  let rating := service.clamp_rating requested in
  let cache_written :=
    ∃ id h, hashes w' = <[id := h]> (hashes w)
            ∧ h !! "rating" = Some (strconv.Itoa rating) in
  let item_enqueued :=
    ∃ item, stream w' = stream w ++ [(S (stream_last_id w), json_of item)]
            ∧ DBSyncQueueItem.NewRating item = rating in
  (100 ≤ rating ≤ 5000
   ∧ (requested < 100 → rating = 100)
   ∧ (5000 < requested → rating = 5000))
  ∧ ScoreUpdatePayload.NewRating payload = rating
  ∧ zset w' = <[repository.member_of userID := rating]> (zset w)
  ∧ (hashes w' = hashes w ∨ cache_written)
  ∧ (channel w' = channel w ∨ channel w' = channel w ++ [payload])
  ∧ (stream w' = stream w ∨ item_enqueued)
  ∧ ((∀ tick, fault w tick = false) →
     cache_written ∧ channel w' = channel w ++ [payload] ∧ item_enqueued).
Proof.
  intros Hrun. cbv zeta.
  destruct (UpdateUserScore_stages _ _ _ _ _ Hrun)
    as (user & oldRank & newRank & w1 & w2 & w3 & w4 & w5
        & E1 & E2 & E3 & E4 & E5 & Ep & Ef).
  set (rating := service.clamp_rating requested) in *.
  pose proof (load_user_only_calls w userID) as O1. rewrite E1 in O1. simpl in O1.
  destruct (rank_or_zero_spec w1 userID) as (r & E2' & _).
  rewrite E2 in E2'. injection E2' as <- ->.
  pose proof (GetUserRank_only_calls w1 userID) as O2.
  set (w2 := snd (repository.GetUserRank userID w1)) in *.
  destruct (ZAdd_cases w2 (repository.member_of userID) rating)
    as [(F & E3') | (F & E3')]; rewrite E3 in E3'; [discriminate |].
  injection E3' as ->.
  destruct (rank_or_zero_spec w4 userID) as (r & E5' & _).
  rewrite E5 in E5'. injection E5' as <- ->.
  pose proof (GetUserRank_only_calls w4 userID) as O5.
  set (w5 := snd (repository.GetUserRank userID w4)) in *.
  destruct (only_calls_fields _ _ (only_calls_trans _ _ _ O1 O2))
    as (Z2 & H2 & C2 & S2 & L2 & _ & _ & F2 & _).
  destruct (only_calls_fields _ _ O5) as (Z5 & H5 & C5 & S5 & L5 & _ & _ & F5 & _).
  assert (zset w4 = <[repository.member_of userID := rating]> (zset w)
          ∧ channel w4 = channel w ∧ stream w4 = stream w
          ∧ stream_last_id w4 = stream_last_id w ∧ fault w4 = fault w
          ∧ (hashes w4 = hashes w
             ∨ ∃ id h, hashes w4 = <[id := h]> (hashes w)
                       ∧ h !! "rating" = Some (strconv.Itoa rating))
          ∧ ((∀ tick, fault w tick = false) →
             ∃ id h, hashes w4 = <[id := h]> (hashes w)
                     ∧ h !! "rating" = Some (strconv.Itoa rating)))
    as (Z4 & C4 & S4 & L4 & F4 & H4 & H4').
  { assert (∃ id h, <[User.ID user :=
               hash_set [("id", strconv.FormatUint (User.ID user));
                         ("username", User.Username user);
                         ("rating", strconv.Itoa rating)]
                 (default ∅ (hashes w !! User.ID user))]> (hashes w)
              = <[id := h]> (hashes w)
              ∧ h !! "rating" = Some (strconv.Itoa rating)) as Hw.
    { eexists _, _. split; [reflexivity |].
      unfold hash_set. simpl. apply lookup_insert_eq. }
    subst w4.
    destruct (CacheUser_cases
                (set_zset (set_calls w2 (S (calls w2)))
                   (<[repository.member_of userID := rating]> (zset w2)))
                (User.mk (User.ID user) (User.Username user) rating))
      as [(Fc & ->) | ->];
      simpl in *; rewrite ?Z2, ?C2, ?S2, ?L2, ?H2, ?F2 in *;
      repeat split; auto.
    intros Hno. rewrite Hno in Fc. discriminate. }
  set (item := DBSyncQueueItem.mk _ _ _ _) in Ef.
  assert (zset w' = zset w5 ∧ hashes w' = hashes w5
          ∧ (channel w' = channel w5 ∨ channel w' = channel w5 ++ [payload])
          ∧ (stream w' = stream w5
             ∨ stream w' = stream w5 ++ [(S (stream_last_id w5), json_of item)])
          ∧ ((∀ tick, fault w5 tick = false) →
             channel w' = channel w5 ++ [payload]
             ∧ stream w' = stream w5 ++ [(S (stream_last_id w5), json_of item)]))
    as (Zf & Hf & Cf & Sf & Nf).
  { subst w'.
    destruct (Publish_cases w5 payload) as [(Fp & ->) | ->];
      match goal with |- context [service.EnqueueUpdate ?i ?x] =>
        destruct (EnqueueUpdate_cases x i) as [(Fe & ->) | ->] end;
      simpl in *; repeat split;
      try reflexivity; try (left; reflexivity); try (right; reflexivity);
      exfalso;
      repeat match goal with
             | H : ∀ _, _ = false, F : _ = true |- _ => rewrite H in F
             end; discriminate. }
  rewrite F5, F4 in Nf. rewrite C5, C4, S5, S4, L5, L4 in Nf.
  pose proof (clamp_rating_range requested) as (? & ? & ? & _).
  split; [auto |].
  split; [rewrite Ep; reflexivity |].
  rewrite Zf, Z5, Z4. split; [reflexivity |].
  rewrite Hf, H5. split; [exact H4 |].
  rewrite C5, C4 in Cf. split; [exact Cf |].
  rewrite S5, S4, L5, L4 in Sf. split.
  - destruct Sf as [Sf | Sf]; [by left | right].
    exists item. split; [done | reflexivity].
  - intros Hno. destruct (Nf Hno) as [Nc Ns].
    split; [auto |]. split; [done |].
    exists item. split; [done | reflexivity].
Qed.

Lemma UpdateUserScore_records_clamped_rating_witness :
  match service.UpdateUserScore 3 5100 arena with
  | (Ok payload, w') =>
      ScoreUpdatePayload.NewRating payload = 5000
      ∧ zset w' = <["user:3" := 5000]> (zset arena)
      ∧ channel w' = channel arena ++ [payload]
  | (Err _, _) => False
  end.
Proof.
  destruct (service.UpdateUserScore 3 5100 arena) as [[payload | e] w'] eqn:E.
  - destruct (UpdateUserScore_records_clamped_rating arena 3 5100 payload w' E)
      as (_ & Hp & Hz & _ & _ & _ & Hall).
    destruct (Hall (λ tick, eq_refl)) as (_ & Hc & _).
    repeat split; assumption.
  - vm_compute in E. discriminate E.
Defined.

(** The guard in front of [UpdateUserScore]: the handler answers 400 to a
    rating outside 100..5000 (and to 0), and the service is not called. *)
Lemma handler_rejects_out_of_range w user_id newRating :
  ¬ (100 ≤ newRating ≤ 5000) →
  (∃ msg, handler.UpdateUserScore user_id (Some newRating) w = (handler.StatusBadRequest msg, w)).
Proof.
  intros Hr. unfold handler.UpdateUserScore.
  destruct (strconv.ParseUint user_id 32) as [userID [e |]]; [eauto |].
  assert (handler.binding_ok newRating = false) as ->; [| eauto].
  unfold handler.binding_ok.
  destruct (100 <=? newRating) eqn:E1; [| by rewrite andb_false_r].
  destruct (newRating <=? 5000) eqn:E2; [| by rewrite andb_false_r].
  apply Z.leb_le in E1, E2. lia.
Qed.

(** ** C6: the deltas of the event *)

Lemma int_sub_exact a b : in_int64 (a - b) → int_sub a b = a - b.
Proof. apply wrap64_id. Qed.

(** C6.  In the event that a successful [UpdateUserScore] returns (and
    publishes: the channel gains no other event), the old rating is the
    one loaded from the cache or else the cold store before the write,
    rating_delta is new_rating - old_rating and rank_delta is
    old_rank - new_rank in Go's int arithmetic; the first is the exact
    difference whenever that difference fits an int64 (always, for stored
    ratings within 100..5000), the second whenever the sorted set has fewer
    than 2^62 members, whatever old_rank is (so also when old_rank > 0). *)
Theorem UpdateUserScore_event_deltas
    (w : World) (userID : N) (requested : Z)
    (payload : ScoreUpdatePayload.t) (w' : World) :
  service.UpdateUserScore userID requested w = (Ok payload, w') →
  let old_rating := ScoreUpdatePayload.OldRating payload in
  let new_rating := ScoreUpdatePayload.NewRating payload in
  let old_rank := ScoreUpdatePayload.OldRank payload in
  let new_rank := ScoreUpdatePayload.NewRank payload in
  (∃ user w1, service.load_user userID w = (Ok user, w1)
              ∧ old_rating = User.Rating user)
  ∧ ScoreUpdatePayload.RatingDelta payload = int_sub new_rating old_rating
  ∧ ScoreUpdatePayload.RankDelta payload = int_sub old_rank new_rank
  ∧ (in_int64 (new_rating - old_rating) →
     ScoreUpdatePayload.RatingDelta payload = new_rating - old_rating)
  ∧ (Z.of_nat (size (zset w)) < 2 ^ 62 →
     ScoreUpdatePayload.RankDelta payload = old_rank - new_rank)
  ∧ (∀ event, event ∈ channel w' → event ∈ channel w ∨ event = payload).
Proof.
  intros Hrun. cbv zeta.
  pose proof (UpdateUserScore_records_clamped_rating _ _ _ _ _ Hrun)
    as (_ & _ & _ & _ & Hc & _).
  destruct (UpdateUserScore_stages _ _ _ _ _ Hrun)
    as (user & oldRank & newRank & w1 & w2 & w3 & w4 & w5
        & E1 & E2 & E3 & E4 & E5 & Ep & Ef).
  assert (0 ≤ oldRank ≤ Z.of_nat (size (zset w)) + 1) as Ho.
  { destruct (rank_or_zero_spec w1 userID) as (r & E2' & Hr & _).
    rewrite E2 in E2'. injection E2' as <- _.
    pose proof (load_user_only_calls w userID) as O1. rewrite E1 in O1. simpl in O1.
    destruct (only_calls_fields _ _ O1) as (Z1 & _). by rewrite Z1 in Hr. }
  assert (0 ≤ newRank ≤ Z.of_nat (size (zset w)) + 2) as Hn.
  { destruct (rank_or_zero_spec w4 userID) as (r & E5' & Hr & _).
    rewrite E5 in E5'. injection E5' as <- _.
    assert (zset w4 = <[repository.member_of userID := service.clamp_rating requested]>
                        (zset w)) as Z4.
    { pose proof (load_user_only_calls w userID) as O1. rewrite E1 in O1. simpl in O1.
      destruct (rank_or_zero_spec w1 userID) as (r & E2' & _).
      rewrite E2 in E2'. injection E2' as _ ->.
      pose proof (GetUserRank_only_calls w1 userID) as O2.
      destruct (only_calls_fields _ _ (only_calls_trans _ _ _ O1 O2)) as (Z2 & _).
      destruct (ZAdd_cases (snd (repository.GetUserRank userID w1))
                  (repository.member_of userID) (service.clamp_rating requested))
        as [(F & E3') | (F & E3')]; rewrite E3 in E3'; [discriminate |].
      injection E3' as ->. subst w4.
      match goal with |- context [repository.CacheUser ?u ?x] =>
        destruct (CacheUser_cases x u) as [(_ & ->) | ->] end;
        simpl; by rewrite Z2. }
    rewrite Z4 in Hr.
    pose proof (map_size_insert (repository.member_of userID)
                  (service.clamp_rating requested) (zset w)) as Hs.
    rewrite Hs in Hr.
    destruct (zset w !! repository.member_of userID); unfold id in Hr; lia. }
  rewrite Ep. cbn [ScoreUpdatePayload.OldRating ScoreUpdatePayload.NewRating
                   ScoreUpdatePayload.OldRank ScoreUpdatePayload.NewRank
                   ScoreUpdatePayload.RatingDelta ScoreUpdatePayload.RankDelta].
  split; [eauto |].
  split; [reflexivity |]. split; [reflexivity |].
  split; [apply int_sub_exact |].
  split.
  - intros Hsz. apply int_sub_exact. unfold in_int64. lia.
  - intros event Hev. rewrite <- Ep.
    destruct Hc as [Hc | Hc]; rewrite Hc in Hev; [by left |].
    apply elem_of_app in Hev as [? | Hev]; [by left | right].
    by apply list_elem_of_singleton in Hev.
Qed.

Lemma UpdateUserScore_event_deltas_witness :
  match service.UpdateUserScore 2 4950 arena with
  | (Ok payload, w') =>
      ScoreUpdatePayload.RatingDelta payload
      = ScoreUpdatePayload.NewRating payload - ScoreUpdatePayload.OldRating payload
      ∧ ScoreUpdatePayload.RankDelta payload
        = ScoreUpdatePayload.OldRank payload - ScoreUpdatePayload.NewRank payload
  | (Err _, _) => False
  end.
Proof.
  destruct (service.UpdateUserScore 2 4950 arena) as [[payload | e] w'] eqn:E.
  - destruct (UpdateUserScore_event_deltas arena 2 4950 payload w' E)
      as (_ & _ & _ & Hrating & Hrank & _).
    split.
    + apply Hrating. vm_compute in E. injection E as <- _.
      unfold in_int64. simpl. lia.
    + apply Hrank. vm_compute. reflexivity.
  - vm_compute in E. discriminate E.
Defined.

(** The second and third scenario of the specification, run on the model
    (user 2 to 4950, then user 3 to 5100). *)
Example scenario_update_bob :
  fst (service.UpdateUserScore 2 4950 arena)
  = Ok (ScoreUpdatePayload.mk 2 "bob" 4900 4950 2 2 0 50 0).
Proof. vm_compute. reflexivity. Qed.

Example scenario_update_carol :
  fst (service.UpdateUserScore 3 5100 (snd (service.UpdateUserScore 2 4950 arena)))
  = Ok (ScoreUpdatePayload.mk 3 "carol" 4900 5000 3 1 2 100 0).
Proof. vm_compute. reflexivity. Qed.

(** ** C8: the search annotation *)


Lemma service_GetUserRank_ok w userID rank w' :
  service.GetUserRank userID w = (Ok rank, w') →
  repository.GetUserRank userID w = (Ok rank, w').
Proof.
  unfold service.GetUserRank, catch.
  destruct (repository.GetUserRank userID w) as [[r | e] w1]; [done | discriminate].
Qed.

Lemma service_GetUserRank_only_calls w userID :
  only_calls w (snd (service.GetUserRank userID w)).
Proof.
  unfold service.GetUserRank, catch.
  pose proof (GetUserRank_only_calls w userID) as H.
  destruct (repository.GetUserRank userID w) as [[r | e] w1]; exact H.
Qed.

Lemma annotate_lookups users w :
  fst (search.annotate users w) = Ok (omap search.keep (search.lookups users w)).
Proof.
  revert w. induction users as [| user rest IH]; intros w; [done |].
  cbn [search.annotate search.lookups].
  destruct (service.GetUserRank (User.ID user) w) as [[rank | e] w1].
  - unfold bind, ret. specialize (IH w1).
    destruct (search.annotate rest w1) as [[results | e] w2]; simpl in *.
    + by injection IH as ->.
    + discriminate.
  - simpl. apply IH.
Qed.


Lemma limit_results_take users limit w :
  0 ≤ limit →
  search.limit_results users limit w = (Ok (take (Z.to_nat limit) users), w).
Proof.
  intros Hl. unfold search.limit_results.
  destruct (limit <? Z.of_nat (length users)) eqn:E.
  - destruct (limit <? 0) eqn:E'; [apply Z.ltb_lt in E'; lia | reflexivity].
  - apply Z.ltb_ge in E. unfold ret. by rewrite take_ge by lia.
Qed.

(** ** The two comparisons are strict weak orders *)

Lemma by_rating_desc_strict_weak : search.strict_weak search.by_rating_desc.
Proof.
  unfold search.strict_weak, search.by_rating_desc. split.
  - intros x y H. apply Z.ltb_lt in H. apply Z.ltb_ge. lia.
  - intros x y z H1 H2. apply Z.ltb_ge in H1, H2. apply Z.ltb_ge. lia.
Qed.

Lemma result_by_rating_desc_strict_weak :
  search.strict_weak search.result_by_rating_desc.
Proof.
  unfold search.strict_weak, search.result_by_rating_desc. split.
  - intros x y H. apply Z.ltb_lt in H. apply Z.ltb_ge. lia.
  - intros x y z H1 H2. apply Z.ltb_ge in H1, H2. apply Z.ltb_ge. lia.
Qed.

(** ** Two sorts that keep the promise of [sort.Slice] *)


Section insertion.

Context {A : Type} (less : A → A → bool).
Hypothesis Hless : search.strict_weak less.

(** The part already sorted is kept last element first: nothing in it is
    less than an element further on. *)
Let sorted_back (x y : A) : Prop := less x y = false.

Lemma insert_left_perm x s : search.insert_left less x s ≡ₚ x :: s.
Proof.
  induction s as [| y s IH]; [done |]. simpl.
  destruct (less x y); [| done]. rewrite IH. apply Permutation_swap.
Qed.

Lemma insert_left_sorted x s :
  StronglySorted sorted_back s →
  StronglySorted sorted_back (search.insert_left less x s).
Proof.
  destruct Hless as [Hasym Hneg].
  induction 1 as [| y s Hs IH Hy]; [repeat constructor |]. simpl.
  destruct (less x y) eqn:E.
  - constructor; [done |]. rewrite insert_left_perm.
    constructor; [by apply Hasym | done].
  - constructor; [by constructor |]. constructor; [done |].
    eapply Forall_impl; [exact Hy |]. intros z Hz. by apply (Hneg x y z).
Qed.

Lemma StronglySorted_rev s :
  StronglySorted sorted_back s →
  StronglySorted (λ x y, less y x = false) (rev s).
Proof.
  induction 1 as [| y s Hs IH Hy]; [constructor |]. simpl.
  apply StronglySorted_app_2; [| done | repeat constructor].
  intros x1 x2 H1 H2. apply list_elem_of_singleton in H2 as ->.
  apply list_elem_of_In, in_rev, list_elem_of_In in H1.
  rewrite Forall_forall in Hy. by apply Hy.
Qed.

Lemma foldl_insert_left l acc :
  StronglySorted sorted_back acc →
  foldl (λ sorted x, search.insert_left less x sorted) acc l ≡ₚ l ++ acc
  ∧ StronglySorted sorted_back
      (foldl (λ sorted x, search.insert_left less x sorted) acc l).
Proof.
  revert acc. induction l as [| x l IH]; intros acc Hacc; [done |].
  simpl. destruct (IH _ (insert_left_sorted x acc Hacc)) as [IHp IHs].
  split; [| done]. rewrite IHp, insert_left_perm. by rewrite Permutation_middle.
Qed.

End insertion.

Lemma insertionSort_sorts : search.sorts search.insertionSort.
Proof.
  intros A less l Hless. unfold search.insertionSort.
  destruct (foldl_insert_left less Hless l [] ltac:(constructor)) as [Hp Hs].
  split.
  - rewrite <- Permutation_rev, Hp. by rewrite app_nil_r.
  - by apply StronglySorted_rev.
Qed.

Lemma rotatingSort_sorts : search.sorts search.rotatingSort.
Proof.
  intros A less l Hless. unfold search.rotatingSort.
  destruct (insertionSort_sorts A less (drop 1 l ++ take 1 l) Hless) as [Hp Hs].
  split; [| done].
  rewrite Hp, Permutation_app_comm. by rewrite take_drop.
Qed.

(** ** What [SearchUsers] returns *)

Section search_facts.

Variable sort_Slice : ∀ A : Type, (A → A → bool) → list A → list A.
Variable SearchByUsername : string → Z → M (list User.t).


End search_facts.



(** Both sorts keep the promise of [sort.Slice]; on the same candidates,
    the two users at 4900 come out in a different order. *)
Example equal_ratings_in_the_order_of_the_sort :
  fst (search.SearchUsers search.insertionSort (found [bob; carol; alice]) "a" 10 arena)
  = Ok [SearchResult.mk 1 1 "alice" 5000;
        SearchResult.mk 2 2 "bob" 4900;
        SearchResult.mk 2 3 "carol" 4900]
  ∧ fst (search.SearchUsers search.rotatingSort (found [bob; carol; alice]) "a" 10 arena)
    = Ok [SearchResult.mk 1 1 "alice" 5000;
          SearchResult.mk 2 3 "carol" 4900;
          SearchResult.mk 2 2 "bob" 4900].
Proof. split; vm_compute; reflexivity. Qed.

(** ** C3: the write-behind pipeline *)

Section write_behind.

Import dbsync.

Lemma XReadGroup_new_cases w :
  (∃ e, XReadGroup_new BatchSize w = (Err e, set_calls w (S (calls w))))
  ∨ (∃ e, last (fresh_entries w) = Some e
          ∧ XReadGroup_new BatchSize w
            = (Ok (fresh_entries w),
               set_group (set_calls w (S (calls w))) e.1
                 (group_pel w ∪ list_to_set ((fresh_entries w).*1)))).
Proof.
  unfold XReadGroup_new, call. destruct (fault w (calls w)); [left; eauto |].
  simpl. fold (fresh_entries w).
  destruct (last (fresh_entries w)) as [e |] eqn:E; [right | left]; eauto.
Qed.

Lemma only_tables_refl w : only_tables w w.
Proof. unfold only_tables. by destruct w. Qed.

Lemma only_tables_trans w1 w2 w3 :
  only_tables w1 w2 → only_tables w2 w3 → only_tables w1 w3.
Proof. unfold only_tables. intros -> ->. reflexivity. Qed.

Lemma apply_item_effect item w :
  only_tables w (snd (apply_item item w))
  ∧ (fst (apply_item item w) = Ok tt →
     score_updates (snd (apply_item item w))
     = score_updates w ++ [history_row item]).
Proof.
  unfold apply_item, bind, db_UpdateRating, db_CreateHistory, call.
  destruct (fault w (calls w)); simpl; [split; [reflexivity | discriminate] |].
  destruct (fault w (S (calls w))); simpl; split; try reflexivity; discriminate.
Qed.

Lemma apply_items_effect items w :
  only_tables w (snd (apply_items items w))
  ∧ (fst (apply_items items w) = Ok tt →
     score_updates (snd (apply_items items w))
     = score_updates w ++ (history_row <$> items)).
Proof.
  revert w. induction items as [| item items IH]; intros w.
  - simpl. split; [apply only_tables_refl | by rewrite app_nil_r].
  - cbn [apply_items]. unfold bind.
    destruct (apply_item_effect item w) as [Ho Hs].
    destruct (apply_item item w) as [[[] | e] w1]; simpl in *.
    + destruct (IH w1) as [Ho' Hs'].
      split; [eapply only_tables_trans; eauto |].
      intros Hok. rewrite (Hs' Hok), (Hs eq_refl), <- app_assoc. reflexivity.
    + split; [done | discriminate].
Qed.

Lemma db_Transaction_cases items w :
  ∃ r w', db_Transaction (apply_items items) w = (r, w')
    ∧ ((∃ e, r = Err e ∧ only_calls w w')
       ∨ (r = Ok tt ∧ only_tables w w'
          ∧ score_updates w' = score_updates w ++ (history_row <$> items))).
Proof.
  unfold db_Transaction, bind, ret, call.
  destruct (fault w (calls w)); simpl.
  { eexists _, _. split; [reflexivity |]. left. eexists. split; [reflexivity |].
    unfold only_calls. destruct w; reflexivity. }
  destruct (apply_items_effect items (set_calls w (S (calls w)))) as [Ho Hs].
  destruct (apply_items items (set_calls w (S (calls w))))
    as [[[] | e] w1]; simpl in *.
  - destruct (fault w1 (calls w1)) eqn:F; simpl;
      (eexists _, _; split; [reflexivity |]).
    + left. eexists. split; [reflexivity |].
      unfold only_calls. rewrite Ho. destruct w; reflexivity.
    + right. split; [done |]. split; [| simpl; apply (Hs eq_refl)].
      unfold only_tables. rewrite Ho. reflexivity.
  - eexists _, _. split; [reflexivity |]. left. eexists. split; [reflexivity |].
    unfold only_calls. rewrite Ho. destruct w; reflexivity.
Qed.

Lemma XAck_cases ids w :
  snd (XAck ids w) = set_calls w (S (calls w))
  ∨ snd (XAck ids w)
    = set_group (set_calls w (S (calls w))) (group_last_delivered w)
        (group_pel w ∖ list_to_set ids).
Proof. unfold XAck, call. destruct (fault w (calls w)); [left | right]; done. Qed.

(** The outcomes of one [processBatch]. *)
Lemma processBatch_cases w :
  let w' := processBatch w in
  stream w' = stream w ∧ stream_last_id w' = stream_last_id w
  ∧ ((group_last_delivered w' = group_last_delivered w
      ∧ group_pel w' = group_pel w
      ∧ score_updates w' = score_updates w)
     ∨ ∃ e items ids,
         last (fresh_entries w) = Some e
         ∧ decode (fresh_entries w) = (items, ids)
         ∧ group_last_delivered w' = e.1
         ∧ ((group_pel w' = group_pel w ∪ list_to_set ((fresh_entries w).*1)
             ∧ score_updates w' = score_updates w)
            ∨ (score_updates w' = score_updates w ++ (history_row <$> items)
               ∧ (group_pel w' = group_pel w ∪ list_to_set ((fresh_entries w).*1)
                  ∨ group_pel w'
                    = (group_pel w ∪ list_to_set ((fresh_entries w).*1))
                        ∖ list_to_set ids)))).
Proof.
  intros w'. subst w'. unfold processBatch.
  destruct (XReadGroup_new_cases w) as [(e & ->) | (e & Hl & ->)].
  { simpl. repeat split. by left. }
  set (w1 := set_group _ _ _).
  destruct (decode (fresh_entries w)) as [items ids] eqn:Hd.
  destruct items as [| item items].
  { simpl. repeat split. right. exists e, [], ids. repeat split; auto. }
  set (its := item :: items) in *.
  destruct (db_Transaction_cases its w1)
    as (r & w2 & -> & [(err & -> & Ho) | (-> & Ho & Hs)]).
  - rewrite Ho. simpl. repeat split. right. exists e, its, ids. repeat split; auto.
  - simpl in Hs.
    assert (stream w2 = stream w ∧ stream_last_id w2 = stream_last_id w
            ∧ group_last_delivered w2 = e.1
            ∧ group_pel w2 = group_pel w ∪ list_to_set ((fresh_entries w).*1))
      as (S2 & L2 & G2 & P2) by (rewrite Ho; by repeat split).
    destruct (XAck_cases ids w2) as [-> | ->]; simpl;
      (split; [done |]); (split; [done |]);
      right; exists e, its, ids; repeat split; auto.
    right. split; [done |]. right. by rewrite P2.
Qed.

(** ** Facts on the entries of the stream *)

Lemma StronglySorted_filter {A} (R : relation A) (P : A → Prop)
    `{!∀ x, Decision (P x)} (l : list A) :
  StronglySorted R l → StronglySorted R (filter P l).
Proof.
  induction 1 as [| x l Hs IH Hx]; [constructor |].
  rewrite filter_cons. case_decide; [| done].
  constructor; [done |].
  apply Forall_forall. intros y Hy. apply list_elem_of_filter in Hy as [_ Hy].
  rewrite Forall_forall in Hx. by apply Hx.
Qed.

Lemma elem_of_fresh_entries w e :
  e ∈ fresh_entries w → (group_last_delivered w < e.1)%nat ∧ e ∈ stream w.
Proof.
  unfold fresh_entries. intros He.
  apply elem_of_take in He as (i & He & _).
  apply list_elem_of_lookup_2 in He. by apply list_elem_of_filter in He.
Qed.







Lemma only_calls_pipeline w w' :
  only_calls w w' →
  stream w' = stream w ∧ stream_last_id w' = stream_last_id w
  ∧ group_last_delivered w' = group_last_delivered w
  ∧ group_pel w' = group_pel w
  ∧ score_updates w' = score_updates w.
Proof. intros ->. repeat split. Qed.

(** What an update does to the pipeline: at most one entry more in the
    stream, under a new id. *)
Lemma UpdateUserScore_pipeline w userID requested :
  let w' := snd (service.UpdateUserScore userID requested w) in
  group_last_delivered w' = group_last_delivered w
  ∧ group_pel w' = group_pel w
  ∧ score_updates w' = score_updates w
  ∧ ((stream w' = stream w ∧ stream_last_id w' = stream_last_id w)
     ∨ (∃ item,
          stream w' = stream w ++ [(S (stream_last_id w), json_of item)]
          ∧ stream_last_id w' = S (stream_last_id w)
          ∧ DBSyncQueueItem.UserID item = userID
          ∧ DBSyncQueueItem.NewRating item = service.clamp_rating requested)).
Proof.
  intros w'. subst w'.
  destruct (service.UpdateUserScore userID requested w) as [res w'] eqn:E.
  cbn [snd]. revert E.
  unfold service.UpdateUserScore, bind, catch.
  pose proof (load_user_only_calls w userID) as O1.
  destruct (service.load_user userID w) as [[user | e] w1]; simpl in O1.
  2:{ intros [= _ <-].
      destruct (only_calls_pipeline _ _ O1) as (-> & -> & -> & -> & ->).
      repeat split. by left. }
  destruct (rank_or_zero_spec w1 userID) as (oldRank & -> & _).
  pose proof (GetUserRank_only_calls w1 userID) as O2.
  set (w2 := snd (repository.GetUserRank userID w1)) in *.
  pose proof (only_calls_pipeline _ _ (only_calls_trans _ _ _ O1 O2))
    as (S2 & L2 & G2 & P2 & U2).
  unfold repository.UpdateUserScore, repository.AddUser.
  destruct (ZAdd_cases w2 (repository.member_of userID) (service.clamp_rating requested))
    as [(_ & ->) | (_ & ->)].
  { intros [= _ <-]. simpl. rewrite S2, L2, G2, P2, U2. repeat split. by left. }
  unfold ignore_err at 1. cbn [snd].
  set (w3 := set_zset _ _).
  set (w4 := snd (repository.CacheUser _ w3)).
  assert (stream w4 = stream w ∧ stream_last_id w4 = stream_last_id w
          ∧ group_last_delivered w4 = group_last_delivered w
          ∧ group_pel w4 = group_pel w
          ∧ score_updates w4 = score_updates w) as H4.
  { subst w4.
    match goal with |- context [repository.CacheUser ?u ?x] =>
      destruct (CacheUser_cases x u) as [(_ & ->) | ->] end;
      subst w3; simpl; by rewrite S2, L2, G2, P2, U2. }
  destruct (rank_or_zero_spec w4 userID) as (newRank & -> & _).
  pose proof (GetUserRank_only_calls w4 userID) as O5.
  set (w5 := snd (repository.GetUserRank userID w4)) in *.
  destruct (only_calls_pipeline _ _ O5) as (S5 & L5 & G5 & P5 & U5).
  destruct H4 as (S4 & L4 & G4 & P4 & U4).
  unfold time_Now, ignore_err, ret. cbn [snd].
  intros [= _ <-].
  match goal with |- context [service.Publish ?p w5] =>
    destruct (Publish_cases w5 p) as [(_ & ->) | ->] end;
    match goal with |- context [service.EnqueueUpdate ?i ?x] =>
      destruct (EnqueueUpdate_cases x i) as [(_ & ->) | ->] end;
    simpl; rewrite ?S5, ?L5, ?G5, ?P5, ?U5, ?S4, ?L4, ?G4, ?P4, ?U4;
    repeat split; try (by left); right; eexists; repeat split.
Qed.


Lemma trim_cases w :
  let w' := step w EvTrim in
  group_last_delivered w' = group_last_delivered w
  ∧ group_pel w' = group_pel w
  ∧ score_updates w' = score_updates w
  ∧ stream_last_id w' = stream_last_id w
  ∧ (stream w' = stream w ∨ stream w' = kept_by_trim w).
Proof.
  intros w'. subst w'. cbn [step].
  destruct (trims_spawned w) as [| n]; [repeat split; by left |].
  unfold trimStream, XTrimMaxLen, call. simpl.
  destruct (fault w (calls w)); simpl; repeat split; auto.
Qed.







End write_behind.

(** ** C10: the hub closes a channel once *)

Section hub.

Import websocket.

Lemma hub_inv_new : hub_inv NewHub.
Proof.
  split; simpl.
  - intros c Hc. set_solver.
  - intros c. split; [intros Hc; by apply elem_of_nil in Hc |].
    intros (ch & Hch & _). by rewrite lookup_empty in Hch.
  - constructor.
  - intros c [ch Hch]. by rewrite lookup_empty in Hch.
Qed.

Lemma close_open h c ch :
  send h !! c = Some ch → closed ch = false →
  close c h
  = Ok (mkHub (clients h) (<[c := mkChan (queue ch) (cap ch) true]> (send h))
          (next_client h) (close_log h ++ [c])).
Proof. intros Hs Hc. unfold close. by rewrite Hs, Hc. Qed.

(** Closing the open channel of a client that leaves the registry. *)
Lemma hub_inv_close_delete h c ch :
  hub_inv h → send h !! c = Some ch → closed ch = false →
  hub_inv (mkHub (clients h ∖ {[c]})
             (<[c := mkChan (queue ch) (cap ch) true]> (send h))
             (next_client h) (close_log h ++ [c])).
Proof.
  intros [Ho Hl Hn Ha] Hs Hc. split; simpl.
  - intros c' Hc'. apply elem_of_difference in Hc' as [Hin Hne].
    rewrite lookup_insert_ne by set_solver. by apply Ho.
  - intros c'. rewrite elem_of_app, list_elem_of_singleton.
    destruct (decide (c' = c)) as [-> | Hne].
    + rewrite lookup_insert_eq. split; [eauto | by right].
    + rewrite lookup_insert_ne by done. rewrite <- Hl. naive_solver.
  - apply NoDup_app. split; [done |]. split; [| apply NoDup_singleton].
    intros c' Hin Heq. apply list_elem_of_singleton in Heq as ->.
    apply Hl in Hin as (ch' & Hs' & Hc'). congruence.
  - intros c' Hc'. apply Ha.
    destruct (decide (c' = c)) as [-> | Hne]; [by rewrite Hs |].
    by rewrite lookup_insert_ne in Hc'.
Qed.

(** Changing the queue of a channel, not whether it is closed. *)
Lemma hub_inv_queue h c ch q :
  hub_inv h → send h !! c = Some ch →
  hub_inv (mkHub (clients h) (<[c := mkChan q (cap ch) (closed ch)]> (send h))
             (next_client h) (close_log h)).
Proof.
  intros [Ho Hl Hn Ha] Hs. split; simpl; [| | done |].
  - intros c' Hc'. destruct (decide (c' = c)) as [-> | Hne].
    + rewrite lookup_insert_eq. destruct (Ho c Hc') as (ch' & Hs' & Hc).
      rewrite Hs in Hs'. injection Hs' as <-. eauto.
    + rewrite lookup_insert_ne by done. by apply Ho.
  - intros c'. rewrite Hl. destruct (decide (c' = c)) as [-> | Hne].
    + rewrite lookup_insert_eq, Hs. naive_solver.
    + by rewrite lookup_insert_ne.
  - intros c' Hc'. apply Ha.
    destruct (decide (c' = c)) as [-> | Hne]; [by rewrite Hs |].
    by rewrite lookup_insert_ne in Hc'.
Qed.

Lemma broadcast_one_registered message h c :
  hub_inv h → c ∈ clients h →
  ∃ h', broadcast_one message h c = Ok h'
        ∧ hub_inv h'
        ∧ (clients h' = clients h ∨ clients h' = clients h ∖ {[c]})
        ∧ (clients h' = clients h ∖ {[c]} → close_log h' = close_log h ++ [c])
        ∧ (clients h' = clients h → close_log h' = close_log h).
Proof.
  intros Hinv Hc. destruct (inv_open h Hinv c Hc) as (ch & Hs & Hopen).
  unfold broadcast_one. rewrite Hs, Hopen.
  destruct (length (queue ch) <? cap ch)%nat eqn:Hfull.
  - eexists. split; [reflexivity |]. split; [| split; [by left | split; simpl; [| done]]].
    + replace false with (closed ch) by done. by apply hub_inv_queue.
    + intros Hcl. exfalso. simpl in Hcl. set_solver.
  - rewrite (close_open h c ch) by done.
    eexists. split; [reflexivity |]. unfold delete_client. simpl.
    split; [by apply hub_inv_close_delete |]. split; [by right |]. split; [done |].
    intros Hcl. exfalso. set_solver.
Qed.

Lemma broadcast_all_registered message order h :
  hub_inv h → NoDup order → (∀ c, c ∈ order → c ∈ clients h) →
  ∃ h', broadcast_all message order h = Ok h' ∧ hub_inv h'
        ∧ clients h' ⊆ clients h.
Proof.
  revert h. induction order as [| c rest IH]; intros h Hinv Hnd Hreg.
  - exists h. split; [done |]. split; [done |]. set_solver.
  - apply NoDup_cons in Hnd as [Hnotin Hnd].
    destruct (broadcast_one_registered message h c Hinv (Hreg c ltac:(left)))
      as (h1 & E1 & Hinv1 & Hcl & _).
    cbn [broadcast_all]. rewrite E1.
    destruct (IH h1 Hinv1 Hnd) as (h' & E' & Hinv' & Hsub).
    { intros c' Hc'. specialize (Hreg c' ltac:(by right)).
      destruct Hcl as [-> | ->]; [done |].
      apply elem_of_difference. split; [done |]. set_solver. }
    exists h'. split; [done |]. split; [done |].
    destruct Hcl as [Hcl | Hcl]; rewrite Hcl in Hsub; set_solver.
Qed.

Lemma act_preserves h a :
  hub_inv h → enabled h a → ∃ h', act h a = Ok h' ∧ hub_inv h'.
Proof.
  intros Hinv Hen. destruct a as [| c | message order | c]; simpl in *.
  - eexists. split; [reflexivity |].
    destruct Hinv as [Ho Hl Hn Ha].
    assert (send h !! next_client h = None) as Hfresh.
    { destruct (send h !! next_client h) eqn:E; [| done].
      specialize (Ha (next_client h) ltac:(eauto)). lia. }
    split; simpl.
    + intros c Hc. apply elem_of_union in Hc as [Hc | Hc].
      * destruct (Ho c Hc) as (ch & Hs & Hc').
        rewrite lookup_insert_ne by congruence. eauto.
      * apply elem_of_singleton in Hc as ->. rewrite lookup_insert_eq. eauto.
    + intros c. rewrite Hl. destruct (decide (c = next_client h)) as [-> | Hne].
      * rewrite lookup_insert_eq, Hfresh. naive_solver.
      * by rewrite lookup_insert_ne.
    + done.
    + intros c Hc. destruct (decide (c = next_client h)) as [-> | Hne]; [lia |].
      rewrite lookup_insert_ne in Hc by done. specialize (Ha c Hc). lia.
  - case_decide as Hc; [| eauto].
    destruct (inv_open h Hinv c Hc) as (ch & Hs & Hopen).
    rewrite (close_open (delete_client c h) c ch) by done.
    eexists. split; [reflexivity |]. simpl. by apply hub_inv_close_delete.
  - destruct (broadcast_all_registered message order h Hinv) as (h' & E & Hinv' & _).
    + rewrite Hen. apply NoDup_elements.
    + intros c Hc. rewrite Hen in Hc. by apply elem_of_elements in Hc.
    + eauto.
  - destruct (send h !! c) as [ch |] eqn:Hs; [| eauto].
    eexists. split; [reflexivity |]. by apply hub_inv_queue.
Qed.

Lemma reachable_inv h : reachable h → hub_inv h.
Proof.
  induction 1 as [| h a h' _ IH Hen Hact]; [apply hub_inv_new |].
  destruct (act_preserves h a IH Hen) as (h'' & E & Hinv). congruence.
Qed.


Lemma hub_one_client_reachable : reachable hub_one_client.
Proof.
  apply (reach_act NewHub Connect); [apply reach_new | exact I |].
  vm_compute. reflexivity.
Qed.


(** The fifth scenario of the specification, scaled to one message per
    broadcast: the client that never reads is evicted by the 257th
    broadcast, its channel closed once; when its [ReadPump] then exits,
    the hub does not change. *)
Example slow_client_evicted_once :
  match run NewHub slow_and_fast with
  | Ok h =>
      clients h = {[1%nat]} ∧ close_log h = [0%nat]
      ∧ act h (ReadPumpExit 0) = Ok h
  | Err _ => False
  end.
Proof. vm_compute. repeat split. Qed.

End hub.

(** * Further properties *)

(** ** Decimal numerals: signs and overflow *)

Lemma formatBits_head fuel u acc :
  (u < 2 ^ (N.of_nat fuel + 1))%N →
  ∃ d rest, (d < 10)%N
    ∧ strconv.formatBits fuel u acc = String (strconv.digit_char d) rest.
Proof.
  revert u acc. induction fuel as [| fuel IH]; intros u acc Hu.
  - change (2 ^ (N.of_nat 0 + 1))%N with 2%N in Hu.
    exists u, acc. split; [lia | reflexivity].
  - cbn [strconv.formatBits]. destruct (10 <=? u)%N eqn:E.
    + apply IH. apply N.Div0.div_lt_upper_bound.
      replace (N.of_nat (S fuel) + 1)%N with (N.succ (N.of_nat fuel + 1)) in Hu by lia.
      rewrite N.pow_succ_r' in Hu.
      set (X := (2 ^ (N.of_nat fuel + 1))%N) in *. lia.
    + apply N.leb_gt in E. exists u, acc. split; [lia | reflexivity].
Qed.

Lemma log2_fuel u : (u < 2 ^ (N.of_nat (N.to_nat (N.log2 u)) + 1))%N.
Proof.
  rewrite N2Nat.id. destruct (N.eq_dec u 0%N) as [-> | Hnz]; [done |].
  replace (N.log2 u + 1)%N with (N.succ (N.log2 u)) by lia.
  apply N.log2_spec. lia.
Qed.

Lemma digit_char_not_sign d c :
  (d < 10)%N → (N_of_ascii c < 48)%N → Ascii.eqb (strconv.digit_char d) c = false.
Proof.
  intros Hd Hc. apply Ascii.eqb_neq. intros Heq.
  apply (f_equal N_of_ascii) in Heq. unfold strconv.digit_char in Heq.
  rewrite N_ascii_embedding in Heq by lia. lia.
Qed.

(** Past the largest value of the bit size, [ParseUint] answers with that
    largest value (and a range error, which the callers here drop). *)
Lemma parse_formatBits_range (fuel : nat) (u maxVal : N) (acc : string) :
  (u < 2 ^ (N.of_nat fuel + 1))%N → (maxVal < u)%N → (maxVal < 2 ^ 64)%N →
  strconv.parse_loop (strconv.formatBits fuel u acc) 0 maxVal
  = (maxVal, Some strconv.ErrRange).
Proof.
  revert u acc. induction fuel as [| fuel IH]; intros u acc Hu Hm Hx.
  - change (2 ^ (N.of_nat 0 + 1))%N with 2%N in Hu.
    assert (u = 1%N ∧ maxVal = 0%N) as [-> ->] by lia. reflexivity.
  - cbn [strconv.formatBits].
    assert (∀ d n rest, (d < 10)%N → (maxVal < n * 10 + d)%N →
              strconv.parse_loop (String (strconv.digit_char d) rest) n maxVal
              = (maxVal, Some strconv.ErrRange)) as Hstep.
    { intros d n rest Hd Hn. cbn [strconv.parse_loop].
      rewrite digit_of_digit_char by done.
      destruct (strconv.cutoff <=? n)%N; [done |].
      replace (maxVal <? n * 10 + d)%N with true by (symmetry; apply N.ltb_lt; lia).
      by rewrite orb_true_r. }
    destruct (10 <=? u)%N eqn:E.
    + apply N.leb_le in E.
      assert (u / 10 < 2 ^ (N.of_nat fuel + 1))%N as Hdiv.
      { apply N.Div0.div_lt_upper_bound.
        replace (N.of_nat (S fuel) + 1)%N with (N.succ (N.of_nat fuel + 1)) in Hu by lia.
        rewrite N.pow_succ_r' in Hu.
        set (X := (2 ^ (N.of_nat fuel + 1))%N) in *. lia. }
      pose proof (N.Div0.div_mod u 10) as Hdm.
      pose proof (N.mod_lt u 10 ltac:(lia)) as Hmod.
      destruct (decide (maxVal < u / 10)%N) as [Hbig | Hsmall].
      * by apply IH.
      * rewrite parse_formatBits by (done || lia).
        apply Hstep; [done | lia].
    + apply N.leb_gt in E. apply Hstep; lia.
Qed.

Lemma ParseUint_FormatUint_range (u : N) (bitSize : N) :
  (2 ^ bitSize ≤ u)%N → (bitSize ≤ 64)%N →
  strconv.ParseUint (strconv.FormatUint u) bitSize
  = ((2 ^ bitSize - 1)%N, Some strconv.ErrRange).
Proof.
  intros Hu Hb. unfold strconv.ParseUint, strconv.FormatUint.
  pose proof (formatBits_not_empty (N.to_nat (N.log2 u)) u "") as Hne.
  destruct (strconv.formatBits (N.to_nat (N.log2 u)) u "") eqn:E; [done |].
  rewrite <- E.
  assert (2 ^ bitSize ≤ 2 ^ 64)%N by (apply N.pow_le_mono_r; lia).
  assert (0 < 2 ^ bitSize)%N by (apply N.neq_0_lt_0, N.pow_nonzero; lia).
  apply parse_formatBits_range; [apply log2_fuel | lia | lia].
Qed.

Lemma ParseUint_FormatUint_32 (u : N) :
  fst (strconv.ParseUint (strconv.FormatUint u) 32) = N.min u (2 ^ 32 - 1).
Proof.
  destruct (decide (u < 2 ^ 32)%N) as [Hlt | Hge].
  - rewrite ParseUint_FormatUint by (done || lia). simpl fst. lia.
  - rewrite ParseUint_FormatUint_range by lia. simpl fst. lia.
Qed.

Lemma Atoi_FormatUint (u : N) :
  (u < 2 ^ 63)%N → strconv.Atoi (strconv.FormatUint u) = (Z.of_N u, None).
Proof.
  intros Hu. unfold strconv.Atoi.
  destruct (formatBits_head (N.to_nat (N.log2 u)) u "" (log2_fuel u))
    as (d & rest & Hd & E).
  pose proof (ParseUint_FormatUint u 64 ltac:(lia) ltac:(lia)) as Hp.
  unfold strconv.FormatUint in *. rewrite E in *.
  rewrite !digit_char_not_sign by (done || (vm_compute; done)).
  cbn [orb negb andb]. rewrite Hp.
  replace (2 ^ 63 <=? u)%N with false by (symmetry; apply N.leb_gt; lia).
  reflexivity.
Qed.

Lemma Atoi_Itoa (z : Z) : in_int64 z → strconv.Atoi (strconv.Itoa z) = (z, None).
Proof.
  intros [Hlo Hhi]. unfold strconv.Itoa.
  destruct (z <? 0) eqn:E.
  - apply Z.ltb_lt in E. unfold strconv.Atoi.
    change (Ascii.eqb "-" "-") with true. change (Ascii.eqb "-" "+") with false.
    cbn [orb negb andb].
    rewrite ParseUint_FormatUint by lia.
    replace (2 ^ 63 <? Z.to_N (- z))%N with false by (symmetry; apply N.ltb_ge; lia).
    f_equal. lia.
  - apply Z.ltb_ge in E. rewrite Atoi_FormatUint by lia. f_equal. lia.
Qed.

(** A member names one user. *)
Lemma member_of_inj (a b : N) :
  (a < 2 ^ 64)%N → (b < 2 ^ 64)%N →
  repository.member_of a = repository.member_of b → a = b.
Proof.
  intros Ha Hb Heq.
  apply (f_equal (λ s, gostrings.TrimPrefix s "user:")) in Heq.
  rewrite !TrimPrefix_member_of in Heq.
  apply (f_equal (λ s, fst (strconv.ParseUint s 64))) in Heq.
  by rewrite !ParseUint_FormatUint in Heq by (done || lia).
Qed.

(** ** The attribute cache: what was cached is what is read *)

Lemma hash_set_user_fields (user : User.t) (old : gmap string string) :
  let h := hash_set [("id", strconv.FormatUint (User.ID user));
                     ("username", User.Username user);
                     ("rating", strconv.Itoa (User.Rating user))] old in
  h !! "id" = Some (strconv.FormatUint (User.ID user))
  ∧ h !! "username" = Some (User.Username user)
  ∧ h !! "rating" = Some (strconv.Itoa (User.Rating user))
  ∧ size h ≠ 0%nat.
Proof.
  intros h. subst h. unfold hash_set. simpl.
  repeat split.
  - rewrite !lookup_insert_ne by done. by rewrite lookup_insert_eq.
  - rewrite lookup_insert_ne by done. by rewrite lookup_insert_eq.
  - by rewrite lookup_insert_eq.
  - rewrite map_size_empty_iff. apply insert_non_empty.
Qed.

(** X1.  A user written to the attribute cache by [CacheUser] is read
    back by [GetCachedUser] under the same id with the same name and the
    same rating, whatever the hash held before; only an id past 32 bits
    comes back as 4294967295, the largest value [ParseUint(_, 10, 32)]
    gives.  (Both requests reach the store.) *)
Theorem CacheUser_then_GetCachedUser (w : World) (user : User.t) :
  fault w (calls w) = false → fault w (S (calls w)) = false →
  (User.ID user < 2 ^ 64)%N → in_int64 (User.Rating user) →
  fst (repository.CacheUser user w) = Ok tt
  ∧ fst (repository.GetCachedUser (User.ID user) (snd (repository.CacheUser user w)))
    = Ok (User.mk (N.min (User.ID user) (2 ^ 32 - 1))
            (User.Username user) (User.Rating user)).
Proof.
  intros F0 F1 Hid Hr.
  unfold repository.CacheUser, HSet. rewrite call_ok by done. cbn [fst snd].
  split; [reflexivity |].
  unfold repository.GetCachedUser, HGetAll. rewrite call_ok by done.
  cbn [hashes set_hashes set_calls]. rewrite lookup_insert_eq. cbn [default].
  destruct (hash_set_user_fields user (default ∅ (hashes w !! User.ID user)))
    as (Hi & Hu & Hg & Hs).
  rewrite decide_False by done. cbn [fst].
  unfold repository.field. unfold id in *. rewrite Hi, Hu, Hg. simpl.
  by rewrite ParseUint_FormatUint_32, Atoi_Itoa.
Qed.

Lemma CacheUser_then_GetCachedUser_witness :
  fst (repository.GetCachedUser 2 (snd (repository.CacheUser (User.mk 2 "bob" (-40)) arena)))
  = Ok (User.mk 2 "bob" (-40)).
Proof.
  apply (CacheUser_then_GetCachedUser arena (User.mk 2 "bob" (-40)));
    [reflexivity | reflexivity | reflexivity | unfold in_int64; simpl; lia].
Defined.

(** ** The sorted set under writes *)

Lemma count_above_member s (zs : gmap string Z) member :
  count_above s (map_to_list zs)
  = (above s (zs !! member) + count_above s (map_to_list (delete member zs)))%nat.
Proof.
  destruct (zs !! member) as [r |] eqn:E.
  - rewrite <- (insert_delete_id zs member r E) at 1.
    rewrite (count_above_perm _ _ _
               (map_to_list_insert (delete member zs) member r (lookup_delete_eq zs member))).
    by rewrite count_above_cons.
  - by rewrite delete_id.
Qed.

Lemma count_above_insert s (zs : gmap string Z) member r :
  count_above s (map_to_list (<[member := r]> zs))
  = (above s (Some r) + count_above s (map_to_list (delete member zs)))%nat.
Proof.
  rewrite (count_above_member s (<[member := r]> zs) member).
  by rewrite lookup_insert_eq, delete_insert_eq.
Qed.


Lemma GetLeaderboardSize_ok w :
  fault w (calls w) = false →
  repository.GetLeaderboardSize w
  = (Ok (Z.of_nat (size (zset w))), set_calls w (S (calls w))).
Proof. intros F. unfold repository.GetLeaderboardSize, ZCard. by rewrite call_ok. Qed.



Lemma GetUserRank_free w userID score :
  fault_free w → zset w !! repository.member_of userID = Some score →
  fst (repository.GetUserRank userID w)
  = Ok (1 + Z.of_nat (count_above score (map_to_list (zset w)))).
Proof.
  intros F Hm. rewrite (GetUserRank_present w userID score) by (done || apply F).
  cbn [fst]. f_equal. lia.
Qed.




Lemma RemoveUser_ok w userID :
  fault w (calls w) = false →
  repository.RemoveUser userID w
  = (Ok tt, set_zset (set_calls w (S (calls w)))
              (delete (repository.member_of userID) (zset w))).
Proof. intros F. unfold repository.RemoveUser, ZRem. by rewrite call_ok. Qed.

(** X4.  [RemoveUser] succeeds whether or not the user is in the sorted
    set.  Afterwards [GetUserRank] of that user fails with "user not found
    in leaderboard", the set has one member less if the user was there and
    is as large as before if not, and every other member keeps its rank or
    moves up by one place, the latter exactly when the removed user had a
    strictly greater score. *)
Theorem RemoveUser_then_rank_and_size (w : World) (userID : N) :
  fault_free w → (userID < 2 ^ 64)%N →
  let member := repository.member_of userID in
  let w1 := snd (repository.RemoveUser userID w) in
  fst (repository.RemoveUser userID w) = Ok tt
  ∧ fst (repository.GetUserRank userID w1)
    = Err (Errorf "user not found in leaderboard")
  ∧ fst (repository.GetLeaderboardSize w1)
    = Ok (Z.of_nat (size (zset w))
          - (if decide (is_Some (zset w !! member)) then 1 else 0))
  ∧ ∀ other score,
      (other < 2 ^ 64)%N → other ≠ userID →
      zset w !! repository.member_of other = Some score →
      ∃ before,
        fst (repository.GetUserRank other w) = Ok before
        ∧ fst (repository.GetUserRank other w1)
          = Ok (before - Z.of_nat (above score (zset w !! member))).
Proof.
  intros F Hu member w1. subst w1. rewrite RemoveUser_ok by apply F. cbn [fst snd].
  split; [done |]. split; [| split].
  - rewrite GetUserRank_absent; [done | | apply F].
    cbn [zset set_zset]. apply lookup_delete_eq.
  - rewrite GetLeaderboardSize_ok by apply F. cbn [fst zset set_zset set_calls].
    f_equal. fold member. case_decide as Hm.
    + destruct Hm as [old Hm]. rewrite <- (insert_delete_id (zset w) member old Hm) at 2.
      rewrite map_size_insert_None by apply lookup_delete_eq. lia.
    + rewrite delete_id by (by apply eq_None_not_Some). lia.
  - intros other score Ho Hne Hs.
    assert (member ≠ repository.member_of other) as Hm.
    { intros Heq. apply member_of_inj in Heq; done. }
    eexists. split; [by apply GetUserRank_free |].
    rewrite (GetUserRank_free _ other score); [| intros tick; apply F |].
    + cbn [zset set_zset set_calls]. f_equal.
      rewrite (count_above_member score (zset w) member). fold member. lia.
    + cbn [zset set_zset]. by rewrite lookup_delete_ne.
Qed.

Lemma RemoveUser_then_rank_and_size_witness :
  fst (repository.GetUserRank 1 (snd (repository.RemoveUser 1 seeded)))
  = Err (Errorf "user not found in leaderboard")
  ∧ fst (repository.GetUserRank 2 (snd (repository.RemoveUser 1 seeded))) = Ok 1.
Proof.
  destruct (RemoveUser_then_rank_and_size seeded 1
              ltac:(intros tick; reflexivity) ltac:(reflexivity))
    as (_ & Hgone & _ & Hothers).
  split; [exact Hgone |].
  destruct (Hothers 2%N 4900 ltac:(reflexivity) ltac:(discriminate) ltac:(reflexivity))
    as (before & Hb & Ha).
  rewrite Ha. vm_compute in Hb. injection Hb as <-. vm_compute. reflexivity.
Defined.

(** ** Ranks follow ratings *)




(** ** The users at one rating *)





(** Members of equal score come in the byte order of their names: user 10
    before user 9. *)
Example GetUsersByRating_in_member_order :
  fst (repository.GetUsersByRating 1500
         (snd (repository.AddUser 10 1500 (snd (repository.AddUser 9 1500 world0)))))
  = Ok [10%N; 9%N].
Proof. vm_compute. reflexivity. Qed.

(** ** The shape of the top list *)

Lemma count_above_at_most_index (results : list (string * Z)) i z :
  StronglySorted score_ge results → results !! i = Some z →
  (count_above z.2 results ≤ i)%nat.
Proof.
  intros Hs Hz. rewrite <- (take_drop i results) in Hs |- *.
  rewrite count_above_app.
  assert (count_above z.2 (drop i results) = 0%nat) as ->.
  { apply count_above_none.
    apply StronglySorted_app_1_r in Hs.
    rewrite (drop_S _ z) in Hs |- * by done.
    apply StronglySorted_inv in Hs as [_ Hz'].
    constructor; [simpl; lia |]. eapply Forall_impl; [exact Hz' | done]. }
  unfold count_above.
  pose proof (length_filter (λ p : string * Z, z.2 < p.2) (take i results)).
  rewrite length_take in *. lia.
Qed.

(** X7.  For a limit N > 0, [GetTopUsers] returns min(N, size of the set)
    entries, in descending order of rating; the rank of an entry is never
    greater than its position (counted from 1), so the first entry has
    rank 1.  It reads the store once and changes nothing. *)
Theorem GetTopUsers_returns_the_top (w : World) (limit : Z) :
  0 < limit < 2 ^ 63 → fault w (calls w) = false →
  ∃ entries,
    repository.GetTopUsers limit w = (Ok entries, set_calls w (S (calls w)))
    ∧ Z.of_nat (length entries) = Z.min limit (Z.of_nat (size (zset w)))
    ∧ StronglySorted
        (λ a b, LeaderboardEntry.Rating b ≤ LeaderboardEntry.Rating a) entries
    ∧ (∀ i e, entries !! i = Some e →
         1 ≤ LeaderboardEntry.Rank e ≤ Z.of_nat i + 1)
    ∧ (∀ e, head entries = Some e → LeaderboardEntry.Rank e = 1).
Proof.
  intros Hl F.
  destruct (repository.GetTopUsers limit w) as [[entries | e] w'] eqn:Hrun;
    [| rewrite GetTopUsers_ok in Hrun by done; discriminate].
  destruct (GetTopUsers_entries w limit entries w' Hl Hrun) as (-> & He & Hs).
  set (results := take (Z.to_nat limit) (zrev_all (zset w))) in *.
  assert (∀ i e, entries !! i = Some e →
            1 ≤ LeaderboardEntry.Rank e ≤ Z.of_nat i + 1) as Hrank.
  { intros i e Hi. rewrite He in Hi.
    apply list_lookup_fmap_Some in Hi as (z & -> & Hz). simpl.
    pose proof (count_above_at_most_index results i z Hs Hz). lia. }
  exists entries. split; [done |]. split; [| split; [| split; [done |]]].
  - rewrite He, length_fmap. unfold results.
    rewrite length_take, length_zrev_all. lia.
  - rewrite He. eapply StronglySorted_fmap; [| exact Hs].
    intros x y Hxy. exact Hxy.
  - intros e Hh. rewrite head_lookup in Hh. specialize (Hrank 0%nat e Hh). lia.
Qed.

Lemma GetTopUsers_returns_the_top_witness :
  ∃ entries,
    fst (repository.GetTopUsers 2 seeded) = Ok entries ∧ length entries = 2%nat.
Proof.
  destruct (GetTopUsers_returns_the_top seeded 2 ltac:(lia) ltac:(reflexivity))
    as (entries & Hrun & Hlen & _).
  exists entries. rewrite Hrun. split; [reflexivity |].
  change (size (zset seeded)) with 3%nat in Hlen. lia.
Defined.

(** ** The orchestrator: where it can fail, and where it cannot *)

Lemma UpdateUserScore_error
    (w : World) (userID : N) (requested : Z) (e : error) (w' : World) :
  service.UpdateUserScore userID requested w = (Err e, w') →
  only_calls w w'
  ∧ ((∃ cause, e = Errorf_w "user not found" cause)
     ∨ e = Errorf_w "failed to update Redis" (transport "redis")).
Proof.
  unfold service.UpdateUserScore, bind, catch.
  pose proof (load_user_only_calls w userID) as O1.
  destruct (service.load_user userID w) as [[user | e1] w1]; simpl in O1.
  2:{ intros [= <- <-]. split; [done |]. left. eauto. }
  destruct (rank_or_zero_spec w1 userID) as (oldRank & -> & _).
  pose proof (GetUserRank_only_calls w1 userID) as O2.
  set (w2 := snd (repository.GetUserRank userID w1)) in *.
  unfold repository.UpdateUserScore, repository.AddUser.
  destruct (ZAdd_cases w2 (repository.member_of userID) (service.clamp_rating requested))
    as [(_ & ->) | (_ & ->)].
  { intros [= <- <-]. split; [| by right].
    eapply only_calls_trans; [exact O1 |].
    eapply only_calls_trans; [exact O2 | apply only_calls_tick]. }
  unfold ignore_err at 1. cbn [snd].
  match goal with |- context [service.rank_or_zero userID ?x] =>
    destruct (rank_or_zero_spec x userID) as (newRank & -> & _) end.
  unfold time_Now, ignore_err, ret. discriminate.
Qed.

(** X8.  [UpdateUserScore] fails in two places only: the user is found
    neither in the cache nor in the cold store ("user not found"), or the
    write to the sorted set does not reach Redis ("failed to update
    Redis").  In both cases nothing has been written anywhere: the sorted
    set, the cache, the channel, the stream and the tables are as before. *)
Theorem UpdateUserScore_fails_before_any_write
    (w : World) (userID : N) (requested : Z) (e : error) (w' : World) :
  service.UpdateUserScore userID requested w = (Err e, w') →
  ((∃ cause, e = Errorf_w "user not found" cause)
   ∨ e = Errorf_w "failed to update Redis" (transport "redis"))
  ∧ zset w' = zset w ∧ hashes w' = hashes w
  ∧ channel w' = channel w ∧ stream w' = stream w
  ∧ users w' = users w ∧ score_updates w' = score_updates w
  ∧ only_calls w w'.
Proof.
  intros Hrun. destruct (UpdateUserScore_error _ _ _ _ _ Hrun) as [Ho He].
  destruct (only_calls_fields _ _ Ho) as (Hz & Hh & Hc & Hs & _ & Hu & Hsu & _).
  split; [exact He |]. by repeat split.
Qed.

(** The write to the sorted set is the request that fails. *)
Lemma UpdateUserScore_fails_before_any_write_witness :
  let w := set_fault arena (λ tick, Nat.eqb tick 3) in
  fst (service.UpdateUserScore 2 4950 w)
  = Err (Errorf_w "failed to update Redis" (transport "redis"))
  ∧ only_calls w (snd (service.UpdateUserScore 2 4950 w)).
Proof.
  intros w.
  destruct (service.UpdateUserScore 2 4950 w) as [[p | e] w'] eqn:E.
  - vm_compute in E. discriminate E.
  - destruct (UpdateUserScore_fails_before_any_write _ _ _ _ _ E) as (_ & Ho).
    split; [| apply Ho].
    vm_compute in E. by injection E as <- _.
Defined.

Lemma UpdateUserScore_once_written
    (w : World) (userID : N) (requested : Z) (user : User.t) (w1 : World) :
  service.load_user userID w = (Ok user, w1) →
  let w2 := snd (service.rank_or_zero userID w1) in
  fault w2 (calls w2) = false →
  ∃ payload w',
    service.UpdateUserScore userID requested w = (Ok payload, w')
    ∧ zset w' = <[repository.member_of userID := service.clamp_rating requested]> (zset w)
    ∧ ScoreUpdatePayload.OldRating payload = User.Rating user
    ∧ ScoreUpdatePayload.NewRating payload = service.clamp_rating requested.
Proof.
  intros Hload w2 F. subst w2.
  pose proof (load_user_only_calls w userID) as O1. rewrite Hload in O1. simpl in O1.
  unfold service.UpdateUserScore, bind, catch. rewrite Hload.
  destruct (rank_or_zero_spec w1 userID) as (oldRank & E2 & _).
  rewrite E2 in *. cbn [snd] in F.
  pose proof (GetUserRank_only_calls w1 userID) as O2.
  set (w2 := snd (repository.GetUserRank userID w1)) in *.
  unfold repository.UpdateUserScore, repository.AddUser.
  destruct (ZAdd_cases w2 (repository.member_of userID) (service.clamp_rating requested))
    as [(F' & _) | (_ & ->)]; [congruence |].
  unfold ignore_err at 1. cbn [snd].
  set (w3 := set_zset _ _).
  set (w4 := snd (repository.CacheUser _ w3)).
  assert (zset w4 = <[repository.member_of userID := service.clamp_rating requested]> (zset w))
    as Z4.
  { subst w4.
    destruct (only_calls_fields _ _ (only_calls_trans _ _ _ O1 O2)) as (Hz & _).
    match goal with |- context [repository.CacheUser ?u ?x] =>
      destruct (CacheUser_cases x u) as [(_ & ->) | ->] end;
      subst w3; simpl; by rewrite Hz. }
  destruct (rank_or_zero_spec w4 userID) as (newRank & -> & _).
  pose proof (GetUserRank_only_calls w4 userID) as O5.
  set (w5 := snd (repository.GetUserRank userID w4)) in *.
  destruct (only_calls_fields _ _ O5) as (Z5 & _).
  unfold time_Now, ignore_err, ret. cbn [snd].
  eexists _, _. split; [reflexivity |]. split; [| done].
  match goal with |- context [service.Publish ?p w5] =>
    destruct (Publish_cases w5 p) as [(_ & ->) | ->] end;
    match goal with |- context [service.EnqueueUpdate ?i ?x] =>
      destruct (EnqueueUpdate_cases x i) as [(_ & ->) | ->] end;
    simpl; by rewrite Z5, Z4.
Qed.

(** X9.  Once the user is loaded and the write to the sorted set reaches
    Redis, [UpdateUserScore] succeeds, whatever happens to the requests
    around it (the two rank lookups, the cache write, the publish and the
    enqueue may all fail): the sorted set then holds the clamped rating
    for the user, the event names the user and carries the old and the
    new rating, and its ranks are 0 (lookup failed) or positive. *)
Theorem UpdateUserScore_succeeds_once_written
    (w : World) (userID : N) (requested : Z) (user : User.t) (w1 : World) :
  service.load_user userID w = (Ok user, w1) →
  let w2 := snd (service.rank_or_zero userID w1) in
  fault w2 (calls w2) = false →
  ∃ payload w',
    service.UpdateUserScore userID requested w = (Ok payload, w')
    ∧ zset w' = <[repository.member_of userID := service.clamp_rating requested]> (zset w)
    ∧ ScoreUpdatePayload.UserID payload = userID
    ∧ ScoreUpdatePayload.OldRating payload = User.Rating user
    ∧ ScoreUpdatePayload.NewRating payload = service.clamp_rating requested
    ∧ 0 ≤ ScoreUpdatePayload.OldRank payload
    ∧ 0 ≤ ScoreUpdatePayload.NewRank payload.
Proof.
  intros Hload w2 F.
  destruct (UpdateUserScore_once_written w userID requested user w1 Hload F)
    as (payload & w' & Hrun & Hz & Ho & Hn).
  exists payload, w'. split; [exact Hrun |]. split; [exact Hz |].
  destruct (UpdateUserScore_stages _ _ _ _ _ Hrun)
    as (user' & oldRank & newRank & v1 & v2 & v3 & v4 & v5
        & _ & E2 & _ & _ & E5 & -> & _).
  destruct (rank_or_zero_spec v1 userID) as (r1 & E2' & Hr1 & _).
  destruct (rank_or_zero_spec v4 userID) as (r2 & E5' & Hr2 & _).
  rewrite E2 in E2'. rewrite E5 in E5'.
  injection E2' as -> _. injection E5' as -> _.
  simpl in *. repeat split; (done || lia).
Qed.

(** Every request after the write to the sorted set fails, and the update
    still succeeds, with new rank 0. *)
Lemma UpdateUserScore_succeeds_once_written_witness :
  let w := set_fault arena (λ tick, Nat.leb 4 tick) in
  ∃ payload w',
    service.UpdateUserScore 2 4950 w = (Ok payload, w')
    ∧ zset w' = <[repository.member_of 2 := 4950]> (zset w)
    ∧ ScoreUpdatePayload.NewRank payload = 0.
Proof.
  intros w.
  destruct (UpdateUserScore_succeeds_once_written w 2 4950 bob (set_calls w 1)
              ltac:(reflexivity) ltac:(reflexivity))
    as (payload & w' & Hrun & Hz & _).
  exists payload, w'. split; [exact Hrun |]. split; [exact Hz |].
  vm_compute in Hrun. by injection Hrun as <- _.
Defined.

(** ** The orchestrator when every request is answered *)

Lemma fault_free_only_calls w w' : only_calls w w' → fault_free w → fault_free w'.
Proof. intros -> F tick. apply F. Qed.

Lemma rank_or_zero_free w userID :
  fault_free w →
  service.rank_or_zero userID w
  = (Ok (match zset w !! repository.member_of userID with
         | Some score => 1 + Z.of_nat (count_above score (map_to_list (zset w)))
         | None => 0
         end),
     snd (repository.GetUserRank userID w)).
Proof.
  intros F. unfold service.rank_or_zero, catch.
  destruct (zset w !! repository.member_of userID) as [score |] eqn:E.
  - rewrite (GetUserRank_present w userID score) by (done || apply F).
    cbn [snd]. do 2 f_equal. lia.
  - by rewrite GetUserRank_absent by (done || apply F).
Qed.

(** What an update does when no request fails. *)
Lemma UpdateUserScore_free w userID requested user w1 :
  fault_free w →
  service.load_user userID w = (Ok user, w1) →
  let rating := service.clamp_rating requested in
  let member := repository.member_of userID in
  ∃ payload w',
    service.UpdateUserScore userID requested w = (Ok payload, w')
    ∧ ScoreUpdatePayload.OldRank payload
      = match zset w !! member with
        | Some score => 1 + Z.of_nat (count_above score (map_to_list (zset w)))
        | None => 0
        end
    ∧ ScoreUpdatePayload.NewRank payload
      = 1 + Z.of_nat (count_above rating (map_to_list (delete member (zset w))))
    ∧ ScoreUpdatePayload.RankDelta payload
      = int_sub (ScoreUpdatePayload.OldRank payload) (ScoreUpdatePayload.NewRank payload)
    ∧ ScoreUpdatePayload.Username payload = User.Username user
    ∧ ScoreUpdatePayload.OldRating payload = User.Rating user
    ∧ ScoreUpdatePayload.NewRating payload = rating
    ∧ zset w' = <[member := rating]> (zset w)
    ∧ hashes w'
      = <[User.ID user :=
            hash_set [("id", strconv.FormatUint (User.ID user));
                      ("username", User.Username user);
                      ("rating", strconv.Itoa rating)]
              (default ∅ (hashes w !! User.ID user))]> (hashes w)
    ∧ users w' = users w
    ∧ fault_free w'
    ∧ channel w' = channel w ++ [payload]
    ∧ stream w'
      = stream w ++ [(S (stream_last_id w),
                      json_of (DBSyncQueueItem.mk userID (User.Rating user) rating (now w)))]
    ∧ stream_last_id w' = S (stream_last_id w)
    ∧ ScoreUpdatePayload.RatingDelta payload = int_sub rating (User.Rating user).
Proof.
  intros F Hload rating member.
  pose proof (load_user_only_calls w userID) as O1. rewrite Hload in O1. simpl in O1.
  pose proof (fault_free_only_calls _ _ O1 F) as F1.
  pose proof (GetUserRank_only_calls w1 userID) as O2.
  destruct (UpdateUserScore_once_written w userID requested user w1 Hload)
    as (payload & w' & Hrun & _).
  { rewrite rank_or_zero_free by done. cbn [snd].
    apply (fault_free_only_calls _ _ O2 F1). }
  exists payload, w'. split; [exact Hrun |].
  destruct (UpdateUserScore_stages _ _ _ _ _ Hrun)
    as (user' & oldRank & newRank & w1' & w2 & w3 & w4 & w5
        & E1 & E2 & E3 & E4 & E5 & Ep & Ef).
  rewrite Hload in E1. injection E1 as <- <-.
  rewrite rank_or_zero_free in E2 by done. injection E2 as <- <-.
  destruct (only_calls_fields _ _ O1) as (Z1 & H1 & C1 & S1 & L1 & U1 & _ & _ & N1).
  set (w2 := snd (repository.GetUserRank userID w1)) in *.
  pose proof (fault_free_only_calls _ _ O2 F1) as F2.
  destruct (only_calls_fields _ _ O2) as (Z2 & H2 & C2 & S2 & L2 & U2 & _ & _ & N2).
  fold rating member in E3, E4, Ep, Ef.
  destruct (ZAdd_cases w2 member rating) as [(F' & _) | (_ & E3')];
    [rewrite F2 in F'; discriminate |].
  rewrite E3 in E3'. injection E3' as ->.
  destruct (CacheUser_cases
              (set_zset (set_calls w2 (S (calls w2))) (<[member := rating]> (zset w2)))
              (User.mk (User.ID user) (User.Username user) rating))
    as [(F' & _) | E4']; [simpl in F'; rewrite F2 in F'; discriminate |].
  rewrite E4' in E4. simpl in E4.
  assert (fault_free w4) as F4 by (subst w4; intros tick; apply F2).
  assert (zset w4 = <[member := rating]> (zset w)) as Z4
    by (subst w4; simpl; by rewrite Z2, Z1).
  rewrite rank_or_zero_free in E5 by done.
  rewrite Z4, lookup_insert_eq, count_above_insert in E5.
  simpl above in E5. rewrite bool_decide_false in E5 by lia.
  injection E5 as <- <-.
  pose proof (GetUserRank_only_calls w4 userID) as O5.
  set (w5 := snd (repository.GetUserRank userID w4)) in *.
  pose proof (fault_free_only_calls _ _ O5 F4) as F5.
  destruct (only_calls_fields _ _ O5) as (Z5 & H5 & C5 & S5 & L5 & U5 & _ & _ & N5).
  destruct (Publish_cases w5 payload) as [(F' & _) | E6];
    [rewrite F5 in F'; discriminate |].
  rewrite E6 in Ef.
  match type of Ef with context [service.EnqueueUpdate ?i ?x] =>
    destruct (EnqueueUpdate_cases x i) as [(F' & _) | E7];
      [simpl in F'; rewrite F5 in F'; discriminate |] end.
  rewrite E7 in Ef.
  rewrite Ep. cbn [ScoreUpdatePayload.OldRank ScoreUpdatePayload.NewRank
                   ScoreUpdatePayload.RankDelta ScoreUpdatePayload.Username
                   ScoreUpdatePayload.OldRating ScoreUpdatePayload.NewRating
                   ScoreUpdatePayload.RatingDelta].
  rewrite Z1. split; [done |]. split; [f_equal; lia |]. split; [done |].
  split; [done |]. split; [done |]. split; [done |].
  subst w'. simpl. rewrite Z5, Z4, H5, U5, C5, S5, L5, N5. subst w4. simpl.
  rewrite H2, H1, U2, U1, C2, C1, S2, S1, L2, L1, N2, N1. repeat split; try done.
  do 2 f_equal. rewrite Ep, N5. simpl. by rewrite N2, N1, Z1.
Qed.

Lemma GetCachedUser_cached w userID user old :
  fault w (calls w) = false →
  hashes w !! userID
  = Some (hash_set [("id", strconv.FormatUint (User.ID user));
                    ("username", User.Username user);
                    ("rating", strconv.Itoa (User.Rating user))] old) →
  in_int64 (User.Rating user) →
  repository.GetCachedUser userID w
  = (Ok (User.mk (N.min (User.ID user) (2 ^ 32 - 1))
           (User.Username user) (User.Rating user)),
     set_calls w (S (calls w))).
Proof.
  intros F Hh Hr.
  destruct (hash_set_user_fields user old) as (Hi & Hu & Hg & Hs).
  rewrite (surjective_pairing (repository.GetCachedUser userID w)).
  rewrite GetCachedUser_state. f_equal.
  rewrite (GetCachedUser_hit w userID _ F Hh).
  - unfold repository.field. rewrite Hi, Hu, Hg. simpl.
    by rewrite ParseUint_FormatUint_32, Atoi_Itoa.
  - intros He. rewrite He in Hs. by rewrite map_size_empty in Hs.
Qed.

Lemma clamp_rating_int64 requested : in_int64 (service.clamp_rating requested).
Proof.
  destruct (clamp_rating_range requested) as (H & _). unfold in_int64. lia.
Qed.

(** X10.  A user known to the cache or the cold store but not yet in the
    sorted set ("first time in leaderboard") is given old rank 0; the new
    rank is one plus the number of members above the clamped rating, and
    the rank delta of the event is minus the new rank, a negative number,
    although the user has only entered the ranking.  Afterwards the user
    is a member of the sorted set. *)
Theorem UpdateUserScore_first_time_in_leaderboard
    (w : World) (userID : N) (requested : Z) (user : User.t) (w1 : World) :
  fault_free w →
  service.load_user userID w = (Ok user, w1) →
  zset w !! repository.member_of userID = None →
  Z.of_nat (size (zset w)) < 2 ^ 62 →
  ∃ payload w',
    service.UpdateUserScore userID requested w = (Ok payload, w')
    ∧ ScoreUpdatePayload.OldRank payload = 0
    ∧ ScoreUpdatePayload.NewRank payload
      = 1 + Z.of_nat (count_above (service.clamp_rating requested)
                        (map_to_list (zset w)))
    ∧ ScoreUpdatePayload.RankDelta payload = - ScoreUpdatePayload.NewRank payload
    ∧ ScoreUpdatePayload.RankDelta payload < 0
    ∧ zset w' !! repository.member_of userID = Some (service.clamp_rating requested).
Proof.
  intros F Hload Hnew Hsize.
  destruct (UpdateUserScore_free w userID requested user w1 F Hload)
    as (payload & w' & Hrun & Hold & Hnewr & Hdelta & _ & _ & _ & Hz & _).
  rewrite Hnew in Hold. rewrite delete_id in Hnewr by done.
  exists payload, w'. split; [done |]. split; [done |]. split; [done |].
  pose proof (count_above_le_size (service.clamp_rating requested) (zset w)) as Hc.
  rewrite Hdelta, Hold, int_sub_exact by (unfold in_int64; lia).
  split; [lia |]. split; [lia |].
  by rewrite Hz, lookup_insert_eq.
Qed.

Lemma UpdateUserScore_first_time_in_leaderboard_witness :
  let w := set_tables arena (<[9%N := User.mk 9 "dave" 1500]> (users arena)) [] in
  ∃ payload w',
    service.UpdateUserScore 9 4950 w = (Ok payload, w')
    ∧ ScoreUpdatePayload.OldRank payload = 0
    ∧ ScoreUpdatePayload.NewRank payload = 2
    ∧ ScoreUpdatePayload.RankDelta payload = -2.
Proof.
  intros w.
  destruct (UpdateUserScore_first_time_in_leaderboard w 9 4950
              (User.mk 9 "dave" 1500) (set_calls w 2)
              ltac:(intros tick; reflexivity) ltac:(reflexivity) ltac:(reflexivity)
              ltac:(vm_compute; reflexivity))
    as (payload & w' & Hrun & Hold & Hnew & Hdelta & _).
  exists payload, w'. split; [exact Hrun |]. split; [exact Hold |].
  assert (ScoreUpdatePayload.NewRank payload = 2) as H2
    by (rewrite Hnew; vm_compute; reflexivity).
  split; [exact H2 |]. rewrite Hdelta, H2. reflexivity.
Defined.

(** X11.  When no request fails, the event of an update describes the
    state the update leaves behind: [GetUserRank] of the user returns the
    event's new rank, the cache returns the user with the event's new
    rating, and the next update of the same user starts from there (its
    old rating and old rank are this event's new rating and new rank). *)
Theorem UpdateUserScore_event_matches_state
    (w : World) (userID : N) (requested : Z) (user : User.t) (w1 : World) :
  fault_free w →
  service.load_user userID w = (Ok user, w1) →
  User.ID user = userID → (userID < 2 ^ 32)%N →
  ∃ payload w',
    service.UpdateUserScore userID requested w = (Ok payload, w')
    ∧ fst (repository.GetUserRank userID w') = Ok (ScoreUpdatePayload.NewRank payload)
    ∧ fst (repository.GetCachedUser userID w')
      = Ok (User.mk userID (ScoreUpdatePayload.Username payload)
              (ScoreUpdatePayload.NewRating payload))
    ∧ ∀ requested2, ∃ payload2,
        fst (service.UpdateUserScore userID requested2 w') = Ok payload2
        ∧ ScoreUpdatePayload.OldRating payload2 = ScoreUpdatePayload.NewRating payload
        ∧ ScoreUpdatePayload.OldRank payload2 = ScoreUpdatePayload.NewRank payload.
Proof.
  intros F Hload Hid Hu.
  destruct (UpdateUserScore_free w userID requested user w1 F Hload)
    as (payload & w' & Hrun & _ & Hnewr & _ & Hname & _ & Hrating & Hz & Hh & _ & F' & _).
  set (rating := service.clamp_rating requested) in *.
  set (member := repository.member_of userID) in *.
  exists payload, w'. split; [done |].
  assert (fst (repository.GetUserRank userID w') = Ok (ScoreUpdatePayload.NewRank payload))
    as Hrank.
  { rewrite (GetUserRank_free w' userID rating F')
      by (fold member; by rewrite Hz, lookup_insert_eq).
    rewrite Hz, Hnewr. fold member. rewrite count_above_insert.
    simpl. rewrite bool_decide_false by lia. done. }
  assert (repository.GetCachedUser userID w'
          = (Ok (User.mk userID (ScoreUpdatePayload.Username payload)
                   (ScoreUpdatePayload.NewRating payload)),
             set_calls w' (S (calls w')))) as Hcache.
  { rewrite (GetCachedUser_cached w' userID
               (User.mk userID (User.Username user) rating)
               (default ∅ (hashes w !! userID))).
    - simpl. rewrite Hname, Hrating. do 3 f_equal. lia.
    - apply F'.
    - rewrite Hh, Hid. by rewrite lookup_insert_eq.
    - apply clamp_rating_int64. }
  split; [done |]. split; [by rewrite Hcache |].
  intros requested2.
  destruct (UpdateUserScore_free w' userID requested2
              (User.mk userID (ScoreUpdatePayload.Username payload)
                 (ScoreUpdatePayload.NewRating payload))
              (set_calls w' (S (calls w'))) F')
    as (payload2 & w2 & Hrun2 & Hold2 & _ & _ & _ & Hor2 & _).
  { unfold service.load_user, catch. by rewrite Hcache. }
  exists payload2. rewrite Hrun2. split; [done |]. split; [done |].
  rewrite Hold2. fold member. rewrite Hz, lookup_insert_eq, Hnewr.
  rewrite count_above_insert. simpl. rewrite bool_decide_false by lia. done.
Qed.

Lemma UpdateUserScore_event_matches_state_witness :
  ∃ payload w',
    service.UpdateUserScore 3 5100 arena = (Ok payload, w')
    ∧ fst (repository.GetUserRank 3 w') = Ok (ScoreUpdatePayload.NewRank payload)
    ∧ fst (repository.GetCachedUser 3 w')
      = Ok (User.mk 3 (ScoreUpdatePayload.Username payload)
              (ScoreUpdatePayload.NewRating payload)).
Proof.
  destruct (UpdateUserScore_event_matches_state arena 3 5100 carol (set_calls arena 1)
              ltac:(intros tick; reflexivity) ltac:(reflexivity) ltac:(reflexivity)
              ltac:(reflexivity))
    as (payload & w' & Hrun & Hrank & Hcache & _).
  exists payload, w'. auto.
Defined.

(** ** The same update twice *)

Lemma int_sub_diag a : int_sub a a = 0.
Proof. unfold int_sub. rewrite Z.sub_diag. reflexivity. Qed.

(** X12.  Repeating an update changes nothing in the ranking: when no
    request fails, the second of two equal updates of a user returns an
    event with old rating and old rank equal to the new ones of the first
    and both deltas 0, and leaves the sorted set as the first left it;
    yet it is published and enqueued for the cold store like any other. *)
Theorem UpdateUserScore_twice_gives_a_null_event
    (w : World) (userID : N) (requested : Z) (user : User.t) (w1 : World) :
  fault_free w →
  service.load_user userID w = (Ok user, w1) →
  User.ID user = userID → (userID < 2 ^ 32)%N →
  ∃ first w' second w'',
    service.UpdateUserScore userID requested w = (Ok first, w')
    ∧ service.UpdateUserScore userID requested w' = (Ok second, w'')
    ∧ ScoreUpdatePayload.OldRating second = ScoreUpdatePayload.NewRating first
    ∧ ScoreUpdatePayload.OldRank second = ScoreUpdatePayload.NewRank first
    ∧ ScoreUpdatePayload.NewRank second = ScoreUpdatePayload.NewRank first
    ∧ ScoreUpdatePayload.RatingDelta second = 0
    ∧ ScoreUpdatePayload.RankDelta second = 0
    ∧ zset w'' = zset w'
    ∧ channel w'' = channel w' ++ [second]
    ∧ length (stream w'') = S (length (stream w')).
Proof.
  intros F Hload Hid Hu.
  destruct (UpdateUserScore_free w userID requested user w1 F Hload)
    as (first & w' & Hrun & _ & Hnewr & _ & Hname & _ & Hrating & Hz & Hh & _ & F' & _).
  set (rating := service.clamp_rating requested) in *.
  set (member := repository.member_of userID) in *.
  assert (service.load_user userID w'
          = (Ok (User.mk userID (User.Username user) rating),
             set_calls w' (S (calls w')))) as Hload2.
  { unfold service.load_user, catch.
    rewrite (GetCachedUser_cached w' userID
               (User.mk userID (User.Username user) rating)
               (default ∅ (hashes w !! userID))).
    - simpl. do 3 f_equal. lia.
    - apply F'.
    - rewrite Hh, Hid. by rewrite lookup_insert_eq.
    - apply clamp_rating_int64. }
  destruct (UpdateUserScore_free w' userID requested _ _ F' Hload2)
    as (second & w'' & Hrun2 & Hold2 & Hnew2 & Hdelta2 & _ & Hor2 & _ & Hz2 & _ & _ & _
        & Hc2 & Hs2 & _ & Hrd2).
  fold rating member in Hold2, Hnew2, Hz2, Hs2, Hrd2.
  simpl in Hor2, Hrd2.
  rewrite Hz, lookup_insert_eq, count_above_insert in Hold2.
  simpl above in Hold2. rewrite bool_decide_false in Hold2 by lia.
  rewrite Hz, delete_insert_eq in Hnew2.
  assert (ScoreUpdatePayload.OldRank second = ScoreUpdatePayload.NewRank first) as Ho
    by (rewrite Hold2, Hnewr; lia).
  assert (ScoreUpdatePayload.NewRank second = ScoreUpdatePayload.NewRank first) as Hn
    by (by rewrite Hnew2, Hnewr).
  exists first, w', second, w''.
  split; [done |]. split; [done |]. split; [by rewrite Hor2, Hrating |].
  split; [done |]. split; [done |]. split; [by rewrite Hrd2, int_sub_diag |].
  split; [by rewrite Hdelta2, Ho, Hn, int_sub_diag |].
  split; [by rewrite Hz2, Hz, insert_insert_eq |].
  split; [done |]. rewrite Hs2, length_app. simpl. lia.
Qed.

Lemma UpdateUserScore_twice_gives_a_null_event_witness :
  ∃ first w' second w'',
    service.UpdateUserScore 3 5100 arena = (Ok first, w')
    ∧ service.UpdateUserScore 3 5100 w' = (Ok second, w'')
    ∧ ScoreUpdatePayload.RatingDelta second = 0
    ∧ ScoreUpdatePayload.RankDelta second = 0.
Proof.
  destruct (UpdateUserScore_twice_gives_a_null_event arena 3 5100 carol (set_calls arena 1)
              ltac:(intros tick; reflexivity) ltac:(reflexivity) ltac:(reflexivity)
              ltac:(reflexivity))
    as (first & w' & second & w'' & H1 & H2 & _ & _ & _ & Hr & Hk & _).
  exists first, w', second, w''. auto.
Defined.

(** ** The hot path and the cold store *)

Lemma only_calls_redis w w' : only_calls w w' → only_redis w w'.
Proof. intros ->. by repeat split. Qed.

Lemma only_redis_trans w1 w2 w3 :
  only_redis w1 w2 → only_redis w2 w3 → only_redis w1 w3.
Proof.
  unfold only_redis. intros (A1 & A2 & A3 & A4 & A5) (B1 & B2 & B3 & B4 & B5).
  repeat split; congruence.
Qed.

Lemma UpdateUserScore_run w userID requested :
  let rating := service.clamp_rating requested in
  match service.UpdateUserScore userID requested w with
  | (Ok payload, w') =>
      zset w' = <[repository.member_of userID := rating]> (zset w)
      ∧ only_redis w w'
  | (Err _, w') => only_calls w w'
  end.
Proof.
  intros rating.
  destruct (service.UpdateUserScore userID requested w) as [[payload | e] w'] eqn:E;
    [| by apply UpdateUserScore_error in E as [Ho _]].
  destruct (UpdateUserScore_stages _ _ _ _ _ E)
    as (user & oldRank & newRank & w1 & w2 & w3 & w4 & w5
        & E1 & E2 & E3 & E4 & E5 & Ep & Ef).
  fold rating in E3, E4, Ep, Ef.
  pose proof (load_user_only_calls w userID) as O1. rewrite E1 in O1. simpl in O1.
  destruct (rank_or_zero_spec w1 userID) as (r & E2' & _).
  rewrite E2 in E2'. injection E2' as <- ->.
  pose proof (GetUserRank_only_calls w1 userID) as O2.
  set (w2 := snd (repository.GetUserRank userID w1)) in *.
  pose proof (only_calls_trans _ _ _ O1 O2) as O12.
  destruct (only_calls_fields _ _ O12) as (Z2 & _).
  destruct (ZAdd_cases w2 (repository.member_of userID) rating)
    as [(_ & E3') | (_ & E3')]; rewrite E3 in E3'; [discriminate |].
  injection E3' as ->.
  assert (zset w4 = <[repository.member_of userID := rating]> (zset w)
          ∧ only_redis w w4) as [Z4 R4].
  { subst w4.
    match goal with |- context [repository.CacheUser ?u ?x] =>
      destruct (CacheUser_cases x u) as [(_ & ->) | ->] end;
      (split; [simpl; by rewrite Z2 |]);
      (eapply only_redis_trans; [apply only_calls_redis, O12 | by repeat split]). }
  destruct (rank_or_zero_spec w4 userID) as (r & E5' & _).
  rewrite E5 in E5'. injection E5' as <- ->.
  pose proof (GetUserRank_only_calls w4 userID) as O5.
  set (w5 := snd (repository.GetUserRank userID w4)) in *.
  destruct (only_calls_fields _ _ O5) as (Z5 & _).
  assert (only_redis w w5) as R5
    by (eapply only_redis_trans; [exact R4 | by apply only_calls_redis]).
  subst w'.
  destruct (Publish_cases w5 payload) as [(_ & ->) | ->];
    match goal with |- context [service.EnqueueUpdate ?i ?x] =>
      destruct (EnqueueUpdate_cases x i) as [(_ & ->) | ->] end;
    (split; [simpl; by rewrite Z5, Z4 |]);
    (eapply only_redis_trans; [exact R5 | by repeat split]).
Qed.

(** X13.  [UpdateUserScore] is Redis-only: whether it succeeds or fails,
    and whichever of its requests fail, the tables [users] and
    [score_updates] of the cold store are after it as they were before,
    and so is the consumer group of the stream; the cold store changes
    only when the worker runs. *)
Theorem UpdateUserScore_never_writes_the_cold_store
    (w : World) (userID : N) (requested : Z) :
  let w' := snd (service.UpdateUserScore userID requested w) in
  users w' = users w
  ∧ score_updates w' = score_updates w
  ∧ group_last_delivered w' = group_last_delivered w
  ∧ group_pel w' = group_pel w.
Proof.
  intros w'. subst w'. pose proof (UpdateUserScore_run w userID requested) as H.
  destruct (service.UpdateUserScore userID requested w) as [[payload | e] w'].
  - destruct H as (_ & A & B & C & D & _). by repeat split.
  - apply only_calls_redis in H as (A & B & C & D & _). by repeat split.
Qed.

(** ** The simulator *)

Lemma simulated_rating_value intn :
  0 ≤ intn < 201 → simulator.simulated_rating intn = 1400 + intn.
Proof.
  intros H. unfold simulator.simulated_rating, int_sub, int_add.
  rewrite (wrap64_id (intn - 100)) by (unfold in_int64; lia).
  rewrite wrap64_id by (unfold in_int64; lia).
  replace (1500 + (intn - 100) <? 100) with false by (symmetry; apply Z.ltb_ge; lia).
  replace (5000 <? 1500 + (intn - 100)) with false by (symmetry; apply Z.ltb_ge; lia).
  lia.
Qed.

(** X14.  One tick of the simulator asks for the rating 1400 + n, where n
    in 0..200 is the number drawn: always between 1400 and 1600, whatever
    rating the user has (its two bound checks never act, and so neither
    does the clamp of the service).  The sorted set is then either
    unchanged (no user could be drawn, or the update failed) or holds
    that rating for one user, who is a row of the [users] table.  The
    tables themselves are not written. *)
Theorem simulator_writes_ratings_near_1500 (w : World) (pick : nat) (intn : Z) :
  0 ≤ intn < 201 →
  let w' := simulator.simulateScoreUpdate pick intn w in
  simulator.simulated_rating intn = 1400 + intn
  ∧ service.clamp_rating (simulator.simulated_rating intn) = 1400 + intn
  ∧ (zset w' = zset w
     ∨ ∃ userID, is_Some (users w !! userID)
                 ∧ zset w' = <[repository.member_of userID := 1400 + intn]> (zset w))
  ∧ users w' = users w ∧ score_updates w' = score_updates w.
Proof.
  intros Hn w'. subst w'.
  pose proof (simulated_rating_value intn Hn) as Hv.
  assert (service.clamp_rating (simulator.simulated_rating intn) = 1400 + intn) as Hc.
  { rewrite Hv. destruct (clamp_rating_range (1400 + intn)) as (_ & _ & _ & H).
    apply H. lia. }
  split; [done |]. split; [done |].
  unfold simulator.simulateScoreUpdate, simulator.GetRandomUserID, db_RandomID, call.
  destruct (fault w (calls w)); [simpl; auto |].
  cbn [users set_calls].
  destruct ((map_to_list (users w)).*1 !! (pick mod length (map_to_list (users w)).*1)%nat)
    as [userID |] eqn:Hpick; [| simpl; auto].
  assert (is_Some (users w !! userID)) as Hrow.
  { apply list_elem_of_lookup_2, list_elem_of_fmap in Hpick as ([k u] & -> & Hin).
    apply elem_of_map_to_list in Hin. eauto. }
  pose proof (UpdateUserScore_run (set_calls w (S (calls w))) userID
                (simulator.simulated_rating intn)) as Hrun.
  destruct (service.UpdateUserScore userID (simulator.simulated_rating intn)
              (set_calls w (S (calls w)))) as [[payload | e] w'].
  - cbv zeta in Hrun. rewrite Hc in Hrun. destruct Hrun as (Hz & Hu & Hs & _).
    simpl in *. split; [right; eauto | done].
  - apply only_calls_fields in Hrun as (Hz & _ & _ & _ & _ & Hu & Hs & _).
    simpl in *. auto.
Qed.

Lemma simulator_writes_ratings_near_1500_witness :
  let w' := simulator.simulateScoreUpdate 0 137 arena in
  ∃ userID, zset w' = <[repository.member_of userID := 1537]> (zset arena).
Proof.
  intros w'.
  destruct (simulator_writes_ratings_near_1500 arena 0 137 ltac:(lia))
    as (_ & _ & [Hsame | (userID & _ & Hz)] & _).
  - exfalso. apply (f_equal (λ zs, size (filter (λ p, p.2 = 1537) zs))) in Hsame.
    vm_compute in Hsame. discriminate Hsame.
  - exists userID. exact Hz.
Defined.

(** ** Putting a user on the board *)



(** ** The leaderboard with names *)

Lemma only_cache_refl w : only_cache w w.
Proof. unfold only_cache. by destruct w. Qed.

Lemma only_cache_trans w1 w2 w3 :
  only_cache w1 w2 → only_cache w2 w3 → only_cache w1 w3.
Proof. unfold only_cache. intros -> ->. reflexivity. Qed.

Lemma only_calls_cache w w' : only_calls w w' → only_cache w w'.
Proof. unfold only_calls, only_cache. intros ->. by destruct w. Qed.

Lemma CacheUser_only_cache w user : only_cache w (snd (repository.CacheUser user w)).
Proof.
  destruct (CacheUser_cases w user) as [(_ & ->) | ->]; unfold only_cache;
    by destruct w.
Qed.

Lemma hydrate_spec e w :
  ∃ e' w', service.hydrate e w = (Ok e', w')
    ∧ same_place e e' ∧ only_cache w w'.
Proof.
  unfold service.hydrate.
  pose proof (GetCachedUser_only_calls w (LeaderboardEntry.UserID e)) as O1.
  destruct (repository.GetCachedUser (LeaderboardEntry.UserID e) w) as [[u | err] w1];
    simpl in O1.
  { eexists _, _. split; [reflexivity |]. split; [done | by apply only_calls_cache]. }
  destruct (GetByID_cases w1 (LeaderboardEntry.UserID e))
    as [(_ & ->) | [(_ & _ & ->) | (u & _ & _ & ->)]].
  - eexists _, _. split; [reflexivity |]. split; [done |].
    apply only_calls_cache. eapply only_calls_trans; [exact O1 | apply only_calls_tick].
  - eexists _, _. split; [reflexivity |]. split; [done |].
    apply only_calls_cache. eapply only_calls_trans; [exact O1 | apply only_calls_tick].
  - eexists _, _. split; [reflexivity |]. split; [done |].
    eapply only_cache_trans; [| apply CacheUser_only_cache].
    apply only_calls_cache. eapply only_calls_trans; [exact O1 | apply only_calls_tick].
Qed.

Lemma hydrate_all_spec entries w :
  ∃ entries' w', service.hydrate_all entries w = (Ok entries', w')
    ∧ Forall2 same_place entries entries' ∧ only_cache w w'.
Proof.
  revert w. induction entries as [| e rest IH]; intros w.
  - exists [], w. split; [done |]. split; [constructor | apply only_cache_refl].
  - cbn [service.hydrate_all]. unfold bind.
    destruct (hydrate_spec e w) as (e' & w1 & -> & Hp & O1).
    destruct (IH w1) as (rest' & w2 & -> & Hrest & O2).
    eexists _, _. split; [reflexivity |]. split; [by constructor |].
    by eapply only_cache_trans.
Qed.

Lemma GetLeaderboard_run (w : World) (limit : Z) :
  match service.GetLeaderboard limit w with
  | (Ok entries, w') =>
      ∃ raw, fst (repository.GetTopUsers limit w) = Ok raw
             ∧ Forall2 same_place raw entries
             ∧ only_cache w w'
  | (Err e, w') =>
      e = Errorf_w "failed to get leaderboard" (transport "redis")
      ∧ fault w (calls w) = true
      ∧ only_calls w w'
  end.
Proof.
  unfold service.GetLeaderboard, bind, catch.
  destruct (fault w (calls w)) eqn:F.
  - unfold repository.GetTopUsers, bind, ZRevRangeWithScores.
    rewrite call_fault by done. split; [done |]. split; [done | apply only_calls_tick].
  - rewrite GetTopUsers_ok by done.
    match goal with |- context [service.hydrate_all ?r ?x] =>
      destruct (hydrate_all_spec r x) as (entries' & w' & -> & Hp & Ho) end.
    eexists. split; [reflexivity |]. split; [done |].
    eapply only_cache_trans; [| exact Ho]. apply only_calls_cache, only_calls_tick.
Qed.

(** X16.  [GetLeaderboard] fails only if the read of the sorted set
    fails, and then nothing has changed.  Otherwise it returns the entries
    of [GetTopUsers], one for one and in the same order, with rank, user
    id and rating untouched: hydration only fills in names, and an entry
    whose user is found nowhere is kept (without a name).  Whatever the
    lookups do, the only store it may write to is the attribute cache. *)
Theorem GetLeaderboard_only_adds_names (w : World) (limit : Z) :
  match service.GetLeaderboard limit w with
  | (Ok entries, w') =>
      (∃ raw, fst (repository.GetTopUsers limit w) = Ok raw
              ∧ length entries = length raw
              ∧ Forall2 same_place raw entries)
      ∧ zset w' = zset w ∧ channel w' = channel w ∧ stream w' = stream w
      ∧ users w' = users w ∧ score_updates w' = score_updates w
  | (Err e, w') =>
      e = Errorf_w "failed to get leaderboard" (transport "redis")
      ∧ fault w (calls w) = true
      ∧ only_calls w w'
  end.
Proof.
  pose proof (GetLeaderboard_run w limit) as Hrun.
  destruct (service.GetLeaderboard limit w) as [[entries | e] w']; [| exact Hrun].
  destruct Hrun as (raw & Hraw & Hsame & Ho).
  split.
  - exists raw. split; [exact Hraw |]. split; [| exact Hsame].
    symmetry. by eapply Forall2_length.
  - rewrite Ho. by repeat split.
Qed.

(** User 9 is ranked but known to no store: the entry stays, unnamed. *)
Example GetLeaderboard_keeps_unknown_users :
  fst (service.GetLeaderboard 2 (snd (repository.AddUser 9 6000 arena)))
  = Ok [LeaderboardEntry.mk 1 9 "" 6000; LeaderboardEntry.mk 2 1 "alice" 5000].
Proof. vm_compute. reflexivity. Qed.

(** ** Where the names of the leaderboard come from *)

Lemma GetCachedUser_entry w id :
  fault w (calls w) = false →
  repository.GetCachedUser id w
  = (if decide (cache_entry w id = ∅) then Err (Errorf "user not in cache")
     else Ok (User.mk (fst (strconv.ParseUint (repository.field (cache_entry w id) "id") 32))
                (repository.field (cache_entry w id) "username")
                (fst (strconv.Atoi (repository.field (cache_entry w id) "rating")))),
     set_calls w (S (calls w))).
Proof.
  intros F. unfold repository.GetCachedUser, HGetAll. rewrite call_ok by done.
  cbn [hashes set_calls]. fold (cache_entry w id).
  destruct (decide (cache_entry w id = ∅)) as [He | Hne].
  - rewrite He. rewrite decide_True by apply map_size_empty. done.
  - rewrite decide_False; [done |]. by rewrite map_size_empty_iff.
Qed.

Lemma cache_of_name u : repository.field (cache_of u) "username" = User.Username u.
Proof.
  unfold cache_of. destruct (hash_set_user_fields u ∅) as (_ & Hu & _).
  unfold repository.field. by rewrite Hu.
Qed.

Lemma cache_of_not_empty u : cache_of u ≠ ∅.
Proof.
  unfold cache_of. destruct (hash_set_user_fields u ∅) as (_ & _ & _ & Hs).
  intros He. rewrite He in Hs. by rewrite map_size_empty in Hs.
Qed.

Lemma cache_entry_CacheUser wi u id :
  fault wi (calls wi) = false →
  cache_entry (snd (repository.CacheUser u wi)) id
  = if decide (id = User.ID u)
    then hash_set [("id", strconv.FormatUint (User.ID u));
                   ("username", User.Username u);
                   ("rating", strconv.Itoa (User.Rating u))]
           (cache_entry wi (User.ID u))
    else cache_entry wi id.
Proof.
  intros F. unfold repository.CacheUser, HSet. rewrite call_ok by done.
  unfold cache_entry. cbn [snd hashes set_hashes set_calls].
  case_decide as Hid.
  - subst id. by rewrite lookup_insert_eq.
  - by rewrite lookup_insert_ne.
Qed.

Lemma hydrate_warmed w wi e :
  rows_keyed_by_id w → warmed w wi →
  ∃ e' wi',
    service.hydrate e wi = (Ok e', wi')
    ∧ warmed w wi'
    ∧ e' = LeaderboardEntry.mk (LeaderboardEntry.Rank e) (LeaderboardEntry.UserID e)
             (resolved_name w (LeaderboardEntry.UserID e) (LeaderboardEntry.Username e))
             (LeaderboardEntry.Rating e)
    ∧ (∀ id, cache_entry wi id ≠ ∅ → cache_entry wi' id ≠ ∅)
    ∧ (is_Some (users w !! LeaderboardEntry.UserID e) →
       cache_entry wi' (LeaderboardEntry.UserID e) ≠ ∅).
Proof.
  intros Hkey (F & Hu & Hc). set (id := LeaderboardEntry.UserID e).
  unfold service.hydrate. fold id. rewrite GetCachedUser_entry by apply F.
  unfold resolved_name. fold id.
  destruct (decide (cache_entry wi id = ∅)) as [He | Hne].
  - (* the cache misses *)
    assert (cache_entry w id = ∅) as He0.
    { destruct (Hc id) as [<- | (He0 & _)]; done. }
    rewrite decide_True by done.
    unfold repository.GetByID, db_First. rewrite call_ok by apply F.
    cbn [users set_calls]. rewrite Hu.
    destruct (users w !! id) as [u |] eqn:Hrow.
    + assert (User.ID u = id) as Hid by (by apply Hkey).
      set (w1 := set_calls (set_calls wi (S (calls wi))) _).
      assert (∀ id', cache_entry (snd (repository.CacheUser u w1)) id'
                     = if decide (id' = id) then cache_of u else cache_entry wi id')
        as Hafter.
      { intros id'. rewrite cache_entry_CacheUser by apply F. rewrite <- Hid.
        case_decide; [| done]. unfold cache_of.
        replace (cache_entry w1 (User.ID u)) with (cache_entry wi id)
          by (by rewrite <- Hid).
        by rewrite He. }
      assert (fault w1 (calls w1) = false) as F1 by apply F.
      eexists _, _. split; [reflexivity |]. split; [| split; [done | split]].
      * split; [| split].
        -- destruct (CacheUser_cases w1 u) as [(F' & _) | ->];
             [congruence | intros tick; apply F].
        -- destruct (CacheUser_cases w1 u) as [(F' & _) | ->];
             [congruence | done].
        -- intros id'. rewrite Hafter. case_decide as Hd; [| apply Hc].
           subst id'. right. eauto.
      * intros id' Hid'. rewrite Hafter. case_decide; [apply cache_of_not_empty | done].
      * intros _. rewrite Hafter, decide_True by done. apply cache_of_not_empty.
    + eexists _, _. split; [reflexivity |]. split; [| split; [| split]].
      * split; [intros tick; apply F |]. split; [done |]. apply Hc.
      * by destruct e.
      * done.
      * intros [u Hsome]. discriminate.
  - (* the cache hits *)
    eexists _, _. split; [reflexivity |]. split; [| split; [| split]].
    + split; [intros tick; apply F |]. split; [done |]. apply Hc.
    + cbn [User.Username]. f_equal.
      destruct (Hc id) as [Heq | (He0 & u & Hrow & Heq)].
      * rewrite Heq in *. by rewrite decide_False.
      * rewrite decide_True, Hrow, Heq by done. apply cache_of_name.
    + done.
    + done.
Qed.

Lemma hydrate_all_warmed w wi entries :
  rows_keyed_by_id w → warmed w wi →
  ∃ entries' wi',
    service.hydrate_all entries wi = (Ok entries', wi')
    ∧ warmed w wi'
    ∧ entries'
      = (λ e, LeaderboardEntry.mk (LeaderboardEntry.Rank e) (LeaderboardEntry.UserID e)
                (resolved_name w (LeaderboardEntry.UserID e) (LeaderboardEntry.Username e))
                (LeaderboardEntry.Rating e)) <$> entries
    ∧ (∀ id, cache_entry wi id ≠ ∅ → cache_entry wi' id ≠ ∅)
    ∧ (∀ e, e ∈ entries → is_Some (users w !! LeaderboardEntry.UserID e) →
         cache_entry wi' (LeaderboardEntry.UserID e) ≠ ∅).
Proof.
  intros Hkey. revert wi. induction entries as [| e rest IH]; intros wi Hw.
  - exists [], wi. split; [done |]. split; [done |]. split; [done |].
    split; [done |]. intros e He. by apply elem_of_nil in He.
  - cbn [service.hydrate_all]. unfold bind.
    destruct (hydrate_warmed w wi e Hkey Hw)
      as (e' & w1 & -> & Hw1 & -> & Hmono1 & Hcached).
    destruct (IH w1 Hw1) as (rest' & w2 & -> & Hw2 & -> & Hmono & Hrest).
    eexists _, _. split; [reflexivity |]. split; [done |]. split; [done |].
    split; [auto |].
    intros e0 He0 Hrow. apply elem_of_cons in He0 as [-> | He0]; [| by apply Hrest].
    apply Hmono. by apply Hcached.
Qed.

Lemma rank_entries_unnamed results i r p e :
  e ∈ repository.rank_entries results i r p → LeaderboardEntry.Username e = "".
Proof.
  revert i r p. induction results as [| z rest IH]; intros i r p He;
    [by apply elem_of_nil in He |].
  cbn [repository.rank_entries] in He.
  apply elem_of_cons in He as [-> | He]; [done | by eapply IH].
Qed.

(** X17.  Where the names of the leaderboard come from.  When no request
    fails (and every row of [users] is stored under its own id),
    [GetLeaderboard] gives each entry of [GetTopUsers] the name found in
    the attribute cache if the user has a hash there, even if the cold
    store has another name by now; else the name of the user's row in
    the cold store; else no name.  Afterwards every listed user that has
    a row in the cold store has a hash in the cache. *)
Theorem GetLeaderboard_resolves_names (w : World) (limit : Z) :
  fault_free w → rows_keyed_by_id w →
  ∃ raw entries w',
    fst (repository.GetTopUsers limit w) = Ok raw
    ∧ service.GetLeaderboard limit w = (Ok entries, w')
    ∧ entries
      = (λ e, LeaderboardEntry.mk (LeaderboardEntry.Rank e) (LeaderboardEntry.UserID e)
                (resolved_name w (LeaderboardEntry.UserID e) "")
                (LeaderboardEntry.Rating e)) <$> raw
    ∧ ∀ e, e ∈ entries → is_Some (users w !! LeaderboardEntry.UserID e) →
        cache_entry w' (LeaderboardEntry.UserID e) ≠ ∅.
Proof.
  intros F Hkey. unfold service.GetLeaderboard, bind, catch.
  rewrite GetTopUsers_ok by apply F. cbn [fst].
  set (raw := repository.rank_entries _ 0 1 0).
  set (w1 := set_calls w (S (calls w))).
  assert (warmed w w1) as Hw.
  { split; [intros tick; apply F |]. split; [done |]. intros id. by left. }
  destruct (hydrate_all_warmed w w1 raw Hkey Hw)
    as (entries & w' & -> & _ & -> & _ & Hcached).
  eexists raw, _, w'. split; [done |]. split; [done |]. split.
  - apply list_fmap_ext. intros i e He. f_equal.
    assert (LeaderboardEntry.Username e = "") as ->; [| done].
    apply list_elem_of_lookup_2 in He. by eapply rank_entries_unnamed.
  - intros e He. apply list_elem_of_fmap in He as (e0 & -> & He0). simpl.
    by apply Hcached.
Qed.

Lemma GetLeaderboard_resolves_names_witness :
  let w := set_tables (set_hashes seeded {[ 1%N := cache_of (User.mk 1 "al" 5000) ]})
             (<[1%N := alice]> (<[2%N := bob]> ∅)) [] in
  fst (service.GetLeaderboard 3 w)
  = Ok [LeaderboardEntry.mk 1 1 "al" 5000;
        LeaderboardEntry.mk 2 3 "" 4900;
        LeaderboardEntry.mk 2 2 "bob" 4900].
Proof.
  intros w.
  destruct (GetLeaderboard_resolves_names w 3 ltac:(intros tick; reflexivity))
    as (raw & entries & w' & Hraw & Hrun & Hnames & _).
  - intros id u Hrow.
    destruct (decide (id = 1%N)) as [-> | H1]; [by injection Hrow as <- |].
    destruct (decide (id = 2%N)) as [-> | H2]; [by injection Hrow as <- |].
    subst w. simpl in Hrow. by rewrite !lookup_insert_ne in Hrow by done.
  - rewrite Hrun. cbn [fst]. rewrite Hnames. f_equal.
    vm_compute in Hraw. injection Hraw as <-. vm_compute. reflexivity.
Defined.

(** ** The handlers *)

Lemma parse_loop_range str n maxVal v :
  (n ≤ maxVal)%N →
  strconv.parse_loop str n maxVal = (v, None) → (v ≤ maxVal)%N.
Proof.
  revert n. induction str as [| c str IH]; intros n Hn; cbn [strconv.parse_loop].
  - by intros [= <-].
  - destruct (strconv.digit_of c) as [d |]; [| discriminate].
    destruct (strconv.cutoff <=? n)%N; [discriminate |].
    destruct ((2 ^ 64 <=? n * 10 + d) || (maxVal <? n * 10 + d))%N eqn:E;
      [discriminate |].
    apply orb_false_iff in E as [_ E]. apply N.ltb_ge in E.
    by apply IH.
Qed.

Lemma ParseUint_32_range s userID :
  strconv.ParseUint s 32 = (userID, None) → (userID < 2 ^ 32)%N.
Proof.
  unfold strconv.ParseUint. destruct s as [| c s]; [discriminate |].
  intros H. apply parse_loop_range in H; lia.
Qed.

(** X18.  The rank handler answers 400 to a user id that is not a decimal
    number of at most 32 bits, without asking any store; otherwise it
    answers 200 with the rank [GetUserRank] gives, or 404 for every
    failure of the lookup: a store that does not answer is reported as
    "User not found in leaderboard", like a user that is not ranked.  It
    never answers 500 and never writes. *)
Theorem handler_GetUserRank_answers (w : World) (user_id : string) :
  match handler.GetUserRank user_id w with
  | (handler.StatusOK (userID, rank), w') =>
      strconv.ParseUint user_id 32 = (userID, None)
      ∧ (userID < 2 ^ 32)%N
      ∧ fst (repository.GetUserRank userID w) = Ok rank
      ∧ 1 ≤ rank
      ∧ only_calls w w'
  | (handler.StatusBadRequest _, w') =>
      snd (strconv.ParseUint user_id 32) ≠ None ∧ w' = w
  | (handler.StatusNotFound _, w') =>
      (∃ userID, strconv.ParseUint user_id 32 = (userID, None)
                 ∧ (fault w (calls w) = true
                    ∨ zset w !! repository.member_of userID = None
                    ∨ fault w (S (calls w)) = true))
      ∧ only_calls w w'
  | (handler.StatusInternalServerError _, _) => False
  end.
Proof.
  unfold handler.GetUserRank.
  destruct (strconv.ParseUint user_id 32) as [userID [err |]] eqn:Hp; [done |].
  pose proof (service_GetUserRank_only_calls w userID) as Ho.
  destruct (service.GetUserRank userID w) as [[rank | e] w'] eqn:E; simpl in Ho.
  - apply service_GetUserRank_ok in E.
    pose proof (GetUserRank_range w userID rank) as Hr. rewrite E in Hr.
    specialize (Hr eq_refl).
    split; [done |]. split; [by eapply ParseUint_32_range |].
    split; [by rewrite E |]. split; [lia | done].
  - split; [| done]. exists userID. split; [done |].
    destruct (fault w (calls w)) eqn:F0; [by left |].
    destruct (zset w !! repository.member_of userID) as [score |] eqn:Hm; [| auto].
    destruct (fault w (S (calls w))) eqn:F1; [auto |].
    unfold service.GetUserRank, catch in E.
    rewrite (GetUserRank_present w userID score) in E by done. discriminate.
Qed.

(** The store is down: 404, as for a user that is not ranked. *)
Example handler_GetUserRank_store_down :
  fst (handler.GetUserRank "1" cached_store_down)
  = handler.StatusNotFound "User not found in leaderboard"
  ∧ fst (handler.GetUserRank "7" seeded)
    = handler.StatusNotFound "User not found in leaderboard"
  ∧ fst (handler.GetUserRank "4294967296" seeded)
    = handler.StatusBadRequest "Invalid user ID".
Proof. repeat split; vm_compute; reflexivity. Qed.

(** X19.  The leaderboard handler never asks for more than 1000 entries
    and falls back to 100 for a limit that is missing, not a number, zero
    or negative: a 200 answer carries min(limit, size of the set) entries,
    at most 1000.  A 500 answer means the read of the sorted set
    failed, and nothing has changed; other answers do not occur. *)
Theorem handler_GetLeaderboard_bounded (w : World) (limitStr : string) :
  let limit := handler.leaderboard_limit limitStr in
  (snd (strconv.Atoi limitStr) ≠ None ∨ fst (strconv.Atoi limitStr) ≤ 0 → limit = 100)
  ∧ match handler.GetLeaderboard limitStr w with
    | (handler.StatusOK entries, w') =>
        Z.of_nat (length entries) = Z.min limit (Z.of_nat (size (zset w)))
        ∧ Z.of_nat (length entries) ≤ 1000
        ∧ only_cache w w'
    | (handler.StatusInternalServerError _, w') =>
        fault w (calls w) = true ∧ only_calls w w'
    | _ => False
    end.
Proof.
  intros limit. split.
  - subst limit. unfold handler.leaderboard_limit.
    destruct (strconv.Atoi limitStr) as [n err]. simpl. intros [Herr | Hn].
    + by rewrite bool_decide_true.
    + replace (n <=? 0) with true by (symmetry; by apply Z.leb_le).
      by rewrite orb_true_r.
  - pose proof (leaderboard_limit_range limitStr) as Hl. fold limit in Hl.
    unfold handler.GetLeaderboard. fold limit.
    pose proof (GetLeaderboard_run w limit) as Hrun.
    destruct (service.GetLeaderboard limit w) as [[entries | e] w'].
    + destruct Hrun as (raw & Hraw & Hsame & Ho).
      destruct (repository.GetTopUsers limit w) as [[raw' | e'] w1] eqn:Htop;
        [| discriminate].
      simpl in Hraw. injection Hraw as ->.
      destruct (GetTopUsers_entries w limit raw w1 ltac:(lia) Htop) as (_ & He & _).
      assert (Z.of_nat (length entries) = Z.min limit (Z.of_nat (size (zset w)))) as Hlen.
      { rewrite <- (Forall2_length _ _ _ Hsame), He, length_fmap, length_take,
          length_zrev_all. lia. }
      split; [done |]. split; [lia | done].
    + by destruct Hrun as (_ & F & Ho).
Qed.

Example handler_leaderboard_limits :
  handler.leaderboard_limit "" = 100
  ∧ handler.leaderboard_limit "ten" = 100
  ∧ handler.leaderboard_limit "-5" = 100
  ∧ handler.leaderboard_limit "0" = 100
  ∧ handler.leaderboard_limit "250" = 250
  ∧ handler.leaderboard_limit "99999999999999999999" = 100.
Proof. repeat split; vm_compute; reflexivity. Qed.

(** X20.  Behind the update handler the service's clamp never acts: a 200
    answer carries exactly the rating of the request body, which lies in
    [100, 5000], for a user id of at most 32 bits, and the sorted set
    holds that rating for the user.  A 400 answer (bad id, undecodable
    body, rating 0 or out of range) is given before any store is asked,
    and a 500 answer means the update failed before its first write: in
    both cases no store has changed.  The handler never answers 404. *)
Theorem handler_UpdateUserScore_answers
    (w : World) (user_id : string) (body : option Z) :
  match handler.UpdateUserScore user_id body w with
  | (handler.StatusOK payload, w') =>
      ∃ newRating,
        body = Some newRating ∧ 100 ≤ newRating ≤ 5000
        ∧ ScoreUpdatePayload.NewRating payload = newRating
        ∧ strconv.ParseUint user_id 32 = (ScoreUpdatePayload.UserID payload, None)
        ∧ (ScoreUpdatePayload.UserID payload < 2 ^ 32)%N
        ∧ zset w' !! repository.member_of (ScoreUpdatePayload.UserID payload)
          = Some newRating
  | (handler.StatusBadRequest _, w') => w' = w
  | (handler.StatusInternalServerError _, w') => only_calls w w'
  | (handler.StatusNotFound _, _) => False
  end.
Proof.
  unfold handler.UpdateUserScore.
  destruct (strconv.ParseUint user_id 32) as [userID [err |]] eqn:Hp; [done |].
  destruct body as [newRating |]; [| done].
  destruct (handler.binding_ok newRating) eqn:Hb; [| done].
  unfold handler.binding_ok in Hb.
  apply andb_true_iff in Hb as [Hb Hhi]. apply andb_true_iff in Hb as [_ Hlo].
  apply Z.leb_le in Hlo, Hhi.
  destruct (service.UpdateUserScore userID newRating w) as [[payload | e] w'] eqn:E.
  - destruct (UpdateUserScore_stages _ _ _ _ _ E)
      as (user & oldRank & newRank & w1 & w2 & w3 & w4 & w5
          & E1 & E2 & _ & _ & _ & Ep & _).
    destruct (UpdateUserScore_once_written w userID newRating user w1 E1)
      as (payload' & w'' & E' & Hz & _ & _).
    { destruct (ZAdd_cases (snd (service.rank_or_zero userID w1))
                  (repository.member_of userID) (service.clamp_rating newRating))
        as [(F & Hfail) | (F & _)]; [| done].
      exfalso. revert E. unfold service.UpdateUserScore, bind, catch.
      rewrite E1, E2. unfold repository.UpdateUserScore, repository.AddUser.
      rewrite E2 in Hfail. simpl in Hfail. by rewrite Hfail. }
    rewrite E in E'. injection E' as <- <-.
    destruct (clamp_rating_range newRating) as (_ & _ & _ & Hid).
    rewrite Hid in * by lia.
    exists newRating. rewrite Ep. simpl.
    split; [done |]. split; [done |]. split; [done |]. split; [done |].
    split; [by eapply ParseUint_32_range |].
    by rewrite Hz, lookup_insert_eq.
  - by apply UpdateUserScore_error in E as [Ho _].
Qed.

Example handler_UpdateUserScore_refusals :
  handler.UpdateUserScore "2" (Some 0) arena
  = (handler.StatusBadRequest
       "Invalid request body. new_rating must be between 100 and 5000", arena)
  ∧ handler.UpdateUserScore "two" (Some 4950) arena
    = (handler.StatusBadRequest "Invalid user ID", arena)
  ∧ fst (handler.UpdateUserScore "9" (Some 4950) arena)
    = handler.StatusInternalServerError "Failed to update score".
Proof. repeat split; vm_compute; reflexivity. Qed.

(** ** The search handler *)

Lemma length_omap_le {A B} (f : A → option B) (l : list A) :
  (length (omap f l) ≤ length l)%nat.
Proof.
  induction l as [| x l IH]; [done |]. cbn [omap list_omap].
  destruct (f x); simpl; lia.
Qed.

Section search_handler.

Variable sort_Slice : ∀ A : Type, (A → A → bool) → list A → list A.
Variable SearchByUsername : string → Z → M (list User.t).

Lemma search_limit_range limitStr : 1 ≤ handler.search_limit limitStr ≤ 200.
Proof.
  unfold handler.search_limit.
  destruct (strconv.Atoi limitStr) as [limit err].
  destruct (bool_decide (err ≠ None) || (limit <=? 0)) eqn:E.
  - simpl. lia.
  - apply orb_false_iff in E as [_ E]. apply Z.leb_gt in E.
    destruct (200 <? limit) eqn:E'; [lia |]. apply Z.ltb_ge in E'. lia.
Qed.

Lemma length_lookups users w : length (search.lookups users w) = length users.
Proof.
  revert w. induction users as [| u rest IH]; intros w; [done |].
  cbn [search.lookups].
  destruct (service.GetUserRank (User.ID u) w) as [r w1]. simpl. by rewrite IH.
Qed.

Lemma SearchUsers_run query limit w :
  search.sorts sort_Slice → query ≠ "" → 0 ≤ limit →
  match SearchByUsername query limit w with
  | (Ok users, w1) =>
      ∃ results,
        fst (search.SearchUsers sort_Slice SearchByUsername query limit w) = Ok results
        ∧ Z.of_nat (length results) ≤ limit
        ∧ (length results ≤ length users)%nat
  | (Err err, w1) =>
      search.SearchUsers sort_Slice SearchByUsername query limit w
      = (Err (Errorf_w "search failed" err), w1)
  end.
Proof.
  intros Hsorts Hq Hl. unfold search.SearchUsers.
  destruct query as [| c query]; [done |]. cbn [String.length Nat.ltb Nat.leb].
  unfold bind, catch.
  destruct (SearchByUsername (String c query) limit w) as [[users | err] w1]; [| done].
  set (ordered := sort_Slice _ search.by_rating_desc users).
  destruct (Hsorts _ search.by_rating_desc users by_rating_desc_strict_weak) as [Hperm _].
  fold ordered in Hperm.
  rewrite limit_results_take by done.
  pose proof (annotate_lookups (take (Z.to_nat limit) ordered) w1) as Ha.
  destruct (search.annotate (take (Z.to_nat limit) ordered) w1) as [r w2].
  simpl in Ha. subst r. cbn [fst]. unfold ret.
  set (kept := omap search.keep _).
  destruct (Hsorts _ search.result_by_rating_desc kept result_by_rating_desc_strict_weak)
    as [Hperm2 _].
  eexists. split; [reflexivity |].
  rewrite (Permutation_length Hperm2).
  assert (length kept ≤ length (take (Z.to_nat limit) ordered))%nat as Hk.
  { unfold kept. etransitivity; [apply length_omap_le |]. by rewrite length_lookups. }
  rewrite length_take, (Permutation_length Hperm) in Hk. lia.
Qed.

(** X21.  The search handler answers 400 to an empty query without asking
    anything.  Otherwise it passes a limit between 1 and 200 (100 when the
    parameter is missing, not a number, zero or negative), so the slice
    [users[:limit]] of the service cannot panic and a 200 answer carries
    at most 200 results; it answers 500 exactly when the search in the
    cold store failed. *)
Theorem handler_SearchUsers_answers (w : World) (q limitStr : string) :
  search.sorts sort_Slice →
  let limit := handler.search_limit limitStr in
  ∃ answer w',
    handler.SearchUsers (search.SearchUsers sort_Slice SearchByUsername) q limitStr w
    = (Ok answer, w')
    ∧ match answer with
      | handler.StatusOK results =>
          q ≠ "" ∧ Z.of_nat (length results) ≤ limit ≤ 200
          ∧ ∃ users, fst (SearchByUsername q limit w) = Ok users
                     ∧ (length results ≤ length users)%nat
      | handler.StatusBadRequest _ => q = "" ∧ w' = w
      | handler.StatusInternalServerError _ =>
          q ≠ "" ∧ ∃ err, fst (SearchByUsername q limit w) = Err err
      | handler.StatusNotFound _ => False
      end.
Proof.
  intros Hsorts limit.
  pose proof (search_limit_range limitStr) as Hl. fold limit in Hl.
  unfold handler.SearchUsers. fold limit.
  destruct (decide (q = "")) as [-> | Hq]; [by eexists _, _ |].
  pose proof (SearchUsers_run q limit w Hsorts Hq ltac:(lia)) as Hrun.
  destruct (SearchByUsername q limit w) as [[users | err] w1].
  - destruct Hrun as (results & Hres & Hlen & Hle).
    destruct (search.SearchUsers sort_Slice SearchByUsername q limit w)
      as [r w2]. simpl in Hres. subst r.
    eexists _, _. split; [reflexivity |].
    split; [done |]. split; [lia |]. eauto.
  - rewrite Hrun. eexists _, _. split; [reflexivity |]. split; [done |]. eauto.
Qed.

End search_handler.

Lemma handler_SearchUsers_answers_witness :
  ∃ answer w',
    handler.SearchUsers (search.SearchUsers search.insertionSort (found [bob; carol; alice]))
      "a" "2" arena
    = (Ok answer, w')
    ∧ match answer with
      | handler.StatusOK results => length results = 2%nat
      | _ => False
      end.
Proof.
  destruct (handler_SearchUsers_answers search.insertionSort (found [bob; carol; alice])
              arena "a" "2" insertionSort_sorts)
    as (answer & w' & Hrun & _).
  exists answer, w'. split; [exact Hrun |].
  vm_compute in Hrun. injection Hrun as <- _. reflexivity.
Defined.

(** ** The search service at its edges *)

Section search_edges.

Variable sort_Slice : ∀ A : Type, (A → A → bool) → list A → list A.
Variable SearchByUsername : string → Z → M (list User.t).

(** X22.  [SearchUsers] at its edges.  An empty query returns no result
    and asks no store.  A failed search is returned as "search failed"
    around its cause, before any rank lookup.  With limit 0 a successful
    search gives no result and no rank lookup.  With a negative limit a
    successful search always ends in the panic of [users[:limit]] (slice
    bounds out of range), whatever the search found; the service has no
    guard of its own against it. *)
Theorem SearchUsers_edge_cases (w : World) (query : string) (limit : Z) :
  search.sorts sort_Slice →
  let SearchUsers := search.SearchUsers sort_Slice SearchByUsername in
  SearchUsers "" limit w = (Ok [], w)
  ∧ (query ≠ "" →
     match SearchByUsername query limit w with
     | (Err err, w1) =>
         SearchUsers query limit w = (Err (Errorf_w "search failed" err), w1)
     | (Ok users, w1) =>
         (limit = 0 → SearchUsers query limit w = (Ok [], w1))
         ∧ (limit < 0 →
            SearchUsers query limit w
            = (Err (runtime_panic "slice bounds out of range"), w1))
     end).
Proof.
  intros Hsorts SearchUsers. subst SearchUsers. split; [reflexivity |].
  intros Hq. unfold search.SearchUsers.
  destruct query as [| c query]; [done |]. cbn [String.length Nat.ltb Nat.leb].
  unfold bind, catch.
  destruct (SearchByUsername (String c query) limit w) as [[users | err] w1]; [| done].
  set (ordered := sort_Slice _ search.by_rating_desc users).
  assert (sort_Slice _ search.result_by_rating_desc [] = []) as Hnil.
  { destruct (Hsorts _ search.result_by_rating_desc [] result_by_rating_desc_strict_weak)
      as [Hperm _]. by apply Permutation_nil_r in Hperm. }
  split.
  - intros ->. rewrite limit_results_take by done.
    change (Z.to_nat 0) with 0%nat. rewrite take_0. cbn [search.annotate].
    unfold ret. by rewrite Hnil.
  - intros Hneg. unfold search.limit_results.
    replace (limit <? Z.of_nat (length ordered)) with true
      by (symmetry; apply Z.ltb_lt; lia).
    replace (limit <? 0) with true by (symmetry; apply Z.ltb_lt; lia).
    reflexivity.
Qed.

End search_edges.

Lemma SearchUsers_edge_cases_witness :
  fst (search.SearchUsers search.insertionSort (found [alice]) "a" (-1) arena)
  = Err (runtime_panic "slice bounds out of range")
  ∧ fst (search.SearchUsers search.insertionSort (found []) "a" (-1) arena)
    = Err (runtime_panic "slice bounds out of range").
Proof.
  split.
  - destruct (SearchUsers_edge_cases search.insertionSort (found [alice]) arena "a" (-1)
                insertionSort_sorts) as [_ H].
    specialize (H ltac:(discriminate)). cbv beta iota in H.
    change (found [alice] "a" (-1) arena) with (Ok [alice], set_calls arena 1) in H.
    destruct H as [_ H]. by rewrite H.
  - destruct (SearchUsers_edge_cases search.insertionSort (found []) arena "a" (-1)
                insertionSort_sorts) as [_ H].
    specialize (H ltac:(discriminate)). cbv beta iota in H.
    change (found [] "a" (-1) arena) with (Ok (@nil User.t), set_calls arena 1) in H.
    destruct H as [_ H]. by rewrite H.
Defined.

(** ** The write-behind worker, continued *)

Section worker.

Import dbsync.

(** A batch of one item in a world where every request is answered. *)
Lemma processBatch_one w id item :
  fault_free w → fresh_entries w = [(id, json_of item)] →
  let w' := processBatch w in
  users w'
  = alter (λ u, User.mk (User.ID u) (User.Username u) (DBSyncQueueItem.NewRating item))
      (DBSyncQueueItem.UserID item) (users w)
  ∧ score_updates w' = score_updates w ++ [history_row item]
  ∧ group_last_delivered w' = id
  ∧ group_pel w' = (group_pel w ∪ {[id]}) ∖ {[id]}
  ∧ batchCounter w' = int_add (batchCounter w) 1
  ∧ zset w' = zset w ∧ stream w' = stream w.
Proof.
  intros F Hfresh w'. subst w'. unfold processBatch, XReadGroup_new.
  rewrite call_ok by apply F. cbn [stream group_last_delivered set_calls].
  fold (fresh_entries w). rewrite Hfresh. cbn [last decode json_Unmarshal snd fst].
  unfold db_Transaction, apply_items, apply_item, bind, ret, db_UpdateRating,
    db_CreateHistory, XAck, call.
  unfold fault_free in F. simpl. repeat (rewrite !F; simpl).
  repeat split; try done. set_solver.
Qed.

Lemma filter_nil_Forall {A} (P : A → Prop) `{!∀ x, Decision (P x)} (l : list A) :
  Forall (λ x, ¬ P x) l → filter P l = [].
Proof.
  induction 1 as [| x l Hx _ IH]; [done |].
  rewrite filter_cons. by rewrite decide_False.
Qed.

(** X23.  Write-behind reaches the cold store.  When no request fails and
    nothing waits in the stream, one update followed by one run of
    [processBatch] sets the row of the user in the [users] table to the
    clamped rating, appends one history row (old rating as the update saw
    it, new rating, their difference, the time of the update) and
    acknowledges the entry; the sorted set and the table then agree on
    the rating. *)
Theorem update_then_processBatch_reaches_cold_store
    (w : World) (userID : N) (requested : Z) (user : User.t) (w1 : World)
    (row : User.t) :
  fault_free w →
  service.load_user userID w = (Ok user, w1) →
  users w !! userID = Some row →
  Forall (λ e : nat * wire, (e.1 ≤ group_last_delivered w)%nat) (stream w) →
  (group_last_delivered w ≤ stream_last_id w)%nat →
  let rating := service.clamp_rating requested in
  let w' := processBatch (snd (service.UpdateUserScore userID requested w)) in
  users w' !! userID = Some (User.mk (User.ID row) (User.Username row) rating)
  ∧ score_updates w'
    = score_updates w
      ++ [ScoreUpdate.mk userID (User.Rating user) rating
            (int_sub rating (User.Rating user)) (now w)]
  ∧ ¬ unacked w' (S (stream_last_id w))
  ∧ zset w' !! repository.member_of userID = Some rating.
Proof.
  intros F Hload Hrow Hread Hgroup rating w'. subst w'.
  destruct (UpdateUserScore_free w userID requested user w1 F Hload)
    as (payload & wu & Hrun & _ & _ & _ & _ & _ & _ & Hz & _ & Hu & Fu & _ & Hs & Hl & _).
  fold rating in Hz, Hs.
  destruct (UpdateUserScore_pipeline w userID requested) as (Gd & Gp & Su & _).
  rewrite Hrun in *. cbn [snd] in *.
  set (item := DBSyncQueueItem.mk userID (User.Rating user) rating (now w)) in *.
  assert (fresh_entries wu = [(S (stream_last_id w), json_of item)]) as Hfresh.
  { unfold fresh_entries. rewrite Hs, Gd, filter_app, filter_nil_Forall.
    - rewrite filter_cons, decide_True by (simpl; lia). reflexivity.
    - eapply Forall_impl; [exact Hread |]. simpl. intros. lia. }
  destruct (processBatch_one wu _ item Fu Hfresh)
    as (Hu' & Hsu' & Hd' & Hp' & _ & Hz' & _).
  split; [| split; [| split]].
  - rewrite Hu', Hu. simpl. rewrite lookup_alter_eq, Hrow. reflexivity.
  - by rewrite Hsu', Su.
  - unfold unacked. rewrite Hd', Hp'. intros [Hlt | Hin]; [lia | set_solver].
  - by rewrite Hz', Hz, lookup_insert_eq.
Qed.

Lemma update_then_processBatch_reaches_cold_store_witness :
  let w' := processBatch (snd (service.UpdateUserScore 2 7000 arena)) in
  users w' !! 2%N = Some (User.mk 2 "bob" 5000)
  ∧ score_updates w' = [ScoreUpdate.mk 2 4900 5000 100 0].
Proof.
  intros w'.
  destruct (update_then_processBatch_reaches_cold_store arena 2 7000 bob
              (set_calls arena 1) bob
              ltac:(intros tick; reflexivity) ltac:(reflexivity) ltac:(reflexivity)
              ltac:(constructor) ltac:(reflexivity))
    as (Hrow & Hhist & _).
  split; [exact Hrow | exact Hhist].
Defined.

Lemma decode_ids msgs items ids :
  decode msgs = (items, ids) →
  ∀ id, id ∈ ids → ∃ item, (id, json_of item) ∈ msgs.
Proof.
  revert items ids. induction msgs as [| [id0 raw] msgs IH]; intros items ids Hd id Hin.
  - injection Hd as <- <-. by apply elem_of_nil in Hin.
  - cbn [decode] in Hd. destruct (decode msgs) as [items' ids'].
    destruct raw as [item0 | raw0]; simpl in Hd; injection Hd as <- <-.
    + apply elem_of_cons in Hin as [-> | Hin].
      * exists item0. left.
      * destruct (IH _ _ eq_refl id Hin) as (item & Hi). exists item. by right.
    + destruct (IH _ _ eq_refl id Hin) as (item & Hi). exists item. by right.
Qed.

Lemma fresh_entries_sorted w :
  stream_wf w →
  StronglySorted (λ a b : nat * wire, (a.1 < b.1)%nat) (fresh_entries w).
Proof.
  intros (Hs & _). unfold fresh_entries.
  set (fl := filter _ (stream w)).
  assert (StronglySorted (λ a b : nat * wire, (a.1 < b.1)%nat) fl) as Hsf
    by (by apply StronglySorted_filter).
  rewrite <- (take_drop BatchSize fl) in Hsf.
  by apply StronglySorted_app_1_l in Hsf.
Qed.

Lemma sorted_le_last (l : list (nat * wire)) e x :
  StronglySorted (λ a b : nat * wire, (a.1 < b.1)%nat) l →
  last l = Some e → x ∈ l → (x.1 ≤ e.1)%nat.
Proof.
  intros Hs Hl Hx. apply last_Some in Hl as (l' & ->).
  apply elem_of_app in Hx as [Hx | Hx].
  - pose proof (StronglySorted_app_1_elem_of _ _ _ x e Hs Hx
                  ltac:(by apply list_elem_of_singleton)) as H.
    simpl in H. lia.
  - apply list_elem_of_singleton in Hx as ->. lia.
Qed.

Lemma sorted_ids_unique (l : list (nat * wire)) id a b :
  StronglySorted (λ a b : nat * wire, (a.1 < b.1)%nat) l →
  (id, a) ∈ l → (id, b) ∈ l → a = b.
Proof.
  induction 1 as [| x l Hs IH Hx]; intros Ha Hb; [by apply elem_of_nil in Ha |].
  rewrite Forall_forall in Hx.
  apply elem_of_cons in Ha as [Ha | Ha]; apply elem_of_cons in Hb as [Hb | Hb].
  - congruence.
  - subst x. specialize (Hx _ Hb). simpl in Hx. lia.
  - subst x. specialize (Hx _ Ha). simpl in Hx. lia.
  - by apply IH.
Qed.

Lemma stuck_step w ev id : stuck w id → stuck (step w ev) id.
Proof.
  intros [Hp Hd]. destruct ev as [userID newRating | |].
  - destruct (UpdateUserScore_pipeline w userID newRating) as (Gd & Gp & _).
    simpl in *. unfold stuck. by rewrite Gd, Gp.
  - destruct (processBatch_cases w) as (_ & _ & Hcases). simpl in *.
    destruct Hcases as [(Hld & Hpel & _) | (e & items & ids & Hl & Hdec & Hld & Hc)].
    { unfold stuck. by rewrite Hld, Hpel. }
    apply last_Some_elem_of, elem_of_fresh_entries in Hl as [Hlt _].
    unfold stuck. rewrite Hld. split; [| lia].
    destruct Hc as [[-> _] | [_ [-> | ->]]]; [set_solver | set_solver |].
    apply elem_of_difference. split; [set_solver |].
    rewrite elem_of_list_to_set. intros Hid.
    destruct (decode_ids _ _ _ Hdec id Hid) as (item & Hi).
    apply elem_of_fresh_entries in Hi as [Hlt' _]. simpl in Hlt'. lia.
  - destruct (trim_cases w) as (Gd & Gp & _). simpl in *.
    unfold stuck. by rewrite Gd, Gp.
Qed.

(** X24.  The worker reads only entries never delivered before (the id
    [>]).  So an entry that was delivered and is still pending is never
    delivered to [processBatch] again and never acknowledged, whatever
    updates, batches and trims follow: a batch that was read but not
    acknowledged is not retried by this worker. *)
Theorem pending_entry_is_never_retried (w : World) (id : nat) (evs : list event) :
  id ∈ group_pel w → (id ≤ group_last_delivered w)%nat →
  id ∈ group_pel (run w evs)
  ∧ ∀ e, e ∈ fresh_entries (run w evs) → e.1 ≠ id.
Proof.
  intros Hp Hd.
  assert (stuck (run w evs) id) as [Hp' Hd'].
  { assert (stuck w id) as Hs by done. clear Hp Hd.
    revert w Hs. induction evs as [| ev evs IH]; intros w Hs; [done |].
    cbn [run foldl]. apply IH. by apply stuck_step. }
  split; [done |]. intros e He Heq.
  apply elem_of_fresh_entries in He as [Hlt _]. lia.
Qed.

(** X25.  When the transaction of a batch fails, [processBatch] leaves the
    tables as they were (the rating updates made inside the transaction
    are rolled back), does not count the batch and acknowledges nothing:
    every entry it read is pending, at or behind the group's last
    delivered id. *)
Theorem processBatch_failed_transaction
    (w : World) (items : list DBSyncQueueItem.t) (ids : list nat) (err : error) :
  stream_wf w →
  fault w (calls w) = false →
  decode (fresh_entries w) = (items, ids) → items ≠ [] →
  fst (db_Transaction (apply_items items) (snd (XReadGroup_new BatchSize w))) = Err err →
  let w' := processBatch w in
  users w' = users w
  ∧ score_updates w' = score_updates w
  ∧ batchCounter w' = batchCounter w
  ∧ trims_spawned w' = trims_spawned w
  ∧ ∀ e, e ∈ fresh_entries w →
      e.1 ∈ group_pel w' ∧ (e.1 ≤ group_last_delivered w')%nat.
Proof.
  intros Hwf F Hdec Hne Hfail w'. subst w'. unfold processBatch.
  destruct (XReadGroup_new_cases w) as [(e & Hread) | (e & Hl & Hread)].
  { exfalso. unfold XReadGroup_new in Hread. rewrite call_ok in Hread by done.
    cbn [stream group_last_delivered set_calls] in Hread.
    fold (fresh_entries w) in Hread.
    destruct (fresh_entries w) as [| x l] eqn:Hf.
    - simpl in Hdec. injection Hdec as <- <-. done.
    - destruct (last (x :: l)) eqn:El; [discriminate |].
      by apply last_None in El. }
  rewrite Hread in *. cbn [snd] in Hfail. rewrite Hdec.
  destruct items as [| item items]; [done |].
  set (w1 := set_group _ _ _) in *.
  destruct (db_Transaction_cases (item :: items) w1)
    as (r & w2 & Heq & [(err' & -> & Ho) | (-> & _)]);
    rewrite Heq in *; [| discriminate].
  rewrite Ho. simpl. repeat split.
  - apply elem_of_union_r, elem_of_list_to_set. by apply list_elem_of_fmap_2.
  - eapply sorted_le_last; [by apply fresh_entries_sorted | done | done].
Qed.

Lemma processBatch_delivers w e :
  fault w (calls w) = false → last (fresh_entries w) = Some e →
  group_last_delivered (processBatch w) = e.1
  ∧ ∃ acked,
      group_pel (processBatch w)
      = (group_pel w ∪ list_to_set ((fresh_entries w).*1)) ∖ list_to_set acked
      ∧ ∀ id, id ∈ acked → ∃ item, (id, json_of item) ∈ fresh_entries w.
Proof.
  intros F Hl. unfold processBatch.
  destruct (XReadGroup_new_cases w) as [(err & Hread) | (e' & Hl' & Hread)].
  { exfalso. unfold XReadGroup_new in Hread. rewrite call_ok in Hread by done.
    cbn [stream group_last_delivered set_calls] in Hread.
    fold (fresh_entries w) in Hread. by rewrite Hl in Hread. }
  rewrite Hl in Hl'. injection Hl' as <-. rewrite Hread.
  assert (∀ X : gset nat, X = X ∖ list_to_set []) as Hnone by set_solver.
  destruct (decode (fresh_entries w)) as [items' ids] eqn:Hdec.
  destruct items' as [| item items] eqn:Hitems.
  { simpl. split; [done |]. exists []. split; [apply Hnone | ].
    intros id Hid. by apply elem_of_nil in Hid. }
  set (w1 := set_group _ _ _).
  destruct (db_Transaction_cases (item :: items) w1)
    as (r & w2 & -> & [(err' & -> & Ho) | (-> & Ho & _)]).
  - rewrite Ho. simpl. split; [done |]. exists []. split; [apply Hnone |].
    intros id Hid. by apply elem_of_nil in Hid.
  - destruct (XAck_cases ids w2) as [-> | ->]; rewrite Ho; simpl; (split; [done |]).
    + exists []. split; [apply Hnone |]. intros id Hid. by apply elem_of_nil in Hid.
    + exists ids. split; [done |]. by apply (decode_ids _ (item :: items)).
Qed.

(** X26.  An entry whose data does not decode is skipped by
    [processBatch]: its id is never among the acknowledged ones, so after
    the batch it is pending, at or behind the group's last delivered id,
    whether the rest of the batch was committed or not. *)
Theorem processBatch_skips_undecodable (w : World) (id : nat) (raw : string) :
  stream_wf w →
  fault w (calls w) = false →
  (id, garbage raw) ∈ fresh_entries w →
  id ∈ group_pel (processBatch w)
  ∧ (id ≤ group_last_delivered (processBatch w))%nat
  ∧ ∀ items ids, decode (fresh_entries w) = (items, ids) → id ∉ ids.
Proof.
  intros Hwf F Hin.
  pose proof (fresh_entries_sorted w Hwf) as Hsorted.
  destruct (last (fresh_entries w)) as [e |] eqn:Hl;
    [| apply last_None in Hl; rewrite Hl in Hin; by apply elem_of_nil in Hin].
  destruct (processBatch_delivers w e F Hl) as (-> & acked & -> & Hacked).
  split; [| split].
  - apply elem_of_difference. split.
    + apply elem_of_union_r, elem_of_list_to_set.
      by apply (list_elem_of_fmap_2 fst) in Hin.
    + rewrite elem_of_list_to_set. intros Hid.
      destruct (Hacked id Hid) as (item & Hi).
      pose proof (sorted_ids_unique _ _ _ _ Hsorted Hin Hi). discriminate.
  - by apply (sorted_le_last (fresh_entries w) e (id, garbage raw)).
  - intros items ids Hdec Hid.
    destruct (decode_ids _ _ _ Hdec id Hid) as (item & Hi).
    pose proof (sorted_ids_unique _ _ _ _ Hsorted Hin Hi). discriminate.
Qed.

End worker.

(** After an update, the transaction of the batch cannot begin: the entry
    stays pending and the tables are untouched. *)
Lemma processBatch_failed_transaction_witness :
  let wu := snd (service.UpdateUserScore 2 4950 arena) in
  let w := set_fault wu (λ tick, Nat.eqb tick (S (calls wu))) in
  users (dbsync.processBatch w) = users w
  ∧ score_updates (dbsync.processBatch w) = score_updates w
  ∧ 1%nat ∈ group_pel (dbsync.processBatch w).
Proof.
  intros wu w.
  destruct (processBatch_failed_transaction w
              [DBSyncQueueItem.mk 2 4900 4950 0] [1%nat] (transport "postgres"))
    as (Hu & Hs & _ & _ & Hp).
  - vm_compute. repeat split; repeat constructor.
  - reflexivity.
  - reflexivity.
  - discriminate.
  - reflexivity.
  - split; [exact Hu |]. split; [exact Hs |].
    apply (Hp (1%nat, json_of (DBSyncQueueItem.mk 2 4900 4950 0))).
    vm_compute. left.
Defined.

Lemma pending_entry_is_never_retried_witness :
  let wu := snd (service.UpdateUserScore 2 4950 arena) in
  let w := dbsync.processBatch (set_fault wu (λ tick, Nat.eqb tick (S (calls wu)))) in
  1%nat ∈ group_pel
            (dbsync.run w [dbsync.EvProcessBatch; dbsync.EvUpdate 3 5100;
                           dbsync.EvProcessBatch]).
Proof.
  intros wu w.
  apply (pending_entry_is_never_retried w 1
           [dbsync.EvProcessBatch; dbsync.EvUpdate 3 5100; dbsync.EvProcessBatch]).
  - vm_compute. set_solver.
  - vm_compute. lia.
Defined.

Lemma processBatch_skips_undecodable_witness :
  let w := set_stream arena [(1%nat, garbage "{"); (2%nat, json_of unread_item)] 2 in
  1%nat ∈ group_pel (dbsync.processBatch w)
  ∧ 2%nat ∉ group_pel (dbsync.processBatch w).
Proof.
  intros w.
  destruct (processBatch_skips_undecodable w 1 "{") as (Hp & _).
  - vm_compute. repeat split; repeat constructor.
  - reflexivity.
  - vm_compute. left.
  - split; [exact Hp |]. vm_compute. set_solver.
Defined.

(** ** What a broadcast delivers *)

Section delivery.

Import websocket.

Lemma broadcast_one_effect message h c ch :
  send h !! c = Some ch → closed ch = false →
  ∃ h', broadcast_one message h c = Ok h'
    ∧ send h' = <[c := delivered message ch]> (send h)
    ∧ clients h'
      = (if (length (queue ch) <? cap ch)%nat then clients h else clients h ∖ {[c]}).
Proof.
  intros Hs Hopen. unfold broadcast_one, delivered. rewrite Hs, Hopen.
  destruct (length (queue ch) <? cap ch)%nat; [by eexists |].
  rewrite (close_open h c ch) by done. by eexists.
Qed.

Lemma broadcast_all_effect message order h :
  NoDup order →
  (∀ c, c ∈ order → ∃ ch, send h !! c = Some ch ∧ closed ch = false) →
  ∃ h', broadcast_all message order h = Ok h'
    ∧ (∀ c, c ∉ order →
         send h' !! c = send h !! c ∧ (c ∈ clients h' ↔ c ∈ clients h))
    ∧ (∀ c ch, c ∈ order → send h !! c = Some ch →
         send h' !! c = Some (delivered message ch)
         ∧ (c ∈ clients h'
            ↔ c ∈ clients h ∧ (length (queue ch) < cap ch)%nat)).
Proof.
  revert h. induction order as [| c rest IH]; intros h Hnd Hopen.
  - exists h. split; [done |]. split; [done |].
    intros c ch Hc. by apply elem_of_nil in Hc.
  - apply NoDup_cons in Hnd as [Hnotin Hnd].
    destruct (Hopen c ltac:(left)) as (ch & Hs & Hc).
    destruct (broadcast_one_effect message h c ch Hs Hc) as (h1 & E1 & Hs1 & Hc1).
    cbn [broadcast_all]. rewrite E1.
    destruct (IH h1 Hnd) as (h' & E' & Hout & Hin).
    { intros c' Hc'. rewrite Hs1, lookup_insert_ne by set_solver.
      apply Hopen. by right. }
    exists h'. split; [done |]. split.
    + intros c' Hc'. apply not_elem_of_cons in Hc' as [Hne Hc'].
      destruct (Hout c' Hc') as [-> ->].
      rewrite Hs1, Hc1, lookup_insert_ne by done.
      split; [done |]. destruct (length (queue ch) <? cap ch)%nat; set_solver.
    + intros c' ch' Hc' Hs'. apply elem_of_cons in Hc' as [-> | Hc'].
      * rewrite Hs in Hs'. injection Hs' as <-.
        destruct (Hout c Hnotin) as [-> ->].
        rewrite Hs1, Hc1, lookup_insert_eq. split; [done |].
        destruct (length (queue ch) <? cap ch)%nat eqn:E.
        -- apply Nat.ltb_lt in E. set_solver.
        -- apply Nat.ltb_ge in E. split; [set_solver | lia].
      * assert (c' ≠ c) as Hne by set_solver.
        destruct (Hin c' ch' Hc') as [-> ->].
        { by rewrite Hs1, lookup_insert_ne. }
        split; [done |]. rewrite Hc1.
        destruct (length (queue ch) <? cap ch)%nat; set_solver.
Qed.

(** X27.  A broadcast in a reachable hub visits every registered client
    once.  A client whose buffer has room gets the message at the end of
    its queue and stays registered; a client whose buffer is full gets
    nothing, its channel is closed and it leaves the registry.  Clients
    that are not registered are not touched, and nobody joins. *)
Theorem broadcast_reaches_every_registered_client
    (h : Hub) (message : string) (order : list nat) :
  reachable h → enabled h (Publish message order) →
  ∃ h',
    act h (Publish message order) = Ok h'
    ∧ (∀ c ch, c ∈ clients h → send h !! c = Some ch →
         (length (queue ch) < cap ch)%nat →
         send h' !! c = Some (mkChan (queue ch ++ [message]) (cap ch) false)
         ∧ c ∈ clients h')
    ∧ (∀ c ch, c ∈ clients h → send h !! c = Some ch →
         (cap ch ≤ length (queue ch))%nat →
         send h' !! c = Some (mkChan (queue ch) (cap ch) true)
         ∧ c ∉ clients h')
    ∧ (∀ c, c ∉ clients h → send h' !! c = send h !! c ∧ c ∉ clients h').
Proof.
  intros Hr Hen. pose proof (reachable_inv h Hr) as Hinv. simpl in Hen.
  assert (∀ c, c ∈ order ↔ c ∈ clients h) as Hord.
  { intros c. by rewrite Hen, elem_of_elements. }
  destruct (broadcast_all_effect message order h) as (h' & E & Hout & Hin).
  { rewrite Hen. apply NoDup_elements. }
  { intros c Hc. apply (inv_open h Hinv). by apply Hord. }
  exists h'. split; [exact E |]. split; [| split].
  - intros c ch Hc Hs Hroom. destruct (Hin c ch) as [-> Hreg]; [by apply Hord | done |].
    unfold delivered. apply Nat.ltb_lt in Hroom as Hb. rewrite Hb.
    split; [done |]. by apply Hreg.
  - intros c ch Hc Hs Hfull. destruct (Hin c ch) as [-> Hreg]; [by apply Hord | done |].
    unfold delivered. apply Nat.ltb_ge in Hfull as Hb. rewrite Hb.
    split; [done |]. intros Hc'. apply Hreg in Hc' as [_ Hlt]. lia.
  - intros c Hc. destruct (Hout c) as [-> Hiff]; [by rewrite Hord |].
    split; [done |]. by rewrite Hiff.
Qed.

Lemma broadcast_reaches_every_registered_client_witness :
  ∃ h',
    act hub_one_client (Publish "m" [0%nat]) = Ok h'
    ∧ send h' !! 0%nat = Some (mkChan ["m"] 256 false)
    ∧ 0%nat ∈ clients h'.
Proof.
  destruct (broadcast_reaches_every_registered_client hub_one_client "m" [0%nat]
              hub_one_client_reachable)
    as (h' & E & Hroom & _).
  - vm_compute. reflexivity.
  - exists h'. split; [exact E |].
    apply (Hroom 0%nat (mkChan [] 256 false)).
    + vm_compute. set_solver.
    + reflexivity.
    + simpl. lia.
Defined.

End delivery.
